(** * Biggus Griddus: the collection-view pipeline

    A shallow embedding of the change-event bus, the change-record model,
    the root collection ([DataSource]) and the three view transforms
    ([FilterView], [SortView], [WindowView]) of the grid library, together
    with the binary-search helper [findInsertionIndex].

    Conventions of the embedding.
    - Items are JavaScript objects. An object is represented by its
      reference (a type [T] with decidable equality, which is what [===]
      and [indexOf] compare); the mutable contents of the objects live in a
      store [T -> V]. The identifier accessor reads an immutable field and
      is therefore a function of the reference alone.
    - Array indices are JavaScript numbers holding integers: they are [Z],
      and [indexOf] answers [-1] for a missing element.
    - A method returns an [outcome]: the state it leaves behind and the
      change records it raised, either after a normal return or at the
      point where an exception escaped.
    - [console.assert], [console.warn] and [console.error] only log; they
      are not part of the state and do not alter control flow. *)

From Stdlib Require Import ZArith List Lia QArith Permutation Sorted.
From stdpp Require Import base option list sorting functions gmap strings.
Import ListNotations.

Local Open Scope Z_scope.

(** ** JavaScript array primitives *)

Section JsArray.
Context {A : Type} `{EqDecision A}.

(** [items[index]]: [None] stands for [undefined]. *)
Definition js_get (l : list A) (index : Z) : option A :=
  if index <? 0 then None else l !! Z.to_nat index.

(** [Array.prototype.indexOf]. *)
Fixpoint indexOf (x : A) (l : list A) : Z :=
  match l with
  | [] => -1
  | y :: l' =>
      if decide (y = x) then 0
      else let r := indexOf x l' in if r <? 0 then -1 else r + 1
  end.

(** The normalised start position of [splice(index, ...)]: a negative
    index counts from the end, and everything is clamped to the array. *)
Definition splice_start (index : Z) (l : list A) : nat :=
  let len := Z.of_nat (length l) in
  Z.to_nat (if index <? 0 then Z.max (len + index) 0 else Z.min index len).

(** [l.splice(index, 1)]: the array that is left. *)
Definition splice_delete (index : Z) (l : list A) : list A :=
  delete (splice_start index l) l.

(** [l.splice(index, 1)[0]]. *)
Definition splice_removed (index : Z) (l : list A) : option A :=
  l !! splice_start index l.

(** [l.splice(index, 0, x)]. *)
Definition splice_insert (index : Z) (x : A) (l : list A) : list A :=
  take (splice_start index l) l ++ x :: drop (splice_start index l) l.

(** Taking an element out if it is there: [indexOf], then
    [splice(index, 1)] when it was found. *)
Definition without (x : A) (l : list A) : list A :=
  if indexOf x l <? 0 then l else splice_delete (indexOf x l) l.
End JsArray.

(** ** Outcomes of a method call *)

Inductive outcome (S E : Type) : Type :=
| Returned (s : S) (evs : list E)
| Threw (s : S) (evs : list E).
Arguments Returned {S E} s evs.
Arguments Threw {S E} s evs.

Definition final_state {S E} (o : outcome S E) : S :=
  match o with Returned s _ | Threw s _ => s end.

Definition raised {S E} (o : outcome S E) : list E :=
  match o with Returned _ evs | Threw _ evs => evs end.

Definition threw {S E} (o : outcome S E) : bool :=
  match o with Returned _ _ => false | Threw _ _ => true end.

(** ** The change-record model *)

Inductive SortDirection := Ascending | Descending.

#[global] Instance SortDirection_eq_dec : EqDecision SortDirection.
Proof. solve_decision. Defined.

(** [CollectionChange<T>] is a tagged record; the fields that a factory
    leaves at a sentinel ([-1], [null]) or unset carry no information and
    are omitted from the variant. *)
Inductive CollectionChange (T : Type) : Type :=
| Insert (item : T) (itemId : string) (newIndex : Z) (isNewlyAdded : bool)
| Update (item : T) (itemId : string) (newIndex : Z)
| Remove (item : T) (itemId : string) (oldIndex : Z)
| Move (item : T) (itemId : string) (oldIndex newIndex : Z)
| Reset
| Replace (oldItem : T) (oldItemId : string) (oldIndex : Z)
          (item : T) (itemId : string) (newIndex : Z)
| Scroll.
Arguments Insert {T}.
Arguments Update {T}.
Arguments Remove {T}.
Arguments Move {T}.
Arguments Reset {T}.
Arguments Replace {T}.
Arguments Scroll {T}.

Module CollectionChange_.
Section Factories.
Context {U : Type}.
Definition insert (item : U) (itemId : string) (index : Z) (isNewlyAdded : bool) :=
  Insert item itemId index isNewlyAdded.
Definition remove (item : U) (itemId : string) (index : Z) :=
  Remove item itemId index.
(** The factory accepts [isNewlyAdded] but never stores it. *)
Definition replace (oldItem : U) (oldItemId : string) (oldIndex : Z)
    (newItem : U) (newItemId : string) (newIndex : Z) (isNewlyAdded : bool) :=
  Replace oldItem oldItemId oldIndex newItem newItemId newIndex.
Definition update (item : U) (itemId : string) (index : Z) :=
  Update item itemId index.
Definition move (item : U) (itemId : string) (oldIndex newIndex : Z) :=
  Move item itemId oldIndex newIndex.
Definition reset : CollectionChange U := Reset.
Definition scroll : CollectionChange U := Scroll.
End Factories.
End CollectionChange_.

Definition is_Remove {T} (c : CollectionChange T) : bool :=
  match c with Remove _ _ _ => true | _ => false end.

(** ** What a change record tells its consumer

    The record kinds are documented with the enumeration: an item "is to be
    inserted at the specified position", "is to be removed at the specified
    position", "is to be moved to a new position" or "is being replaced
    with another", and an updated item changes neither position nor
    identifier. The grid applies them to its rows in this way, a move or a
    replacement taking the row out before putting it (or its successor)
    back, so that the new index counts in the rows without the old one.
    [applyChange] is this reading on a sequence of rows; [None] is a record
    that does not fit the rows, or a [Reset], after which the consumer
    pulls the whole sequence again. *)

Section Consumer.
Context {T : Type} `{EqDecision T}.

Definition insertAt (index : Z) (x : T) (rows : list T) : option (list T) :=
  if (0 <=? index) && (index <=? Z.of_nat (length rows))
  then Some (take (Z.to_nat index) rows ++ x :: drop (Z.to_nat index) rows)
  else None.

Definition removeAtRow (index : Z) (x : T) (rows : list T) : option (list T) :=
  if decide (js_get rows index = Some x)
  then Some (delete (Z.to_nat index) rows)
  else None.

Definition applyChange (rows : list T) (c : CollectionChange T) : option (list T) :=
  match c with
  | Insert item _ index _ => insertAt index item rows
  | Update item _ index =>
      if decide (js_get rows index = Some item) then Some rows else None
  | Remove item _ index => removeAtRow index item rows
  | Move item _ oldIndex newIndex =>
      rows' ← removeAtRow oldIndex item rows; insertAt newIndex item rows'
  | Reset => None
  | Replace oldItem _ oldIndex item _ newIndex =>
      rows' ← removeAtRow oldIndex oldItem rows; insertAt newIndex item rows'
  | Scroll => Some rows
  end.

Fixpoint replay (rows : list T) (cs : list (CollectionChange T)) : option (list T) :=
  match cs with
  | [] => Some rows
  | c :: cs' => rows' ← applyChange rows c; replay rows' cs'
  end.
End Consumer.

(** ** The change-event bus: [Event<T>] *)

Module Event.
Section Bus.
(** Callbacks are closures, compared by reference. *)
Context {CB : Type} `{EqDecision CB}.

Record Event := { callbacks : list CB }.

Definition subscribe (callback : CB) (e : Event) : Event :=
  {| callbacks := callbacks e ++ [callback] |}.

(** The closure returned by [subscribe]. *)
Definition unsubscribe (callback : CB) (e : Event) : Event :=
  let index := indexOf callback (callbacks e) in
  if index =? -1 then e
  else {| callbacks := splice_delete index (callbacks e) |}.

Definition getSubscriberCount (e : Event) : Z := Z.of_nat (length (callbacks e)).

(** How a handler leaves: normally or by an exception, in either case
    with the bus in the state the handler's own code put it in. *)
Inductive exit := Normal (e : Event) | Exception (e : Event).

Definition bus_after (x : exit) : Event :=
  match x with Normal e | Exception e => e end.

(** [collect(handler)]: [fresh] is the closure [a => args.push(a)]
    created by the call. The three statements run in sequence, with no
    [try]/[finally] around the handler. *)
Definition collect (fresh : CB) (handler : Event -> exit) (e : Event) : exit :=
  let e1 := subscribe fresh e in
  match handler e1 with
  | Normal e2 => Normal (unsubscribe fresh e2)
  | Exception e2 => Exception e2
  end.

(** What a client of the bus can do to its subscriptions: subscribe a
    callback, or call the cancelling closure it got for one. *)
Inductive BusOp :=
| Subscribe (callback : CB)
| Cancel (callback : CB).

Definition subject (op : BusOp) : CB :=
  match op with Subscribe callback | Cancel callback => callback end.

Definition perform (e : Event) (op : BusOp) : Event :=
  match op with
  | Subscribe callback => subscribe callback e
  | Cancel callback => unsubscribe callback e
  end.

Definition performAll (ops : list BusOp) (e : Event) : Event :=
  fold_left perform ops e.
End Bus.

Section Dispatch.
(** A callback run on the raised item acts on the world [W] around the
    bus, and possibly on the bus itself (it may subscribe or
    unsubscribe). *)
Context {CB W : Type} `{EqDecision CB}
        (invoke : CB -> Event (CB := CB) * W -> Event (CB := CB) * W).

(** [raise(item)]: the loop reads the length and the [i]-th callback of
    the live list at every turn. [fuel] bounds the turns; [None] is an
    exhausted fuel. *)
Fixpoint raise_loop (fuel : nat) (i : nat) (st : Event (CB := CB) * W)
  : option (Event (CB := CB) * W) :=
  match callbacks st.1 !! i with
  | None => Some st
  | Some callback =>
      match fuel with
      | O => None
      | S fuel' => raise_loop fuel' (S i) (invoke callback st)
      end
  end.

Definition raise (fuel : nat) (st : Event (CB := CB) * W) : option (Event (CB := CB) * W) :=
  raise_loop fuel 0 st.
End Dispatch.
Arguments Event CB : clear implicits.
Arguments BusOp CB : clear implicits.
End Event.

(** ** Plain objects used as dictionaries

    A plain object inherits the properties of [Object.prototype]; reading
    one of these names on an object that stores nothing under it finds the
    inherited function (or, for [__proto__], the prototype object). *)

Definition inheritedNames : list string :=
  ["constructor"; "toString"; "toLocaleString"; "valueOf"; "hasOwnProperty";
   "isPrototypeOf"; "propertyIsEnumerable"; "__proto__"; "__defineGetter__";
   "__defineSetter__"; "__lookupGetter__"; "__lookupSetter__"]%string.

Definition inheritedProperty (name : string) : bool :=
  existsb (String.eqb name) inheritedNames.

(** What a read of a property finds: a value stored on the object itself,
    or an inherited one. *)
Inductive Found (T : Type) :=
| Own (item : T)
| Inherited.
Arguments Own {T} item.
Arguments Inherited {T}.

(** ** The root collection: [DataSource<T>] *)

Module DataSource.
Section Root.
Context {T : Type} `{EqDecision T} (getItemId : T -> string).

Record DataSource := {
  items : list T;
  itemById : gmap string T
}.

Definition empty : DataSource := {| items := []; itemById := ∅ |}.

(** [this.itemById[id]]: the map is a plain object ([{}]) used as a
    dictionary, so a read finds the item stored under the identifier or,
    when nothing is stored there and the identifier names a property that
    every object inherits, the inherited value. [getById(id)] returns what
    the read finds. *)
Definition getById (s : DataSource) (id : string) : option (Found T) :=
  match itemById s !! id with
  | Some item => Some (Own item)
  | None => if inheritedProperty id then Some Inherited else None
  end.

(** [!!this.itemById[itemId]]: items are objects and the inherited values
    are functions or objects, all of them truthy. *)
Definition idExists (s : DataSource) (itemId : string) : bool :=
  bool_decide (is_Some (getById s itemId)).

(** "Append new item": push the item and register its identifier. *)
Definition appended (s : DataSource) (item : T) : DataSource :=
  {| items := items s ++ [item];
     itemById := <[getItemId item := item]> (itemById s) |}.

(** [subscribeItemUpdates] registers a closure on the item itself; it
    neither touches the collection nor raises anything. *)
Definition add (s : DataSource) (item : T)
  : outcome DataSource (CollectionChange T) :=
  let itemId := getItemId item in
  if idExists s itemId then Threw s []
  else
    let s' := appended s item in
    Returned s' [CollectionChange_.insert item itemId (Z.of_nat (length (items s')) - 1) true].

(** The loop of [addRange]: [inr] is the state at the [throw]. *)
Fixpoint addRange_loop (s : DataSource) (new : list T) : DataSource + DataSource :=
  match new with
  | [] => inl s
  | item :: rest =>
      let itemId := getItemId item in
      if idExists s itemId then inr s
      else addRange_loop (appended s item) rest
  end.

Definition addRange (s : DataSource) (new : list T)
  : outcome DataSource (CollectionChange T) :=
  match addRange_loop s new with
  | inl s' => Returned s' [CollectionChange_.reset; CollectionChange_.scroll]
  | inr s' => Threw s' []
  end.

(** [removeAt]: when nothing is removed the accessor is applied to
    [undefined] and throws. *)
Definition removeAt (s : DataSource) (index : Z)
  : outcome DataSource (CollectionChange T) :=
  match splice_removed index (items s) with
  | None => Threw s []
  | Some removed =>
      let itemId := getItemId removed in
      Returned {| items := splice_delete index (items s);
                  itemById := delete itemId (itemById s) |}
               [CollectionChange_.remove removed itemId index]
  end.

Definition reset (s : DataSource) : outcome DataSource (CollectionChange T) :=
  Returned s [CollectionChange_.reset].

Definition clear (s : DataSource) : outcome DataSource (CollectionChange T) :=
  reset empty.

Definition getAllItems (s : DataSource) : list T := items s.

(** The constructor adds the initial items one by one. *)
Fixpoint add_all (s : DataSource) (init : list T) : outcome DataSource (CollectionChange T) :=
  match init with
  | [] => Returned s []
  | item :: rest =>
      match add s item with
      | Returned s' evs =>
          match add_all s' rest with
          | Returned s'' evs' => Returned s'' (evs ++ evs')
          | Threw s'' evs' => Threw s'' (evs ++ evs')
          end
      | Threw s' evs => Threw s' evs
      end
  end.

Definition new (init : list T) := add_all empty init.

(** The identifier map is the sequence seen by identifier: identifiers
    are unique, every item of the sequence is registered under its
    identifier, nothing else is registered, and no item of the sequence
    has an identifier that names an inherited property ([add] and
    [addRange] refuse such an item). *)
Definition consistent (s : DataSource) : Prop :=
  NoDup (map getItemId (items s)) /\
  (forall x, In x (items s) -> itemById s !! getItemId x = Some x) /\
  (forall k x, itemById s !! k = Some x -> In x (items s) /\ getItemId x = k) /\
  (forall x, In x (items s) -> inheritedProperty (getItemId x) = false).

(** [move(oldIndex, newIndex)]; the two [console.assert] only log. When
    [splice(oldIndex, 1)] takes nothing out, the array receives
    [undefined], which the arrays of the model cannot hold: [None]. *)
Definition move (s : DataSource) (oldIndex newIndex : Z)
  : option (outcome DataSource (CollectionChange T)) :=
  match splice_removed oldIndex (items s) with
  | None => None
  | Some item =>
      Some (Returned {| items := splice_insert newIndex item
                                   (splice_delete oldIndex (items s));
                        itemById := itemById s |}
                     [CollectionChange_.move item (getItemId item) oldIndex newIndex])
  end.

(** [get(index)]. *)
Definition get (s : DataSource) (index : Z) : option T := js_get (items s) index.

(** The calls a client can make on the collection. *)
Inductive Call :=
| CallAdd (item : T)
| CallAddRange (new : list T)
| CallRemoveAt (index : Z)
| CallMove (oldIndex newIndex : Z)
| CallReset
| CallClear.

Definition call (s : DataSource) (c : Call)
  : option (outcome DataSource (CollectionChange T)) :=
  match c with
  | CallAdd item => Some (add s item)
  | CallAddRange new => Some (addRange s new)
  | CallRemoveAt index => Some (removeAt s index)
  | CallMove oldIndex newIndex => move s oldIndex newIndex
  | CallReset => Some (reset s)
  | CallClear => Some (clear s)
  end.

(** A sequence of calls by a client that catches what is thrown and
    carries on with the collection as the failed call left it. *)
Fixpoint calls (s : DataSource) (cs : list Call) : option DataSource :=
  match cs with
  | [] => Some s
  | c :: cs' => o ← call s c; calls (final_state o) cs'
  end.

(** [subscribeItemUpdates(item)], for items that implement
    [INotifyChange]: the collection registers one more closure on the item.
    The cancelling closure that [subscribeChange] returns is dropped, so
    no method of the collection ever takes a registration back. [subs x]
    counts the closures of the collection on [x]. *)
Definition subscribeItemUpdates (subs : T -> nat) (item : T) : T -> nat :=
  <[item := S (subs item)]> subs.

(** The registrations after [add(item)]: the check for a repeated
    identifier throws before the item is subscribed. *)
Definition add_subs (s : DataSource) (subs : T -> nat) (item : T) : T -> nat :=
  if idExists s (getItemId item) then subs else subscribeItemUpdates subs item.

(** What [changedItem.notifyChange()] makes the collection raise: each of
    its closures on the item looks the item up in the sequence and raises
    an [Update] with what [indexOf] answers. *)
Definition itemChanged (s : DataSource) (subs : T -> nat) (changedItem : T)
  : list (CollectionChange T) :=
  replicate (subs changedItem)
    (CollectionChange_.update changedItem (getItemId changedItem)
       (indexOf changedItem (items s))).
End Root.
Arguments DataSource T : clear implicits.
Arguments Call T : clear implicits.
End DataSource.

(** ** The filter transform: [FilterView<T>] *)

Module FilterView.
Section Filter.
Context {T V : Type} `{EqDecision T} (getItemId : T -> string).

(** A predicate inspects the current contents of an item; [None] is the
    absent ([null] / [undefined]) predicate. *)
Record FilterView := {
  items : list T;
  itemFilterState : gmap string bool;
  predicate : option (V -> bool)
}.

(** [!predicate || predicate(item)], with the item read in store [σ]. *)
Definition passes (predicate : option (V -> bool)) (σ : T -> V) (item : T) : bool :=
  match predicate with
  | None => true
  | Some p => p (σ item)
  end.

Definition append (fv : FilterView) (item : T) (itemId : string) (isNewlyAdded : bool)
  : FilterView * list (CollectionChange T) :=
  let items' := items fv ++ [item] in
  ({| items := items'; itemFilterState := itemFilterState fv; predicate := predicate fv |},
   [CollectionChange_.insert item itemId (Z.of_nat (length items') - 1) isNewlyAdded]).

Definition remove (fv : FilterView) (item : T) (itemId : string)
  : FilterView * list (CollectionChange T) :=
  let index := indexOf item (items fv) in
  ({| items := splice_delete index (items fv);
      itemFilterState := itemFilterState fv; predicate := predicate fv |},
   [CollectionChange_.remove item itemId index]).

Definition setState (fv : FilterView) (itemId : string) (b : bool) : FilterView :=
  {| items := items fv; itemFilterState := <[itemId := b]> (itemFilterState fv);
     predicate := predicate fv |}.

Definition deleteState (fv : FilterView) (itemId : string) : FilterView :=
  {| items := items fv; itemFilterState := delete itemId (itemFilterState fv);
     predicate := predicate fv |}.

(** One turn of the loop of the [Reset] case when a predicate is set. *)
Definition reset_step (p : V -> bool) (σ : T -> V)
    (acc : list T * gmap string bool) (item : T) : list T * gmap string bool :=
  let matches := p (σ item) in
  (if matches then acc.1 ++ [item] else acc.1, <[getItemId item := matches]> acc.2).

(** The [Reset] case: both the sequence and the cache start afresh. *)
Definition rebuild (fv : FilterView) (σ : T -> V) (sourceItems : list T) : FilterView :=
  match predicate fv with
  | Some p =>
      let r := fold_left (reset_step p σ) sourceItems ([], ∅) in
      {| items := r.1; itemFilterState := r.2; predicate := predicate fv |}
  | None =>
      {| items := [] ++ sourceItems;
         itemFilterState :=
           fold_left (fun st item => <[getItemId item := true]> st) sourceItems ∅;
         predicate := predicate fv |}
  end.

(** [onSourceChanged(event)]; [σ] is the store and [sourceItems] the
    upstream's [getAllItems()] at the time the event is delivered. *)
Definition onSourceChanged (σ : T -> V) (sourceItems : list T)
    (fv : FilterView) (event : CollectionChange T)
  : FilterView * list (CollectionChange T) :=
  match event with
  | Insert item itemId _ isNewlyAdded =>
      let passesFilter := passes (predicate fv) σ item in
      let fv1 := setState fv itemId passesFilter in
      if passesFilter then append fv1 item itemId isNewlyAdded else (fv1, [])
  | Remove item itemId _ =>
      let passesFilter := passes (predicate fv) σ item in
      if negb passesFilter then (fv, [])
      else remove (deleteState fv itemId) item itemId
  | Update item itemId _ =>
      let passesFilter := passes (predicate fv) σ item in
      let priorState := itemFilterState fv !! itemId in
      if decide (priorState = Some passesFilter) then
        if passesFilter
        then (fv, [CollectionChange_.update item itemId (indexOf item (items fv))])
        else (fv, [])
      else
        let fv1 := setState fv itemId passesFilter in
        match priorState with
        | Some true => remove fv1 item itemId
        | _ => append fv1 item itemId false
        end
  | Move _ _ _ _ => (fv, [])
  | Reset => (rebuild fv σ sourceItems, [event])
  | Scroll => (fv, [event])
  | Replace _ _ _ _ _ _ => (fv, [])
  end.

(** One turn of the loop of [setPredicate]: the cache, the passing items
    gathered so far, and [hasChange]. *)
Definition setPredicate_step (p : option (V -> bool)) (σ : T -> V)
    (acc : gmap string bool * list T * bool) (item : T)
  : gmap string bool * list T * bool :=
  let '(st, filteredItems, hasChange) := acc in
  let itemId := getItemId item in
  let passesFilter := passes p σ item in
  let priorState := st !! itemId in
  let '(st', hasChange') :=
    if decide (priorState = Some passesFilter) then (st, hasChange)
    else (<[itemId := passesFilter]> st, true) in
  (st', if passesFilter then filteredItems ++ [item] else filteredItems, hasChange').

Definition setPredicate (σ : T -> V) (sourceItems : list T)
    (fv : FilterView) (p : option (V -> bool))
  : FilterView * list (CollectionChange T) :=
  let '(st, filteredItems, hasChange) :=
    fold_left (setPredicate_step p σ) sourceItems (itemFilterState fv, [], false) in
  if hasChange
  then ({| items := filteredItems; itemFilterState := st; predicate := p |},
        [CollectionChange_.reset; CollectionChange_.scroll])
  else ({| items := items fv; itemFilterState := st; predicate := p |}, []).

(** The constructor: empty sequence and cache, then [setPredicate]. *)
Definition new (σ : T -> V) (sourceItems : list T) (p : option (V -> bool)) : FilterView :=
  (setPredicate σ sourceItems
     {| items := []; itemFilterState := ∅; predicate := None |} p).1.

Definition getAllItems (fv : FilterView) : list T := items fv.

(** The upstream items for which the predicate answers true, in upstream
    order. *)
Definition passing (p : option (V -> bool)) (σ : T -> V) (sourceItems : list T) : list T :=
  filter (fun item => passes p σ item = true) sourceItems.
End Filter.
Arguments FilterView T V : clear implicits.
End FilterView.

(** ** A filter view attached to its upstream source

    The upstream owns a sequence of items with distinct identifiers; every
    change of the upstream is delivered to the view as one change record
    and processed to the end before the next change. An item changes its
    contents only by an update, which is followed at once by the [Update]
    record. Records describe the upstream truthfully: an [Insert] is for a
    new item, a [Remove] or an [Update] for an item the upstream holds (the
    view asserts that an updated identifier is known to it). *)

Module Pipeline.
Section FilterPipeline.
Context {T V : Type} `{EqDecision T} (getItemId : T -> string).

Record System := {
  store : T -> V;
  source : list T;
  view : FilterView.FilterView T V
}.

Inductive Change :=
| Inserted (item : T) (contents : V) (index : Z) (isNewlyAdded : bool)
| Removed (index : Z)
| Updated (index : Z) (contents : V)
| WasReset (σ : T -> V) (sourceItems : list T)
| Scrolled
| PredicateSet (p : option (V -> bool)).

Definition deliver (σ : T -> V) (sourceItems : list T)
    (fv : FilterView.FilterView T V) (event : CollectionChange T) : System :=
  {| store := σ; source := sourceItems;
     view := (FilterView.onSourceChanged getItemId σ sourceItems fv event).1 |}.

(** One change, fully processed; [None] when the change is not one the
    upstream can make (a repeated identifier, an index outside the
    sequence). *)
Definition exec (s : System) (c : Change) : option System :=
  match c with
  | Inserted item contents index isNewlyAdded =>
      if bool_decide (getItemId item ∉ getItemId <$> source s)
         && (0 <=? index) && (index <=? Z.of_nat (length (source s)))
      then Some (deliver (<[item := contents]> (store s))
                   (splice_insert index item (source s)) (view s)
                   (Insert item (getItemId item) index isNewlyAdded))
      else None
  | Removed index =>
      item ← js_get (source s) index;
      Some (deliver (store s) (splice_delete index (source s)) (view s)
              (Remove item (getItemId item) index))
  | Updated index contents =>
      item ← js_get (source s) index;
      Some (deliver (<[item := contents]> (store s)) (source s) (view s)
              (Update item (getItemId item) index))
  | WasReset σ sourceItems =>
      if bool_decide (NoDup (getItemId <$> sourceItems))
      then Some (deliver σ sourceItems (view s) Reset)
      else None
  | Scrolled => Some (deliver (store s) (source s) (view s) Scroll)
  | PredicateSet p =>
      Some {| store := store s; source := source s;
              view := (FilterView.setPredicate getItemId (store s) (source s) (view s) p).1 |}
  end.

Fixpoint run (s : System) (cs : list Change) : option System :=
  match cs with
  | [] => Some s
  | c :: cs' => s' ← exec s c; run s' cs'
  end.

(** A view constructed over a source. *)
Definition attach (σ : T -> V) (sourceItems : list T) (p : option (V -> bool)) : System :=
  {| store := σ; source := sourceItems;
     view := FilterView.new getItemId σ sourceItems p |}.

(** What holds of a view between two changes: upstream identifiers are
    distinct, the cache holds the current verdict of the predicate for
    every upstream item, and the visible sequence consists of exactly the
    passing upstream items, each once. *)
Definition invariant (s : System) : Prop :=
  NoDup (getItemId <$> source s) /\
  (forall item, item ∈ source s ->
     FilterView.itemFilterState (view s) !! getItemId item
     = Some (FilterView.passes (FilterView.predicate (view s)) (store s) item)) /\
  FilterView.items (view s)
    ≡ₚ FilterView.passing (FilterView.predicate (view s)) (store s) (source s).

(** The records the view raises while it processes one change. *)
Definition raisedBy (s : System) (c : Change) : list (CollectionChange T) :=
  match c with
  | Inserted item contents index isNewlyAdded =>
      (FilterView.onSourceChanged getItemId (<[item := contents]> (store s))
         (splice_insert index item (source s)) (view s)
         (Insert item (getItemId item) index isNewlyAdded)).2
  | Removed index =>
      match js_get (source s) index with
      | Some item =>
          (FilterView.onSourceChanged getItemId (store s)
             (splice_delete index (source s)) (view s)
             (Remove item (getItemId item) index)).2
      | None => []
      end
  | Updated index contents =>
      match js_get (source s) index with
      | Some item =>
          (FilterView.onSourceChanged getItemId (<[item := contents]> (store s))
             (source s) (view s) (Update item (getItemId item) index)).2
      | None => []
      end
  | WasReset σ sourceItems =>
      (FilterView.onSourceChanged getItemId σ sourceItems (view s) Reset).2
  | Scrolled =>
      (FilterView.onSourceChanged getItemId (store s) (source s) (view s) Scroll).2
  | PredicateSet p =>
      (FilterView.setPredicate getItemId (store s) (source s) (view s) p).2
  end.
End FilterPipeline.
Arguments System T V : clear implicits.
Arguments Change T V : clear implicits.
End Pipeline.

(** ** Binary search for the insertion point *)

Section FindInsertionIndex.
Context {T : Type} `{EqDecision T}.

(** The [while] loop. Each turn either returns or strictly shrinks
    [maxIndex - minIndex], so [fuel] bounds the number of turns; [None] is
    an exhausted fuel or an array read outside the bounds (whose
    [undefined] would be handed to the comparator). [(a + b) / 2 | 0]
    truncates, which is [Z.quot]. *)
Fixpoint findInsertionIndex_loop (fuel : nat) (items : list T) (target : T)
    (comparator : T -> T -> Z) (minIndex maxIndex : Z) : option Z :=
  let len := Z.of_nat (length items) in
  if minIndex <? maxIndex then
    match fuel with
    | O => None
    | S fuel' =>
        let index := Z.quot (minIndex + maxIndex) 2 in
        item ← js_get items index;
        if decide (item = target) then
          if index =? 0 then Some minIndex
          else if index =? len - 1 then Some (len - 1)
          else
            below ← js_get items (index - 1);
            above ← js_get items (index + 1);
            let orderedBelow := comparator below target <? 0 in
            let orderedAbove := comparator target above <? 0 in
            if Bool.eqb orderedBelow orderedAbove then Some index
            else if orderedBelow
                 then findInsertionIndex_loop fuel' items target comparator (index + 1) maxIndex
                 else findInsertionIndex_loop fuel' items target comparator minIndex (index - 1)
        else
          let comp := comparator target item in
          if comp =? 0 then Some index
          else if comp >? 0
               then findInsertionIndex_loop fuel' items target comparator (index + 1) maxIndex
               else findInsertionIndex_loop fuel' items target comparator minIndex index
    end
  else if minIndex =? len - 1 then
    last ← js_get items (len - 1);
    if comparator last target <? 0 then Some len else Some minIndex
  else Some minIndex.

Definition findInsertionIndex (items : list T) (target : T)
    (comparator : T -> T -> Z) : option Z :=
  if Z.of_nat (length items) =? 0 then Some 0
  else findInsertionIndex_loop (length items) items target comparator
         0 (Z.of_nat (length items) - 1).
End FindInsertionIndex.

(** The comparator contract: negative when [a] sorts before [b], positive
    when it sorts after, zero on a tie, consistently in both argument
    orders and transitively. *)
Record Comparator {T : Type} (comparator : T -> T -> Z) : Prop := {
  cmp_antisym : forall a b, comparator a b < 0 <-> 0 < comparator b a;
  cmp_trans : forall a b c, comparator a b <= 0 -> comparator b c <= 0 -> comparator a c <= 0
}.

(** A sequence is sorted when every element sorts no later than every
    element after it. *)
Definition sorted {T : Type} (comparator : T -> T -> Z) (items : list T) : Prop :=
  StronglySorted (fun a b => comparator a b <= 0) items.

(** The target sits at index [p] strictly between its neighbours: the one
    below sorts before it and the one above sorts after it (a missing
    neighbour imposes nothing). *)
Definition strictly_placed {T : Type} (comparator : T -> T -> Z)
    (items : list T) (target : T) (p : Z) : Prop :=
  js_get items p = Some target /\
  (forall x, js_get items (p - 1) = Some x -> comparator x target < 0) /\
  (forall y, js_get items (p + 1) = Some y -> comparator target y < 0).

(** What an answer [i] of the search means on a sorted array: everything
    before [i] sorts no later than the target, everything from [i] on sorts
    no earlier; if the target itself sits before [i], the element at [i]
    ties with it; and [i] is the length only if the last element sorts
    strictly before the target. *)
Definition below_ok {T : Type} (items : list T) (target : T)
    (comparator : T -> T -> Z) (i : Z) : Prop :=
  forall (k : nat) x, items !! k = Some x -> Z.of_nat k < i -> comparator x target <= 0.

Definition above_ok {T : Type} (items : list T) (target : T)
    (comparator : T -> T -> Z) (i : Z) : Prop :=
  forall (k : nat) x, items !! k = Some x -> i <= Z.of_nat k -> comparator target x <= 0.

Definition insertion_point {T : Type} (items : list T) (target : T)
    (comparator : T -> T -> Z) (i : Z) : Prop :=
  below_ok items target comparator i /\
  above_ok items target comparator i /\
  ((exists k : nat, Z.of_nat k < i /\ items !! k = Some target) ->
     below_ok items target comparator (i + 1)) /\
  (i = Z.of_nat (length items) ->
     forall x, js_get items (Z.of_nat (length items) - 1) = Some x -> comparator x target < 0).

(** [compare(a, b, sortDir)] on sort values; [None] is [undefined], which
    sorts last in either direction. *)
Definition compare (a b : option Z) (sortDir : SortDirection) : Z :=
  if decide (a = b) then 0
  else match a, b with
       | None, _ => 1
       | _, None => -1
       | Some x, Some y =>
           if x <? y
           then (if decide (sortDir = Ascending) then -1 else 1)
           else (if decide (sortDir = Ascending) then 1 else -1)
       end.

(** [Array.prototype.sort(comparefn)], as a stable insertion sort. *)
Section ArraySort.
Context {A : Type} (comparefn : A -> A -> Z).

Fixpoint sort_insert (x : A) (l : list A) : list A :=
  match l with
  | [] => [x]
  | y :: l' => if comparefn x y <=? 0 then x :: l else y :: sort_insert x l'
  end.

Definition array_sort (l : list A) : list A := fold_right sort_insert [] l.
End ArraySort.

(** ** The sort transform: [SortView<T>] *)

Module SortView.
Section Sort.
(** Columns are objects compared by reference; a column reads a sort
    value off the current contents of an item. Sort values are numbers,
    or [undefined] ([None]). *)
Context {T V Column : Type} `{EqDecision T} `{EqDecision Column}
        (getSortValue : Column -> V -> option Z)
        (getDefaultSortDirection : Column -> SortDirection).

Record SortView := {
  items : list T;
  sortColumn : option Column;
  sortDirection : SortDirection
}.

(** The closure handed to [sort] and to [findInsertionIndex]. *)
Definition comparator (σ : T -> V) (column : Column) (dir : SortDirection) (a b : T) : Z :=
  compare (getSortValue column (σ a)) (getSortValue column (σ b)) dir.

Definition reset (σ : T -> V) (sv : SortView) : SortView * list (CollectionChange T) :=
  ({| items := match sortColumn sv with
               | Some column => array_sort (comparator σ column (sortDirection sv)) (items sv)
               | None => items sv
               end;
      sortColumn := sortColumn sv;
      sortDirection := sortDirection sv |},
   [CollectionChange_.reset]).

Definition toggle (d : SortDirection) : SortDirection :=
  if decide (d = Ascending) then Descending else Ascending.

Definition setSortColumn (σ : T -> V) (sv : SortView) (column : option Column)
  : SortView * list (CollectionChange T) :=
  match column with
  | None => ({| items := items sv; sortColumn := None; sortDirection := Ascending |}, [])
  | Some c =>
      let dir := if decide (sortColumn sv = Some c)
                 then toggle (sortDirection sv)
                 else getDefaultSortDirection c in
      reset σ {| items := items sv; sortColumn := Some c; sortDirection := dir |}
  end.

Definition withItems (sv : SortView) (l : list T) : SortView :=
  {| items := l; sortColumn := sortColumn sv; sortDirection := sortDirection sv |}.

(** [onSourceChanged(event)]; [None] only if [findInsertionIndex] has no
    answer. *)
Definition onSourceChanged (σ : T -> V) (sourceItems : list T)
    (sv : SortView) (event : CollectionChange T)
  : option (SortView * list (CollectionChange T)) :=
  match event with
  | Insert item itemId _ isNewlyAdded =>
      insertIndex ← match sortColumn sv with
                    | Some column =>
                        findInsertionIndex (items sv) item
                          (comparator σ column (sortDirection sv))
                    | None => Some (Z.of_nat (length (items sv)))
                    end;
      Some (withItems sv (splice_insert insertIndex item (items sv)),
            [CollectionChange_.insert item itemId insertIndex isNewlyAdded])
  | Remove item itemId _ =>
      let index := indexOf item (items sv) in
      Some (withItems sv (splice_delete index (items sv)),
            [CollectionChange_.remove item itemId index])
  | Update item itemId _ =>
      let oldIndex := indexOf item (items sv) in
      newIndex ← match sortColumn sv with
                 | Some column =>
                     findInsertionIndex (items sv) item
                       (comparator σ column (sortDirection sv))
                 | None => Some oldIndex
                 end;
      let adjustedNewIndex := if oldIndex <? newIndex then newIndex - 1 else newIndex in
      if oldIndex =? adjustedNewIndex
      then Some (sv, [CollectionChange_.update item itemId oldIndex])
      else Some (withItems sv (splice_insert adjustedNewIndex item
                                 (splice_delete oldIndex (items sv))),
                 [CollectionChange_.move item itemId oldIndex adjustedNewIndex])
  | Move _ _ _ _ => Some (sv, [])
  | Reset => Some (reset σ (withItems sv ([] ++ sourceItems)))
  | Scroll => Some (sv, [event])
  | Replace _ _ _ _ _ _ => Some (sv, [])
  end.

(** The constructor: a copy of the upstream sequence, no sort column. *)
Definition new (σ : T -> V) (sourceItems : list T) : SortView :=
  (setSortColumn σ {| items := sourceItems; sortColumn := None;
                      sortDirection := Ascending |} None).1.

Definition getAllItems (sv : SortView) : list T := items sv.
End Sort.
Arguments SortView T Column : clear implicits.
End SortView.

(** ** The window transform: [WindowView<T>] *)

(** [x | 0]: truncation towards zero, then reduction to a signed 32-bit
    integer. A finite JavaScript number is a rational. *)
Definition truncate (q : Q) : Z := Z.quot (Qnum q) (Z.pos (Qden q)).
Definition toInt32 (q : Q) : Z := (truncate q + 2 ^ 31) mod 2 ^ 32 - 2 ^ 31.

(** [l.slice(start, end)]: a negative bound counts from the end, and both
    are clamped to the array. *)
Definition js_slice {A : Type} (start finish : Z) (l : list A) : list A :=
  let len := Z.of_nat (length l) in
  let k := if start <? 0 then Z.max (len + start) 0 else Z.min start len in
  let final := if finish <? 0 then Z.max (len + finish) 0 else Z.min finish len in
  take (Z.to_nat (final - k)) (drop (Z.to_nat k) l).

Module WindowView.
Section Window.
(** The accessor dereferences its argument, so it throws on [undefined]:
    a read outside the upstream array that reaches [getItemId] is a
    [Threw]. *)
Context {T : Type} (getItemId : T -> string).

Record WindowView := {
  windowSize : Z;
  offset : Z
}.

Definition getWindowSize (wv : WindowView) : Z := windowSize wv.
Definition getWindowOffset (wv : WindowView) : Z := offset wv.

Definition toWindowIndex (wv : WindowView) (index : Z) : Z := index - offset wv.

Definition isValidWindowIndex (wv : WindowView) (windowIndex : Z) : bool :=
  (0 <=? windowIndex) && (windowIndex <? windowSize wv).

Definition remove (wv : WindowView) (sourceItems : list T)
    (item : T) (itemId : string) (windowIndex : Z)
  : outcome WindowView (CollectionChange T) :=
  if offset wv + windowSize wv <=? Z.of_nat (length sourceItems) then
    match js_get sourceItems (offset wv + windowSize wv - 1) with
    | Some appendItem =>
        Returned wv [CollectionChange_.replace item itemId windowIndex
                       appendItem (getItemId appendItem) (windowSize wv - 1) false;
                     CollectionChange_.scroll]
    | None => Threw wv []
    end
  else Returned wv [CollectionChange_.remove item itemId windowIndex;
                    CollectionChange_.scroll].

Definition insert (wv : WindowView) (sourceItems : list T)
    (item : T) (itemId : string) (windowIndex : Z) (isNewlyAdded : bool)
  : outcome WindowView (CollectionChange T) :=
  if offset wv + windowSize wv <? Z.of_nat (length sourceItems) then
    match js_get sourceItems (offset wv + windowSize wv) with
    | Some removeItem =>
        Returned wv [CollectionChange_.replace removeItem (getItemId removeItem)
                       (windowSize wv - 1) item itemId windowIndex isNewlyAdded;
                     CollectionChange_.scroll]
    | None => Threw wv []
    end
  else Returned wv [CollectionChange_.insert item itemId windowIndex isNewlyAdded;
                    CollectionChange_.scroll].

(** The [Replace] raised at the end of the [Move] case. *)
Definition raiseReplace (wv : WindowView) (removeItem : option T) (removeIndex : Z)
    (insertItem : option T) (insertIndex : Z)
  : outcome WindowView (CollectionChange T) :=
  match removeItem, insertItem with
  | Some r, Some i =>
      Returned wv [CollectionChange_.replace r (getItemId r) removeIndex
                     i (getItemId i) insertIndex false]
  | _, _ => Threw wv []
  end.

Definition onSourceChanged (wv : WindowView) (sourceItems : list T)
    (event : CollectionChange T) : outcome WindowView (CollectionChange T) :=
  match event with
  | Insert item itemId newIndex isNewlyAdded =>
      let windowIndex := toWindowIndex wv newIndex in
      if isValidWindowIndex wv windowIndex
      then insert wv sourceItems item itemId windowIndex isNewlyAdded
      else Returned wv [CollectionChange_.scroll]
  | Remove item itemId oldIndex =>
      let windowIndex := toWindowIndex wv oldIndex in
      if isValidWindowIndex wv windowIndex
      then remove wv sourceItems item itemId windowIndex
      else
        let wv' := if windowIndex <? 0
                   then {| windowSize := windowSize wv; offset := offset wv - 1 |}
                   else wv in
        Returned wv' [CollectionChange_.scroll]
  | Update item itemId newIndex =>
      let index := toWindowIndex wv newIndex in
      if isValidWindowIndex wv index
      then Returned wv [CollectionChange_.update item itemId (newIndex - offset wv)]
      else Returned wv []
  | Move item itemId oldIndex newIndex =>
      let oldWIndex := toWindowIndex wv oldIndex in
      let newWIndex := toWindowIndex wv newIndex in
      let wasBefore := oldWIndex <? 0 in
      let isBefore := newWIndex <? 0 in
      let wasAfter := windowSize wv <=? oldWIndex in
      let isAfter := windowSize wv <=? newWIndex in
      let wasIn := negb wasBefore && negb wasAfter in
      let isIn := negb isBefore && negb isAfter in
      if (wasBefore && isBefore) || (wasAfter && isAfter) then Returned wv []
      else if wasIn && isIn
      then Returned wv [CollectionChange_.move item itemId oldWIndex newWIndex]
      else if wasBefore && isAfter
      then raiseReplace wv (js_get sourceItems (offset wv - 1)) 0
             (js_get sourceItems (offset wv + windowSize wv - 1)) (windowSize wv - 1)
      else if wasAfter && isBefore
      then raiseReplace wv (js_get sourceItems (offset wv + windowSize wv)) (windowSize wv - 1)
             (js_get sourceItems (offset wv)) 0
      else if wasIn
      then if isBefore
           then raiseReplace wv (js_get sourceItems newIndex) oldWIndex
                  (js_get sourceItems (offset wv)) 0
           else raiseReplace wv (js_get sourceItems newIndex) oldWIndex
                  (js_get sourceItems (offset wv + windowSize wv - 1)) (windowSize wv - 1)
      else if wasBefore
           then raiseReplace wv (js_get sourceItems (offset wv - 1)) 0
                  (js_get sourceItems newIndex) newWIndex
           else raiseReplace wv (js_get sourceItems (offset wv + windowSize wv)) (windowSize wv - 1)
                  (js_get sourceItems newIndex) newWIndex
  | Reset => Returned wv [event]
  | Scroll => Returned wv [event]
  | Replace _ _ _ _ _ _ => Returned wv []
  end.

Definition validIndex (items : list T) (index : Z) : bool :=
  (0 <=? index) && (index <? Z.of_nat (length items)).

(** One turn of the loop that scrolls down: row [oldOffset + i] leaves at
    the top, row [oldOffset + windowSize + i] enters at the bottom. A
    valid index always reads an item, so the [None] branches are dead. *)
Definition scrollDown_row (wv : WindowView) (oldOffset : Z) (items : list T) (i : Z)
  : list (CollectionChange T) :=
  let removeIndex := oldOffset + i in
  let insertIndex := oldOffset + windowSize wv + i in
  let validRemove := validIndex items removeIndex in
  let validInsert := validIndex items insertIndex in
  if validRemove then
    match js_get items removeIndex with
    | Some removeItem =>
        if validInsert then
          match js_get items insertIndex with
          | Some insertItem =>
              [CollectionChange_.replace removeItem (getItemId removeItem) 0
                 insertItem (getItemId insertItem) (windowSize wv - 1) false]
          | None => []
          end
        else [CollectionChange_.remove removeItem (getItemId removeItem) 0]
    | None => []
    end
  else [].

(** One turn of the loop that scrolls up; [wv] already holds the new
    offset. *)
Definition scrollUp_row (wv : WindowView) (items : list T) (i : Z)
  : list (CollectionChange T) :=
  let removeIndex := offset wv + windowSize wv + i in
  let insertIndex := offset wv + i in
  let validRemove := validIndex items removeIndex in
  let validInsert := validIndex items insertIndex in
  if validInsert then
    match js_get items insertIndex with
    | Some insertItem =>
        if validRemove then
          match js_get items removeIndex with
          | Some removeItem =>
              [CollectionChange_.replace removeItem (getItemId removeItem) (windowSize wv - 1)
                 insertItem (getItemId insertItem) 0 false]
          | None => []
          end
        else [CollectionChange_.insert insertItem (getItemId insertItem) 0 false]
    | None => []
    end
  else [].

(** What one row of an incremental scroll amounts to, in terms of the
    upstream items alone. Scrolling down, the row that leaves at the top is
    replaced by the row that enters at the bottom, or merely removed when
    the upstream has no item to enter; a row position beyond the upstream
    has nothing to leave. *)
Definition leavingRow (windowSize : Z) (leaving entering : option T)
  : list (CollectionChange T) :=
  match leaving, entering with
  | Some r, Some a => [Replace r (getItemId r) 0 a (getItemId a) (windowSize - 1)]
  | Some r, None => [Remove r (getItemId r) 0]
  | None, _ => []
  end.

(** Scrolling up, the row that enters at the top replaces the row that
    leaves at the bottom, or is merely inserted when no row leaves. *)
Definition enteringRow (windowSize : Z) (entering leaving : option T)
  : list (CollectionChange T) :=
  match entering, leaving with
  | Some a, Some r => [Replace r (getItemId r) (windowSize - 1) a (getItemId a) 0]
  | Some a, None => [Insert a (getItemId a) 0 false]
  | None, _ => []
  end.

(** [setWindowOffset(offset)]. [Math.abs(diff) >= windowSize / 2] is a
    comparison of reals, stated here on integers as
    [windowSize <= 2 * |diff|]. *)
Definition setWindowOffset (wv : WindowView) (sourceItems : list T) (arg : Q)
  : outcome WindowView (CollectionChange T) :=
  let offset' := toInt32 arg in
  if offset wv =? offset' then Returned wv []
  else if offset' <? 0 then Threw wv []
  else
    let oldOffset := offset wv in
    let wv' := {| windowSize := windowSize wv; offset := offset' |} in
    let diff := offset' - oldOffset in
    if windowSize wv <=? 2 * Z.abs diff
    then Returned wv' [CollectionChange_.reset; CollectionChange_.scroll]
    else if diff >? 0
    then Returned wv'
           (flat_map (scrollDown_row wv' oldOffset sourceItems) (seqZ 0 diff)
              ++ [CollectionChange_.scroll])
    else Returned wv'
           (flat_map (scrollUp_row wv' sourceItems) (reverse (seqZ 0 (- diff)))
              ++ [CollectionChange_.scroll]).


(** One turn of the loop of [setWindowSize] that exposes rows: window row
    [i], if the upstream has an item for it. [wv] already holds the new
    size. *)
Definition exposed_row (wv : WindowView) (items : list T) (i : Z)
  : list (CollectionChange T) :=
  let sourceIndex := i + offset wv in
  if (sourceIndex <? 0) || (Z.of_nat (length items) <=? sourceIndex) then []
  else match js_get items sourceIndex with
       | Some item => [CollectionChange_.insert item (getItemId item) i false]
       | None => []
       end.

(** One turn of the loop that hides rows. *)
Definition hidden_row (wv : WindowView) (items : list T) (i : Z)
  : list (CollectionChange T) :=
  let sourceIndex := i + offset wv in
  if (sourceIndex <? 0) || (Z.of_nat (length items) <=? sourceIndex) then []
  else match js_get items sourceIndex with
       | Some item => [CollectionChange_.remove item (getItemId item) i]
       | None => []
       end.

(** [setWindowSize(size)]: the first loop runs [i] from the old size up to
    the new one, the second from the old size down to the new one. *)
Definition setWindowSize (wv : WindowView) (sourceItems : list T) (size : Z)
  : outcome WindowView (CollectionChange T) :=
  if windowSize wv =? size then Returned wv []
  else if size <? 0 then Threw wv []
  else
    let oldSize := windowSize wv in
    let wv' := {| windowSize := size; offset := offset wv |} in
    if oldSize <? size
    then Returned wv'
           (flat_map (exposed_row wv' sourceItems) (seqZ oldSize (size - oldSize))
              ++ [CollectionChange_.scroll])
    else Returned wv'
           (flat_map (hidden_row wv' sourceItems) (reverse (seqZ size (oldSize - size)))
              ++ [CollectionChange_.scroll]).

(** [getAllItems()]: the upstream slice under the window. *)
Definition getAllItems (wv : WindowView) (sourceItems : list T) : list T :=
  js_slice (offset wv) (offset wv + windowSize wv) sourceItems.

Definition getUnderlyingItemCount (sourceItems : list T) : Z :=
  Z.of_nat (length sourceItems).
End Window.
Arguments WindowView : clear implicits.
End WindowView.

(** ** Concrete instances

    Small collections and views on which the properties below are
    exercised. *)

(** A collection of items that are their own identifiers. *)
Definition ds_a : DataSource.DataSource string :=
  {| DataSource.items := ["a"%string]; DataSource.itemById := {[ "a"%string := "a"%string ]} |}.

(** Three items, the first two with the same key. *)
Definition tie_key (n : nat) : Z := if (n <? 12)%nat then 1 else 2.

Definition tie_cmp (a b : nat) : Z := tie_key a - tie_key b.

Definition tie_items : list nat := [10%nat; 11%nat; 12%nat].

(** A sort view over two items held by value in a store, with one column. *)
Definition demo_store (n : nat) : Z := if (n =? 0)%nat then 5 else 3.

Definition demo_value (c : unit) (v : Z) : option Z := Some v.

Definition demo_default (c : unit) : SortDirection := Ascending.

Definition demo_sorted : SortView.SortView nat unit :=
  (SortView.setSortColumn demo_value demo_default demo_store
     (SortView.new demo_value demo_default demo_store [0%nat; 1%nat]) (Some tt)).1.

(** A window of two rows over four upstream items. *)
Definition demo_id (n : nat) : string :=
  match n with
  | 9%nat => "x" | 10%nat => "a" | 11%nat => "b" | 12%nat => "c" | _ => "d"
  end.

Definition demo_window : WindowView.WindowView := {| WindowView.windowSize := 2; WindowView.offset := 0 |}.

Definition demo_upstream : list nat := [10%nat; 11%nat; 12%nat; 13%nat].

(** Two upstream items, of which only the second is positive. *)
Definition two_store (n : nat) : Z := if (n =? 10)%nat then 0 else 5.

Definition positive (v : Z) : bool := 0 <? v.

Definition two_attached : Pipeline.System nat Z :=
  Pipeline.attach demo_id two_store [10%nat; 11%nat] (Some positive).

(** Three items with sort values 5, 1 and 3, for a view sorted ascending. *)
Definition xyz_store (n : nat) : Z :=
  match n with 20%nat => 5 | 21%nat => 1 | _ => 3 end.

Definition xyz_empty : SortView.SortView nat unit :=
  (SortView.setSortColumn demo_value demo_default xyz_store
     (SortView.new demo_value demo_default xyz_store []) (Some tt)).1.

(** Running a sort view through a list of upstream changes, gathering what
    it raises. *)
Fixpoint sort_feed (sv : SortView.SortView nat unit) (evs : list (CollectionChange nat))
  : option (SortView.SortView nat unit * list (CollectionChange nat)) :=
  match evs with
  | [] => Some (sv, [])
  | ev :: rest =>
      r ← SortView.onSourceChanged demo_value xyz_store [] sv ev;
      r' ← sort_feed r.1 rest;
      Some (r'.1, r.2 ++ r'.2)
  end.

(** The values of the same three items before the first one changes from
    0 to 5. *)
Definition xyz_before (n : nat) : Z :=
  match n with 20%nat => 0 | 21%nat => 1 | _ => 3 end.

(** A view of the first two of them, sorted ascending on those values. *)
Definition head_view : SortView.SortView nat unit :=
  {| SortView.items := [20%nat; 21%nat];
     SortView.sortColumn := Some tt;
     SortView.sortDirection := Ascending |}.

(** A view of three items with values 1, 1 and 2, sorted ascending. *)
Definition tie_view : SortView.SortView nat unit :=
  {| SortView.items := tie_items;
     SortView.sortColumn := Some tt;
     SortView.sortDirection := Ascending |}.

(** A window of five rows over six upstream items. *)
Definition wide_window : WindowView.WindowView :=
  {| WindowView.windowSize := 5; WindowView.offset := 0 |}.

Definition wide_upstream : list nat :=
  [10%nat; 11%nat; 12%nat; 13%nat; 14%nat; 15%nat].

(** Three items that are their own identifiers, added one by one. *)
Definition ds_abc : DataSource.DataSource string :=
  final_state (DataSource.new id ["a"%string; "b"%string; "c"%string]).

(** Subscribers that log their own number when they run; subscriber 1
    also cancels its own subscription. *)
Definition log_act (cb : nat) (w : list nat) : list nat := w ++ [cb].

Definition log_invoke (cb : nat) (st : Event.Event nat * list nat)
  : Event.Event nat * list nat :=
  (st.1, log_act cb st.2).

Definition once_invoke (cb : nat) (st : Event.Event nat * list nat)
  : Event.Event nat * list nat :=
  if (cb =? 1)%nat then (Event.unsubscribe 1%nat st.1, log_act cb st.2)
  else (st.1, log_act cb st.2).

(** A window of two rows that starts at the third upstream item. *)
Definition late_window : WindowView.WindowView :=
  {| WindowView.windowSize := 2; WindowView.offset := 2 |}.

(** * Properties *)

(** Case analysis on the integer tests of the embedded code. *)
Ltac zcases :=
  repeat match goal with
  | |- context [?a <? ?b] => destruct (Z.ltb_spec a b)
  | |- context [?a <=? ?b] => destruct (Z.leb_spec a b)
  | |- context [?a =? ?b] => destruct (Z.eqb_spec a b)
  | |- context [?a >? ?b] => rewrite (Z.gtb_ltb a b)
  end.

(** A concrete element is not in a concrete list. *)
Ltac not_in_list :=
  simpl; repeat (apply not_elem_of_cons; split; [done|]); apply not_elem_of_nil.

(** ** Array primitives *)

Section JsArrayFacts.
Context {A : Type} `{EqDecision A}.
Implicit Types (l : list A) (x : A).

Lemma indexOf_ge l x : -1 <= indexOf x l.
Proof.
  induction l as [|y l IH]; simpl; [lia|].
  destruct (decide (y = x)); [lia|].
  destruct (indexOf x l <? 0) eqn:E; lia.
Qed.

Lemma indexOf_lt l x : indexOf x l < Z.of_nat (length l).
Proof.
  induction l as [|y l IH]; simpl; [lia|].
  destruct (decide (y = x)); [lia|].
  destruct (indexOf x l <? 0) eqn:E; lia.
Qed.

Lemma indexOf_absent l x : x ∉ l -> indexOf x l = -1.
Proof.
  induction l as [|y l IH]; simpl; intros Hn; [done|].
  apply not_elem_of_cons in Hn as [Hne Hn].
  destruct (decide (y = x)); [congruence|].
  rewrite (IH Hn). reflexivity.
Qed.

Lemma indexOf_lookup l x :
  0 <= indexOf x l -> l !! Z.to_nat (indexOf x l) = Some x.
Proof.
  induction l as [|y l IH]; simpl; [lia|].
  destruct (decide (y = x)) as [->|Hne]; [done|].
  destruct (indexOf x l <? 0) eqn:E; [lia|].
  intros _. apply Z.ltb_ge in E.
  replace (Z.to_nat (indexOf x l + 1)) with (S (Z.to_nat (indexOf x l))) by lia.
  simpl. auto.
Qed.

Lemma indexOf_present l x : x ∈ l -> 0 <= indexOf x l.
Proof.
  induction l as [|y l IH]; simpl; intros Hin; [by apply elem_of_nil in Hin|].
  destruct (decide (y = x)); [lia|].
  apply elem_of_cons in Hin as [->|Hin]; [done|].
  specialize (IH Hin). destruct (indexOf x l <? 0) eqn:E; lia.
Qed.

Lemma indexOf_app_fresh l x : x ∉ l -> indexOf x (l ++ [x]) = Z.of_nat (length l).
Proof.
  induction l as [|y l IH]; simpl; intros Hn.
  - destruct (decide (x = x)); [done|congruence].
  - apply not_elem_of_cons in Hn as [Hne Hn].
    destruct (decide (y = x)); [congruence|].
    rewrite (IH Hn). destruct (Z.of_nat (length l) <? 0) eqn:E; lia.
Qed.

Lemma splice_start_inrange l (i : Z) :
  0 <= i <= Z.of_nat (length l) -> splice_start i l = Z.to_nat i.
Proof.
  intros Hi. unfold splice_start.
  destruct (i <? 0) eqn:E; [lia|]. f_equal. lia.
Qed.

Lemma splice_delete_last l x :
  splice_delete (Z.of_nat (length l)) (l ++ [x]) = l.
Proof.
  unfold splice_delete. rewrite splice_start_inrange.
  2:{ rewrite length_app. simpl. lia. }
  rewrite Nat2Z.id. induction l as [|y l IH]; simpl; [done|]. by rewrite IH.
Qed.

Lemma js_get_Some l (i : Z) x :
  js_get l i = Some x <-> 0 <= i /\ l !! Z.to_nat i = Some x.
Proof.
  unfold js_get. destruct (i <? 0) eqn:E; split; try (intros [? ?]); try done; try lia.
  intros Hl. split; [lia|done].
Qed.

Lemma js_get_inrange l (i : Z) :
  0 <= i < Z.of_nat (length l) -> is_Some (js_get l i).
Proof.
  intros Hi. unfold js_get. destruct (i <? 0) eqn:E; [lia|].
  apply lookup_lt_is_Some. lia.
Qed.

Lemma js_get_None l (i : Z) :
  js_get l i = None <-> i < 0 \/ Z.of_nat (length l) <= i.
Proof.
  unfold js_get. destruct (i <? 0) eqn:E.
  - split; [lia|done].
  - rewrite lookup_ge_None. lia.
Qed.
End JsArrayFacts.

(** ** The change-event bus *)

Section EventFacts.
Context {CB : Type} `{EqDecision CB}.
Import Event.

Lemma unsubscribe_subscribe (fresh : CB) (e : Event CB) :
  fresh ∉ callbacks e -> unsubscribe fresh (subscribe fresh e) = e.
Proof.
  intros Hf. unfold unsubscribe, subscribe. simpl.
  rewrite (indexOf_app_fresh _ _ Hf).
  zcases; [lia|].
  rewrite splice_delete_last. by destruct e.
Qed.

Lemma unsubscribe_cons_eq (cb : CB) (l : list CB) :
  unsubscribe cb {| callbacks := cb :: l |} = {| callbacks := l |}.
Proof. unfold unsubscribe. simpl. by rewrite decide_True. Qed.

Lemma unsubscribe_cons_ne (cb y : CB) (l : list CB) :
  y <> cb ->
  unsubscribe cb {| callbacks := y :: l |}
  = {| callbacks := y :: callbacks (unsubscribe cb {| callbacks := l |}) |}.
Proof.
  intros Hne. unfold unsubscribe. simpl. rewrite decide_False by done.
  pose proof (indexOf_ge l cb) as Hge. pose proof (indexOf_lt l cb) as Hlt.
  destruct (Z.ltb_spec (indexOf cb l) 0).
  - assert (indexOf cb l = -1) as -> by lia. reflexivity.
  - destruct (Z.eqb_spec (indexOf cb l + 1) (-1)); [lia|].
    destruct (Z.eqb_spec (indexOf cb l) (-1)); [lia|]. simpl. f_equal.
    unfold splice_delete. rewrite !splice_start_inrange by (simpl; lia).
    replace (Z.to_nat (indexOf cb l + 1)) with (S (Z.to_nat (indexOf cb l))) by lia.
    reflexivity.
Qed.

(** Cancelling takes out the first entry of the callback and nothing
    else. *)
Lemma unsubscribe_first (fresh : CB) (l1 l2 : list CB) :
  fresh ∉ l1 ->
  unsubscribe fresh {| callbacks := l1 ++ fresh :: l2 |} = {| callbacks := l1 ++ l2 |}.
Proof.
  induction l1 as [|y l1 IH]; intros Hn; simpl.
  - apply unsubscribe_cons_eq.
  - apply not_elem_of_cons in Hn as [Hne Hn].
    rewrite unsubscribe_cons_ne by done. by rewrite IH.
Qed.

(** An operation on another callback does the same to the bus with and
    without the temporary subscription. *)
Lemma perform_around (fresh : CB) (op : BusOp CB) (l1 l2 : list CB) :
  subject op <> fresh -> fresh ∉ l1 ->
  exists l1' l2',
    perform {| callbacks := l1 ++ fresh :: l2 |} op = {| callbacks := l1' ++ fresh :: l2' |} /\
    perform {| callbacks := l1 ++ l2 |} op = {| callbacks := l1' ++ l2' |} /\
    fresh ∉ l1'.
Proof.
  destruct op as [cb|cb]; simpl; intros Hne Hn.
  - exists l1, (l2 ++ [cb]). unfold subscribe. simpl.
    by rewrite <- !app_assoc.
  - induction l1 as [|y l1 IH]; simpl.
    + exists [], (callbacks (unsubscribe cb {| callbacks := l2 |})).
      rewrite unsubscribe_cons_ne by done. simpl. split_and!; [done| |done].
      by destruct (unsubscribe cb {| callbacks := l2 |}).
    + apply not_elem_of_cons in Hn as [Hy Hn].
      destruct (decide (y = cb)) as [->|Hycb].
      * exists l1, l2. by rewrite !unsubscribe_cons_eq.
      * destruct (IH Hn) as (l1' & l2' & Hwith & Hwithout & Hn').
        exists (y :: l1'), l2'. rewrite !unsubscribe_cons_ne by done.
        rewrite Hwith, Hwithout. simpl. split_and!; [done|done|].
        apply not_elem_of_cons. by split.
Qed.

Lemma performAll_around (fresh : CB) (ops : list (BusOp CB)) : forall l1 l2 : list CB,
  Forall (fun op => subject op <> fresh) ops -> fresh ∉ l1 ->
  exists l1' l2',
    performAll ops {| callbacks := l1 ++ fresh :: l2 |} = {| callbacks := l1' ++ fresh :: l2' |} /\
    performAll ops {| callbacks := l1 ++ l2 |} = {| callbacks := l1' ++ l2' |} /\
    fresh ∉ l1'.
Proof.
  induction ops as [|op ops IH]; intros l1 l2 Hops Hn; simpl.
  - by exists l1, l2.
  - apply Forall_cons in Hops as [Hop Hops].
    destruct (perform_around fresh op l1 l2 Hop Hn) as (k1 & k2 & -> & -> & Hk).
    by apply IH.
Qed.

(** C9, as the code has it: when the handler returns normally, [collect]
    takes its temporary subscription off the bus and nothing else. Whatever
    the handler left on the bus around the temporary subscription stays as
    it is; in particular, for a handler that subscribes and cancels other
    callbacks, the bus after [collect] is what these operations make of the
    bus before it, and a handler that leaves the subscriptions alone gets
    the bus back as it was. When the handler throws, the exception escapes
    [collect] with the bus exactly as the handler left it, the temporary
    subscription still in place. *)
Theorem collect_unsubscribes_on_normal_exit
    (fresh : CB) (handler : Event CB -> exit) (e : Event CB) :
  fresh ∉ callbacks e ->
  (forall l1 l2,
     handler (subscribe fresh e) = Normal {| callbacks := l1 ++ fresh :: l2 |} ->
     fresh ∉ l1 ->
     collect fresh handler e = Normal {| callbacks := l1 ++ l2 |}) /\
  (forall ops,
     Forall (fun op => subject op <> fresh) ops ->
     handler (subscribe fresh e) = Normal (performAll ops (subscribe fresh e)) ->
     collect fresh handler e = Normal (performAll ops e)) /\
  (handler (subscribe fresh e) = Normal (subscribe fresh e) ->
     collect fresh handler e = Normal e) /\
  (forall e2, handler (subscribe fresh e) = Exception e2 ->
     collect fresh handler e = Exception e2).
Proof.
  intros Hf. unfold collect. split_and!.
  - intros l1 l2 -> Hl1. by rewrite unsubscribe_first.
  - intros ops Hops ->.
    destruct (performAll_around fresh ops (callbacks e) [] Hops Hf)
      as (l1 & l2 & Hwith & Hwithout & Hl1).
    unfold subscribe. rewrite Hwith, unsubscribe_first by done.
    rewrite app_nil_r in Hwithout. destruct e as [cbs]. simpl in *. by rewrite Hwithout.
  - intros ->. by rewrite unsubscribe_subscribe.
  - intros e2 ->. reflexivity.
Qed.
End EventFacts.

Lemma collect_unsubscribes_on_normal_exit_witness :
  (3%nat ∉ Event.callbacks {| Event.callbacks := [1%nat; 2%nat] |}) /\
  Event.collect 3%nat
    (fun e1 => Event.Normal (Event.subscribe 9%nat (Event.unsubscribe 1%nat e1)))
    {| Event.callbacks := [1%nat; 2%nat] |}
  = Event.Normal {| Event.callbacks := [2%nat; 9%nat] |}.
Proof.
  assert (3%nat ∉ Event.callbacks {| Event.callbacks := [1%nat; 2%nat] |}) as Hfresh
    by not_in_list.
  split; [exact Hfresh|].
  destruct (collect_unsubscribes_on_normal_exit 3%nat
              (fun e1 => Event.Normal (Event.subscribe 9%nat (Event.unsubscribe 1%nat e1)))
              {| Event.callbacks := [1%nat; 2%nat] |} Hfresh) as (_ & Hops & _ & _).
  apply (Hops [Event.Cancel 1%nat; Event.Subscribe 9%nat]).
  - repeat constructor; simpl; discriminate.
  - reflexivity.
Defined.

(** C9 as stated fails: a handler that throws leaves the temporary
    subscription on the bus. *)
Lemma collect_throwing_handler_keeps_subscription :
  Event.callbacks
    (Event.bus_after
       (Event.collect 3%nat Event.Exception {| Event.callbacks := [1%nat; 2%nat] |}))
  = [1%nat; 2%nat; 3%nat]
  /\ Event.bus_after
       (Event.collect 3%nat Event.Exception {| Event.callbacks := [1%nat; 2%nat] |})
     <> {| Event.callbacks := [1%nat; 2%nat] |}.
Proof. split; [reflexivity|discriminate]. Qed.

(** ** The root collection *)

Section DataSourceFacts.
Context {T : Type} `{EqDecision T} (getItemId : T -> string).
Import DataSource.
Abbreviation consistent := (consistent getItemId).
Abbreviation appended := (appended getItemId).
Abbreviation add := (add getItemId).
Abbreviation addRange := (addRange getItemId).
Abbreviation addRange_loop := (addRange_loop getItemId).

Lemma idExists_true (s : DataSource T) (k : string) :
  idExists s k = true <-> is_Some (itemById s !! k) \/ inheritedProperty k = true.
Proof.
  unfold idExists, getById. rewrite bool_decide_eq_true.
  destruct (itemById s !! k) as [x|]; [by split; eauto|].
  destruct (inheritedProperty k); split; eauto.
  - intros [? ?]. done.
  - intros [[? ?]|?]; done.
Qed.

Lemma idExists_false (s : DataSource T) (k : string) :
  idExists s k = false <-> itemById s !! k = None /\ inheritedProperty k = false.
Proof.
  rewrite <- not_true_iff_false, idExists_true.
  destruct (itemById s !! k) as [x|], (inheritedProperty k); split;
    try (intros [? ?]; done); try done.
  - intros Hn. exfalso. apply Hn. left. eauto.
  - intros Hn. exfalso. apply Hn. left. eauto.
  - intros Hn. exfalso. apply Hn. by right.
  - intros _ [[? ?]|?]; done.
Qed.

Lemma getById_own (s : DataSource T) (k : string) (x : T) :
  itemById s !! k = Some x -> getById s k = Some (Own x).
Proof. intros Hk. unfold getById. by rewrite Hk. Qed.

Lemma getById_free (s : DataSource T) (k : string) :
  itemById s !! k = None -> inheritedProperty k = false -> getById s k = None.
Proof. intros Hk Hi. unfold getById. by rewrite Hk, Hi. Qed.

Lemma idExists_of_item (s : DataSource T) (x : T) :
  consistent s -> In x (items s) -> idExists s (getItemId x) = true.
Proof.
  intros (_ & Hreg & _) Hin. apply idExists_true. left. rewrite (Hreg x Hin). eauto.
Qed.

Lemma idExists_false_fresh (s : DataSource T) (item : T) :
  consistent s -> idExists s (getItemId item) = false ->
  ~ In (getItemId item) (map getItemId (items s)).
Proof.
  intros Hc Hno Hin. apply in_map_iff in Hin as (x & Hid & Hx).
  pose proof (idExists_of_item s x Hc Hx) as Hyes. congruence.
Qed.

(** On a consistent collection the test of [add] is true exactly for the
    identifiers of the items held and for the inherited names. *)
Lemma idExists_consistent (s : DataSource T) (k : string) :
  consistent s ->
  idExists s k = true <->
  In k (map getItemId (items s)) \/ inheritedProperty k = true.
Proof.
  intros (_ & Hreg & Honly & _). rewrite idExists_true. split.
  - intros [[x Hx]|Hi]; [|by right]. left.
    destruct (Honly k x Hx) as [Hin <-]. by apply in_map.
  - intros [Hin|Hi]; [|by right]. left.
    apply in_map_iff in Hin as (x & <- & Hx). rewrite (Hreg x Hx). eauto.
Qed.

Lemma consistent_empty : consistent empty.
Proof. split_and!; simpl; [constructor|tauto|done|tauto]. Qed.

Lemma consistent_appended (s : DataSource T) (item : T) :
  consistent s -> idExists s (getItemId item) = false -> consistent (appended s item).
Proof.
  intros Hc Hno. pose proof (idExists_false_fresh s item Hc Hno) as Hfresh.
  apply idExists_false in Hno as [Hnone Hnot].
  destruct Hc as (Hnd & Hreg & Honly & Hown). split_and!; simpl.
  - rewrite map_app. simpl.
    apply NoDup_app. split_and!; [done| |apply NoDup_singleton].
    intros i Hi Hi'. apply list_elem_of_singleton in Hi'. subst i.
    apply Hfresh. by apply list_elem_of_In.
  - intros x Hx. apply in_app_or in Hx as [Hx|[->|[]]].
    + rewrite lookup_insert_ne; [by apply Hreg|].
      intros Heq. apply Hfresh. rewrite Heq. by apply in_map.
    + by rewrite lookup_insert_eq.
  - intros k x Hk. destruct (decide (k = getItemId item)) as [->|Hne].
    + rewrite lookup_insert_eq in Hk. injection Hk as <-.
      split; [|done]. apply in_or_app. right. by left.
    + rewrite lookup_insert_ne in Hk by done.
      destruct (Honly k x Hk) as [Hin Hid]. split; [|done]. apply in_or_app. by left.
  - intros x Hx. apply in_app_or in Hx as [Hx|[->|[]]]; [by apply Hown|done].
Qed.

(** A successful [add] keeps the collection consistent. *)
Lemma add_consistent (s s' : DataSource T) (item : T) evs :
  consistent s -> add s item = Returned s' evs -> consistent s'.
Proof.
  unfold DataSource.add. intros Hc.
  destruct (idExists s (getItemId item)) eqn:E; [discriminate|].
  intros [= <- _]. by apply consistent_appended.
Qed.

Lemma addRange_loop_consistent (new : list T) : forall (s s' : DataSource T),
  consistent s ->
  addRange_loop s new = inl s' \/ addRange_loop s new = inr s' ->
  consistent s'.
Proof.
  induction new as [|item new IH]; intros s s' Hc Hloop; simpl in Hloop.
  - destruct Hloop as [Hl|Hl]; by simplify_eq.
  - destruct (idExists s (getItemId item)) eqn:E.
    + destruct Hloop as [Hl|Hl]; by simplify_eq.
    + apply (IH (appended s item)); [by apply consistent_appended|done].
Qed.

(** [addRange] keeps the collection consistent, also when it throws. *)
Lemma addRange_consistent (s : DataSource T) (new : list T) :
  consistent s -> consistent (final_state (addRange s new)).
Proof.
  intros Hc. unfold DataSource.addRange.
  destruct (addRange_loop s new) as [s'|s'] eqn:E; simpl;
    apply (addRange_loop_consistent new s s' Hc); auto.
Qed.

(** [removeAt] keeps the collection consistent. *)
Lemma removeAt_consistent (s : DataSource T) (index : Z) :
  consistent s -> consistent (final_state (removeAt getItemId s index)).
Proof.
  intros Hc. pose proof Hc as (Hnd & Hreg & Honly & Hown).
  unfold DataSource.removeAt, splice_removed, splice_delete.
  set (n := splice_start index (items s)).
  destruct (items s !! n) as [removed|] eqn:Hn; simpl; [|done].
  pose proof (delete_Permutation _ _ _ Hn) as Hperm.
  assert (NoDup (getItemId removed :: map getItemId (delete n (items s)))) as Hnd'.
  { change (NoDup (map getItemId (removed :: delete n (items s)))).
    by rewrite <- Hperm. }
  apply NoDup_cons in Hnd' as [Hfresh Hnd'].
  assert (forall x, In x (delete n (items s)) -> In x (items s)) as Hsub.
  { intros x Hx. apply list_elem_of_In. rewrite Hperm. right. by apply list_elem_of_In. }
  split_and!; simpl; [done| | |].
  - intros x Hx. rewrite lookup_delete_ne.
    + apply Hreg. by apply Hsub.
    + intros Heq. apply Hfresh. rewrite Heq. apply list_elem_of_In. by apply in_map.
  - intros k x Hk. destruct (decide (getItemId removed = k)) as [<-|Hne].
    + by rewrite lookup_delete_eq in Hk.
    + rewrite lookup_delete_ne in Hk by done.
      destruct (Honly k x Hk) as [Hin Hid]. split; [|done].
      apply list_elem_of_In in Hin. rewrite Hperm in Hin.
      apply elem_of_cons in Hin as [->|Hin]; [congruence|by apply list_elem_of_In].
  - intros x Hx. by apply Hown, Hsub.
Qed.

Lemma clear_consistent (s : DataSource T) :
  consistent (final_state (clear s)).
Proof. apply consistent_empty. Qed.

Lemma items_fold_appended (accepted : list T) : forall s : DataSource T,
  items (fold_left appended accepted s) = items s ++ accepted.
Proof.
  induction accepted as [|a accepted IH]; intros s; simpl.
  - by rewrite app_nil_r.
  - rewrite IH. simpl. by rewrite <- app_assoc.
Qed.

(** Where the loop of [addRange] stops when some item of the batch
    repeats an identifier that is already registered: at the first item
    that fails the test, the items before it having been appended. *)
Lemma addRange_loop_duplicate (new : list T) : forall (s : DataSource T),
  consistent s ->
  (exists item x, In item new /\ In x (items s) /\ getItemId x = getItemId item) ->
  exists accepted dup rest,
    new = accepted ++ dup :: rest /\
    consistent (fold_left appended accepted s) /\
    idExists (fold_left appended accepted s) (getItemId dup) = true /\
    addRange_loop s new = inr (fold_left appended accepted s).
Proof.
  induction new as [|item new IH]; intros s Hc (d & x & Hd & Hx & Hid).
  - destruct Hd.
  - simpl. destruct (idExists s (getItemId item)) eqn:E.
    + exists [], item, new. by simpl.
    + destruct Hd as [->|Hd].
      * rewrite <- Hid, (idExists_of_item s x Hc Hx) in E. discriminate.
      * destruct (IH (appended s item)) as (acc & dup & rest & -> & Hacc & Hdup & Hloop).
        { by apply consistent_appended. }
        { exists d, x. split_and!; [done| |done]. simpl. apply in_or_app. by left. }
        exists (item :: acc), dup, rest. by simpl.
Qed.

(** C3, as the code has it: [add] of an item whose identifier is already
    in the collection throws, raises nothing and leaves the sequence and
    the identifier map as they were. [addRange] of a batch containing
    such an item throws and raises nothing as well, but it stops at the
    first item of the batch whose identifier is taken (by an item of the
    collection, by an earlier item of the batch, or by an inherited
    property name): the items before that one, which have identifiers
    that are new and distinct, have by then been appended and registered,
    so that the collection is as before only when there is none. *)
Theorem duplicate_identifier_rejected (s : DataSource T) :
  consistent s ->
  (forall item,
     (exists x, In x (items s) /\ getItemId x = getItemId item) ->
     add s item = Threw s []) /\
  (forall new,
     (exists item x, In item new /\ In x (items s) /\ getItemId x = getItemId item) ->
     exists accepted dup rest,
       new = accepted ++ dup :: rest /\
       NoDup (map getItemId (items s ++ accepted)) /\
       (forall x, In x accepted -> inheritedProperty (getItemId x) = false) /\
       (In (getItemId dup) (map getItemId (items s ++ accepted)) \/
        inheritedProperty (getItemId dup) = true) /\
       addRange s new = Threw (fold_left appended accepted s) [] /\
       items (fold_left appended accepted s) = items s ++ accepted /\
       consistent (fold_left appended accepted s)).
Proof.
  intros Hc. split.
  - intros item (x & Hx & Hid). unfold DataSource.add.
    by rewrite <- Hid, (idExists_of_item s x Hc Hx).
  - intros new Hdup.
    destruct (addRange_loop_duplicate new s Hc Hdup)
      as (acc & dup & rest & -> & Hacc & Hstop & Hloop).
    pose proof (items_fold_appended acc s) as Hitems.
    apply (idExists_consistent _ _ Hacc) in Hstop. rewrite Hitems in Hstop.
    destruct Hacc as (Hnd & Hreg & Honly & Hown). rewrite Hitems in Hnd, Hown.
    exists acc, dup, rest. split_and!; [done|done| |done| |done|].
    + intros x Hx. apply Hown. apply in_or_app. by right.
    + unfold DataSource.addRange. by rewrite Hloop.
    + split_and!; [by rewrite Hitems|done|done|by rewrite Hitems].
Qed.
End DataSourceFacts.


Lemma ds_a_consistent : DataSource.consistent id ds_a.
Proof.
  split_and!; simpl.
  - apply NoDup_singleton.
  - intros x [<-|[]]. reflexivity.
  - intros k x Hk. apply lookup_singleton_Some in Hk as [<- <-]. split; [by left|done].
  - intros x [<-|[]]. reflexivity.
Qed.

(** Adding "a", "b", "c" to an empty collection raises three [Insert]
    records, at indices 0, 1 and 2. *)
Example add_three_in_order :
  DataSource.new id ["a"%string; "b"%string; "c"%string]
  = Returned {| DataSource.items := ["a"%string; "b"%string; "c"%string];
                DataSource.itemById :=
                  <["c"%string := "c"%string]>
                    (<["b"%string := "b"%string]> {[ "a"%string := "a"%string ]}) |}
             [Insert "a"%string "a"%string 0 true;
              Insert "b"%string "b"%string 1 true;
              Insert "c"%string "c"%string 2 true].
Proof. reflexivity. Qed.

(** An identifier that names an inherited property counts as taken though
    no item is stored under it: [add] and [addRange] throw, and [getById]
    returns the inherited value. *)
Example inherited_name_counts_as_taken :
  DataSource.add id ds_a "constructor"%string = Threw ds_a [] /\
  DataSource.addRange id ds_a ["valueOf"%string] = Threw ds_a [] /\
  DataSource.getById ds_a "toString"%string = Some Inherited /\
  DataSource.getById ds_a "a"%string = Some (Own "a"%string) /\
  DataSource.getById ds_a "b"%string = None.
Proof. split_and!; reflexivity. Qed.

Lemma duplicate_identifier_rejected_witness :
  DataSource.consistent id ds_a /\
  DataSource.add id ds_a "a"%string = Threw ds_a [] /\
  DataSource.addRange id ds_a ["b"%string; "a"%string]
  = Threw (DataSource.appended id ds_a "b"%string) [].
Proof.
  split; [exact ds_a_consistent|].
  destruct (duplicate_identifier_rejected id ds_a ds_a_consistent) as [Hadd Hrange].
  split.
  - apply Hadd. exists "a"%string. split; [by left|reflexivity].
  - destruct (Hrange ["b"%string; "a"%string])
      as (accepted & dup & rest & Hsplit & Hnd & _ & Hdup & Hthrew & _).
    { exists "a"%string, "a"%string. split_and!; [right; by left|by left|reflexivity]. }
    rewrite Hthrew.
    destruct accepted as [|x [|y accepted]]; simpl in Hsplit.
    + injection Hsplit as <- _. exfalso. simpl in Hdup.
      destruct Hdup as [[Hab|[]]|Hinh]; discriminate.
    + by injection Hsplit as <- _ _.
    + injection Hsplit as <- <- Hrest. exfalso. simpl in Hnd.
      apply NoDup_cons in Hnd as [Hnin _]. apply Hnin. right. by left.
Defined.

(** C3 as stated fails for [addRange]: the batch ["b"; "a"] is rejected
    because of "a", yet "b" stays appended and registered. *)
Lemma addRange_duplicate_keeps_prefix :
  threw (DataSource.addRange id ds_a ["b"%string; "a"%string]) = true /\
  raised (DataSource.addRange id ds_a ["b"%string; "a"%string]) = [] /\
  DataSource.items (final_state (DataSource.addRange id ds_a ["b"%string; "a"%string]))
    = ["a"%string; "b"%string] /\
  DataSource.itemById (final_state (DataSource.addRange id ds_a ["b"%string; "a"%string]))
    !! "b"%string = Some "b"%string /\
  final_state (DataSource.addRange id ds_a ["b"%string; "a"%string]) <> ds_a.
Proof.
  assert (E : DataSource.addRange id ds_a ["b"%string; "a"%string]
              = Threw (DataSource.appended id ds_a "b"%string) []).
  { vm_compute. reflexivity. }
  rewrite E. simpl. split_and!; try reflexivity.
  intros Heq. apply (f_equal DataSource.items) in Heq. discriminate.
Qed.

(** ** Comparators and sorting *)

Section ComparatorFacts.
Context {T : Type} (comparator : T -> T -> Z) (Hcmp : Comparator comparator).

Lemma cmp_refl a : comparator a a = 0.
Proof.
  pose proof (cmp_antisym _ Hcmp a a). lia.
Qed.

Lemma cmp_zero_sym a b : comparator a b = 0 -> comparator b a = 0.
Proof.
  pose proof (cmp_antisym _ Hcmp a b). pose proof (cmp_antisym _ Hcmp b a). lia.
Qed.

Lemma cmp_total a b : comparator a b <= 0 \/ comparator b a <= 0.
Proof.
  pose proof (cmp_antisym _ Hcmp a b). pose proof (cmp_antisym _ Hcmp b a). lia.
Qed.

Lemma cmp_lt_le_trans a b c :
  comparator a b < 0 -> comparator b c <= 0 -> comparator a c < 0.
Proof.
  intros Hab Hbc.
  destruct (Z.lt_ge_cases (comparator a c) 0) as [|Hac]; [done|].
  assert (comparator c a <= 0) as Hca.
  { pose proof (cmp_antisym _ Hcmp a c). lia. }
  pose proof (cmp_trans _ Hcmp b c a Hbc Hca) as Hba.
  pose proof (cmp_antisym _ Hcmp a b). lia.
Qed.

Lemma cmp_le_lt_trans a b c :
  comparator a b <= 0 -> comparator b c < 0 -> comparator a c < 0.
Proof.
  intros Hab Hbc.
  destruct (Z.lt_ge_cases (comparator a c) 0) as [|Hac]; [done|].
  assert (comparator c a <= 0) as Hca.
  { pose proof (cmp_antisym _ Hcmp a c). lia. }
  pose proof (cmp_trans _ Hcmp c a b Hca Hab) as Hcb.
  pose proof (cmp_antisym _ Hcmp b c). lia.
Qed.

Lemma sort_insert_perm x l : sort_insert comparator x l ≡ₚ x :: l.
Proof.
  induction l as [|y l IH]; simpl; [done|].
  destruct (comparator x y <=? 0); [done|].
  rewrite IH. apply perm_swap.
Qed.

Lemma array_sort_perm l : array_sort comparator l ≡ₚ l.
Proof.
  induction l as [|x l IH]; simpl; [done|].
  fold (array_sort comparator l). by rewrite sort_insert_perm, IH.
Qed.

Lemma sort_insert_sorted x l :
  sorted comparator l -> sorted comparator (sort_insert comparator x l).
Proof.
  unfold sorted. induction 1 as [|y l Hs IH Hall]; simpl.
  - repeat constructor.
  - destruct (Z.leb_spec (comparator x y) 0) as [Hle|Hgt].
    + constructor; [by constructor|].
      constructor; [done|].
      eapply Forall_impl; [exact Hall|]. simpl. intros z Hyz.
      by apply (cmp_trans _ Hcmp x y z).
    + constructor; [done|].
      assert (comparator y x <= 0) as Hyx.
      { pose proof (cmp_antisym _ Hcmp y x). lia. }
      eapply Permutation_Forall; [symmetry; apply sort_insert_perm|].
      by constructor.
Qed.

Lemma array_sort_sorted l : sorted comparator (array_sort comparator l).
Proof.
  induction l as [|x l IH]; simpl; [constructor|].
  by apply sort_insert_sorted.
Qed.
End ComparatorFacts.

Ltac compare_cases :=
  unfold compare;
  repeat match goal with
  | |- context [decide (?a = ?b)] => destruct (decide (a = b))
  end;
  simplify_eq;
  repeat match goal with
  | H : Some ?x <> Some ?y |- _ =>
      assert (x <> y) by (intros ->; apply H; reflexivity); clear H
  end;
  zcases; try lia; try congruence.

Lemma compare_Comparator {T : Type} (key : T -> option Z) (dir : SortDirection) :
  Comparator (fun a b => compare (key a) (key b) dir).
Proof.
  split.
  - intros a b.
    destruct (key a) as [x|], (key b) as [y|], dir; compare_cases.
  - intros a b c.
    destruct (key a) as [x|], (key b) as [y|], (key c) as [z|], dir; compare_cases.
Qed.

(** ** Binary search for the insertion point *)

Section FindInsertionIndexFacts.
Context {T : Type} `{EqDecision T}.
Implicit Types (items : list T) (target : T) (comparator : T -> T -> Z).

Lemma mid_bounds (lo hi : Z) : 0 <= lo < hi -> lo <= Z.quot (lo + hi) 2 < hi.
Proof.
  intros Hb. rewrite Z.quot_div_nonneg by lia.
  split; [apply Z.div_le_lower_bound | apply Z.div_lt_upper_bound]; lia.
Qed.

Lemma findInsertionIndex_loop_unfold fuel items target comparator minIndex maxIndex :
  findInsertionIndex_loop (S fuel) items target comparator minIndex maxIndex =
  let len := Z.of_nat (length items) in
  if minIndex <? maxIndex then
        let index := Z.quot (minIndex + maxIndex) 2 in
        item ← js_get items index;
        if decide (item = target) then
          if index =? 0 then Some minIndex
          else if index =? len - 1 then Some (len - 1)
          else
            below ← js_get items (index - 1);
            above ← js_get items (index + 1);
            let orderedBelow := comparator below target <? 0 in
            let orderedAbove := comparator target above <? 0 in
            if Bool.eqb orderedBelow orderedAbove then Some index
            else if orderedBelow
                 then findInsertionIndex_loop fuel items target comparator (index + 1) maxIndex
                 else findInsertionIndex_loop fuel items target comparator minIndex (index - 1)
        else
          let comp := comparator target item in
          if comp =? 0 then Some index
          else if comp >? 0
               then findInsertionIndex_loop fuel items target comparator (index + 1) maxIndex
               else findInsertionIndex_loop fuel items target comparator minIndex index
  else if minIndex =? len - 1 then
    last ← js_get items (len - 1);
    if comparator last target <? 0 then Some len else Some minIndex
  else Some minIndex.
Proof. reflexivity. Qed.

Lemma findInsertionIndex_loop_exit fuel items target comparator minIndex maxIndex :
  maxIndex <= minIndex ->
  findInsertionIndex_loop fuel items target comparator minIndex maxIndex =
  if minIndex =? Z.of_nat (length items) - 1 then
    last ← js_get items (Z.of_nat (length items) - 1);
    if comparator last target <? 0 then Some (Z.of_nat (length items)) else Some minIndex
  else Some minIndex.
Proof.
  intros Hle. destruct fuel; simpl; destruct (Z.ltb_spec minIndex maxIndex); try lia; reflexivity.
Qed.

(** The search always answers, with an index of the array or its length,
    whatever the comparator and the order of the items. *)
Lemma findInsertionIndex_loop_total comparator items target :
  forall fuel minIndex maxIndex,
  0 <= minIndex <= Z.of_nat (length items) - 1 ->
  maxIndex <= Z.of_nat (length items) - 1 ->
  maxIndex - minIndex < Z.of_nat fuel ->
  exists i, findInsertionIndex_loop fuel items target comparator minIndex maxIndex = Some i
            /\ 0 <= i <= Z.of_nat (length items).
Proof.
  induction fuel as [|fuel IH]; intros lo hi Hlo Hhi Hfuel.
  - rewrite findInsertionIndex_loop_exit by lia.
    destruct (js_get_inrange items (Z.of_nat (length items) - 1)) as [last ->]; [lia|].
    simpl. zcases; eexists; split; try reflexivity; lia.
  - destruct (Z.le_gt_cases hi lo) as [Hle|Hlt].
    { rewrite findInsertionIndex_loop_exit by lia.
      destruct (js_get_inrange items (Z.of_nat (length items) - 1)) as [last ->]; [lia|].
      simpl. zcases; eexists; split; try reflexivity; lia. }
    rewrite findInsertionIndex_loop_unfold. cbv zeta.
    pose proof (mid_bounds lo hi ltac:(lia)) as Hmid.
    set (index := Z.quot (lo + hi) 2) in *.
    destruct (Z.ltb_spec lo hi); [|lia].
    destruct (js_get_inrange items index) as [item ->]; [lia|]. simpl.
    destruct (decide (item = target)) as [->|Hne].
    + destruct (Z.eqb_spec index 0); [eexists; split; [reflexivity|lia]|].
      destruct (Z.eqb_spec index (Z.of_nat (length items) - 1));
        [eexists; split; [reflexivity|lia]|].
      destruct (js_get_inrange items (index - 1)) as [below ->]; [lia|].
      destruct (js_get_inrange items (index + 1)) as [above ->]; [lia|]. simpl.
      destruct (Bool.eqb _ _); [eexists; split; [reflexivity|lia]|].
      destruct (comparator below target <? 0); apply IH; lia.
    + destruct (comparator target item =? 0); [eexists; split; [reflexivity|lia]|].
      destruct (comparator target item >? 0); apply IH; lia.
Qed.

Lemma findInsertionIndex_total comparator items target :
  exists i, findInsertionIndex items target comparator = Some i
            /\ 0 <= i <= Z.of_nat (length items).
Proof.
  unfold findInsertionIndex. destruct (Z.eqb_spec (Z.of_nat (length items)) 0).
  - exists 0. split; [reflexivity|lia].
  - apply findInsertionIndex_loop_total; lia.
Qed.

Lemma sorted_lookup_gen comparator items : sorted comparator items ->
  forall (j k : nat) x y,
  (j < k)%nat -> items !! j = Some x -> items !! k = Some y -> comparator x y <= 0.
Proof.
  unfold sorted. induction 1 as [|a l Hs IH Hall]; intros j k x y Hjk Hj Hk.
  - by rewrite lookup_nil in Hj.
  - destruct k as [|k]; [lia|]. simpl in Hk.
    destruct j as [|j]; simpl in Hj.
    + injection Hj as <-. rewrite Forall_forall in Hall.
      apply Hall. by eapply list_elem_of_lookup_2.
    + apply (IH j k); [lia|done..].
Qed.

Section Sorted.
Context (comparator : T -> T -> Z) (Hcmp : Comparator comparator).
Context (items : list T) (target : T) (Hsorted : sorted comparator items).

Lemma sorted_lookup (j k : nat) x y :
  (j < k)%nat -> items !! j = Some x -> items !! k = Some y -> comparator x y <= 0.
Proof. by apply sorted_lookup_gen. Qed.

Lemma below_of_le (idx : Z) y :
  js_get items idx = Some y -> comparator y target <= 0 ->
  below_ok items target comparator (idx + 1).
Proof.
  intros [Hidx Hy]%js_get_Some Hle k x Hk Hlt.
  destruct (decide (k = Z.to_nat idx)) as [->|Hne].
  - by simplify_eq.
  - apply (cmp_trans _ Hcmp x y target); [|done].
    apply (sorted_lookup k (Z.to_nat idx)); [lia|done..].
Qed.

Lemma above_of_le (idx : Z) y :
  js_get items idx = Some y -> comparator target y <= 0 ->
  above_ok items target comparator idx.
Proof.
  intros [Hidx Hy]%js_get_Some Hle k x Hk Hlt.
  destruct (decide (k = Z.to_nat idx)) as [->|Hne].
  - by simplify_eq.
  - apply (cmp_trans _ Hcmp target y x); [done|].
    apply (sorted_lookup (Z.to_nat idx) k); [lia|done..].
Qed.

Lemma below_ok_mono (i j : Z) :
  j <= i -> below_ok items target comparator i -> below_ok items target comparator j.
Proof. intros Hji Hb k x Hk Hlt. apply (Hb k x Hk). lia. Qed.

Lemma above_ok_mono (i j : Z) :
  i <= j -> above_ok items target comparator i -> above_ok items target comparator j.
Proof. intros Hji Hb k x Hk Hlt. apply (Hb k x Hk). lia. Qed.

Lemma flip_ge a b : 0 <= comparator a b -> comparator b a <= 0.
Proof. pose proof (cmp_antisym _ Hcmp a b). lia. Qed.

Lemma flip_gt a b : 0 < comparator a b -> comparator b a < 0.
Proof. pose proof (cmp_antisym _ Hcmp b a). lia. Qed.

Lemma insertion_point_hit (idx : Z) :
  js_get items idx = Some target -> insertion_point items target comparator idx.
Proof.
  intros Hidx. pose proof (cmp_refl _ Hcmp target) as Hrefl.
  assert (below_ok items target comparator (idx + 1)) as Hb
    by (apply (below_of_le idx target); [done|lia]).
  split_and!.
  - by apply (below_ok_mono (idx + 1)); [lia|].
  - apply (above_of_le idx target); [done|lia].
  - done.
  - intros ->. apply js_get_Some in Hidx as [_ Hl%lookup_lt_Some]. lia.
Qed.

Lemma insertion_point_tie (idx : Z) y :
  js_get items idx = Some y -> comparator target y = 0 ->
  insertion_point items target comparator idx.
Proof.
  intros Hidx Hz. pose proof (cmp_zero_sym _ Hcmp _ _ Hz) as Hz'.
  assert (below_ok items target comparator (idx + 1)) as Hb
    by (apply (below_of_le idx y); [done|lia]).
  split_and!.
  - by apply (below_ok_mono (idx + 1)); [lia|].
  - apply (above_of_le idx y); [done|lia].
  - done.
  - intros ->. apply js_get_Some in Hidx as [_ Hl%lookup_lt_Some]. lia.
Qed.

Lemma insertion_point_exit fuel (lo hi : Z) :
  Z.of_nat (length items) >= 1 ->
  0 <= lo <= Z.of_nat (length items) - 1 ->
  hi <= lo ->
  below_ok items target comparator lo ->
  hi = Z.of_nat (length items) - 1 \/ above_ok items target comparator hi ->
  ((exists k : nat, Z.of_nat k < lo /\ items !! k = Some target) ->
     below_ok items target comparator (lo + 1)) ->
  exists i, findInsertionIndex_loop fuel items target comparator lo hi = Some i
            /\ insertion_point items target comparator i.
Proof.
  intros Hlen Hlo Hhi Hbelow Habove Hpast.
  rewrite findInsertionIndex_loop_exit by lia.
  destruct (Z.eqb_spec lo (Z.of_nat (length items) - 1)) as [Hlast|Hnlast].
  - destruct (js_get_inrange items (Z.of_nat (length items) - 1)) as [last Hl]; [lia|].
    rewrite Hl. simpl. destruct (Z.ltb_spec (comparator last target) 0) as [Hlt|Hge].
    + eexists; split; [reflexivity|].
      assert (below_ok items target comparator (Z.of_nat (length items))) as Hb.
      { replace (Z.of_nat (length items)) with (Z.of_nat (length items) - 1 + 1) by lia.
        apply (below_of_le _ last); [done|lia]. }
      split_and!; [done| | |].
      * intros k x Hk%lookup_lt_Some ?. lia.
      * intros _ k x Hk _. apply (Hb k x Hk). apply lookup_lt_Some in Hk. lia.
      * intros _ x Hx. by simplify_eq.
    + eexists; split; [reflexivity|]. split_and!; [done| |done|intros; lia].
      subst lo. apply (above_of_le _ last); [done|]. by apply flip_ge.
  - eexists; split; [reflexivity|]. split_and!; [done| |done|intros; lia].
    destruct Habove as [->|Habove]; [lia|].
    by apply (above_ok_mono hi).
Qed.

Lemma findInsertionIndex_loop_correct :
  forall fuel (lo hi : Z),
  0 <= lo <= Z.of_nat (length items) - 1 ->
  hi <= Z.of_nat (length items) - 1 ->
  hi - lo < Z.of_nat fuel ->
  below_ok items target comparator lo ->
  hi = Z.of_nat (length items) - 1 \/ above_ok items target comparator hi ->
  ((exists k : nat, Z.of_nat k < lo /\ items !! k = Some target) ->
     below_ok items target comparator (lo + 1)) ->
  exists i, findInsertionIndex_loop fuel items target comparator lo hi = Some i
            /\ insertion_point items target comparator i.
Proof.
  induction fuel as [|fuel IH]; intros lo hi Hlo Hhi Hfuel Hbelow Habove Hpast.
  { apply insertion_point_exit; [lia|done|lia|done..]. }
  destruct (Z.le_gt_cases hi lo) as [Hle|Hlt].
  { apply insertion_point_exit; [lia|done|lia|done..]. }
  rewrite findInsertionIndex_loop_unfold. cbv zeta.
  pose proof (mid_bounds lo hi ltac:(lia)) as Hmid.
  set (index := Z.quot (lo + hi) 2) in *.
  destruct (Z.ltb_spec lo hi); [|lia].
  destruct (js_get_inrange items index) as [item Hitem]; [lia|].
  rewrite Hitem. simpl.
  destruct (decide (item = target)) as [->|Hne].
  - destruct (Z.eqb_spec index 0) as [H0|Hn0].
    { eexists; split; [reflexivity|]. replace lo with index by lia.
      by apply insertion_point_hit. }
    destruct (Z.eqb_spec index (Z.of_nat (length items) - 1)); [lia|].
    destruct (js_get_inrange items (index - 1)) as [below Hb]; [lia|].
    destruct (js_get_inrange items (index + 1)) as [above Ha]; [lia|].
    rewrite Hb, Ha. simpl.
    destruct (Z.ltb_spec (comparator below target) 0) as [HoB|HoB];
      destruct (Z.ltb_spec (comparator target above) 0) as [HoA|HoA]; simpl.
    + eexists; split; [reflexivity|]. by apply insertion_point_hit.
    + apply IH; [lia|lia|lia| |done|].
      * apply (below_of_le index target); [done|]. rewrite (cmp_refl _ Hcmp). lia.
      * intros _. replace (index + 1 + 1) with ((index + 1) + 1) by lia.
        apply (below_of_le (index + 1) above); [done|]. by apply flip_ge.
    + apply IH; [lia|lia|lia|done| |done].
      right. apply (above_of_le (index - 1) below); [done|]. by apply flip_ge.
    + eexists; split; [reflexivity|]. by apply insertion_point_hit.
  - destruct (Z.eqb_spec (comparator target item) 0) as [Hz|Hnz].
    { eexists; split; [reflexivity|]. by apply (insertion_point_tie index item). }
    rewrite Z.gtb_ltb.
    destruct (Z.ltb_spec 0 (comparator target item)) as [Hgt|Hngt].
    + apply IH; [lia|lia|lia| |done|].
      * apply (below_of_le index item); [done|]. apply flip_gt in Hgt. lia.
      * intros (k & Hk & Hkt). exfalso.
        apply js_get_Some in Hitem as [Hidx Hitem].
        destruct (decide (k = Z.to_nat index)) as [->|Hneq]; [by simplify_eq|].
        pose proof (sorted_lookup k (Z.to_nat index) target item ltac:(lia) Hkt Hitem). lia.
    + apply IH; [lia|lia|lia|done| |done].
      right. apply (above_of_le index item); [done|lia].
Qed.

Lemma findInsertionIndex_insertion_point :
  exists i, findInsertionIndex items target comparator = Some i
            /\ insertion_point items target comparator i.
Proof.
  unfold findInsertionIndex. destruct (Z.eqb_spec (Z.of_nat (length items)) 0) as [H0|Hn0].
  - exists 0. split; [reflexivity|].
    assert (items = []) as -> by (destruct items; [done|simpl in H0; lia]).
    split_and!.
    + intros k x Hk. by rewrite lookup_nil in Hk.
    + intros k x Hk. by rewrite lookup_nil in Hk.
    + intros (k & _ & Hk). by rewrite lookup_nil in Hk.
    + intros _ x Hx. unfold js_get in Hx. simpl in Hx. done.
  - apply findInsertionIndex_loop_correct; [lia|lia|lia| |by left|].
    + intros k x _ ?. lia.
    + intros (k & ? & _). lia.
Qed.

Lemma sorted_delete (p : nat) : sorted comparator (delete p items).
Proof.
  clear Hcmp. unfold sorted in *. rewrite delete_take_drop.
  rewrite <- (take_drop p items) in Hsorted.
  apply StronglySorted_app in Hsorted as (Hcross & Hl & Hr).
  apply StronglySorted_app_2; [|done|].
  - intros x1 x2 H1 H2. apply Hcross; [done|].
    rewrite <- (take_drop 1 (drop p items)), drop_drop.
    apply elem_of_app. right. by replace (p + 1)%nat with (S p) by lia.
  - rewrite <- (take_drop 1 (drop p items)), drop_drop in Hr.
    apply StronglySorted_app_1_r in Hr. by replace (p + 1)%nat with (S p) in Hr by lia.
Qed.

(** Inserting at a position that splits a sorted array into what sorts no
    later and what sorts no earlier than the target keeps it sorted. *)
Lemma sorted_splice_insert (l : list T) (n : nat) :
  sorted comparator l ->
  (forall (j : nat) x, l !! j = Some x -> (j < n)%nat -> comparator x target <= 0) ->
  (forall (j : nat) x, l !! j = Some x -> (n <= j)%nat -> comparator target x <= 0) ->
  sorted comparator (take n l ++ target :: drop n l).
Proof.
  clear Hsorted. unfold sorted. intros Hl Hlow Hhigh.
  rewrite <- (take_drop n l) in Hl.
  apply StronglySorted_app in Hl as (Hcross & Hl1 & Hl2).
  assert (forall x, x ∈ take n l -> comparator x target <= 0) as Hlow'.
  { intros x (j & Hj)%list_elem_of_lookup_1.
    apply lookup_take_Some in Hj as [Hj Hlt]. by apply (Hlow j). }
  assert (forall x, x ∈ drop n l -> comparator target x <= 0) as Hhigh'.
  { intros x (j & Hj)%list_elem_of_lookup_1.
    rewrite lookup_drop in Hj. apply (Hhigh _ _ Hj). lia. }
  apply StronglySorted_app_2; [|done|].
  - intros x1 x2 H1 [->|H2]%elem_of_cons; [by apply Hlow'|by apply Hcross].
  - constructor; [done|]. apply Forall_forall. exact Hhigh'.
Qed.

Lemma insertion_point_sorted (i : Z) :
  0 <= i <= Z.of_nat (length items) ->
  insertion_point items target comparator i ->
  sorted comparator (splice_insert i target (without target items)).
Proof.
  intros Hi (Hbelow & Habove & Hpast & _).
  unfold splice_insert, without.
  destruct (Z.ltb_spec (indexOf target items) 0) as [Habs|Hpres].
  - rewrite splice_start_inrange by lia.
    apply sorted_splice_insert; [done| |].
    + intros j x Hj Hlt. apply (Hbelow j x Hj). lia.
    + intros j x Hj Hle. apply (Habove j x Hj). lia.
  - pose proof (indexOf_lt items target) as Hp.
    pose proof (indexOf_lookup items target Hpres) as Hpt.
    unfold splice_delete. rewrite (splice_start_inrange items (indexOf target items)) by lia.
    set (p := Z.to_nat (indexOf target items)) in *.
    assert (length (delete p items) = (length items - 1)%nat) as Hlen.
    { rewrite length_delete; [done|]. eauto. }
    set (n := splice_start i (delete p items)).
    assert (n = Z.to_nat (Z.min i (Z.of_nat (length items) - 1))) as Hn.
    { unfold n, splice_start. rewrite Hlen. destruct (Z.ltb_spec i 0); lia. }
    apply sorted_splice_insert; [apply sorted_delete| |].
    + intros j x Hj Hlt. destruct (decide (j < p)%nat) as [Hjp|Hjp].
      * rewrite list_lookup_delete_lt in Hj by done. apply (Hbelow j x Hj). lia.
      * rewrite list_lookup_delete_ge in Hj by lia.
        destruct (decide (Z.of_nat (S j) < i)) as [Hji|Hji].
        { by apply (Hbelow (S j) x Hj). }
        apply (Hpast ltac:(exists p; split; [lia|done]) (S j) x Hj). lia.
    + intros j x Hj Hle. pose proof (lookup_lt_Some _ _ _ Hj) as Hjl. rewrite Hlen in Hjl.
      destruct (decide (j < p)%nat) as [Hjp|Hjp].
      * rewrite list_lookup_delete_lt in Hj by done. apply (Habove j x Hj). lia.
      * rewrite list_lookup_delete_ge in Hj by lia. apply (Habove (S j) x Hj). lia.
Qed.

Lemma insertion_point_strict (i p : Z) :
  0 <= i <= Z.of_nat (length items) ->
  insertion_point items target comparator i ->
  strictly_placed comparator items target p ->
  i = p.
Proof.
  intros Hi (Hbelow & Habove & Hpast & Hend) (Hp & Hprev & Hnext).
  pose proof Hp as [Hp0 Hpl]%js_get_Some.
  pose proof (lookup_lt_Some _ _ _ Hpl) as Hplen.
  assert (p <= i) as Hlow.
  { destruct (Z.le_gt_cases p i) as [|Hgt]; [done|exfalso].
    destruct (js_get_inrange items (p - 1)) as [x Hx]; [lia|].
    specialize (Hprev x Hx). apply js_get_Some in Hx as [? Hx].
    pose proof (Habove _ x Hx ltac:(lia)). pose proof (cmp_antisym _ Hcmp x target). lia. }
  destruct (Z.eq_dec i p) as [|Hne]; [done|exfalso].
  assert (p + 1 <= i) as Hgt by lia.
  destruct (Z.lt_ge_cases (p + 1) (Z.of_nat (length items))) as [Hin|Hout].
  - destruct (js_get_inrange items (p + 1)) as [y Hy]; [lia|].
    specialize (Hnext y Hy). apply js_get_Some in Hy as [? Hy].
    assert (comparator y target <= 0) as Hyt.
    { destruct (Z.eq_dec i (p + 1)) as [->|Hne'].
      - apply (Hpast ltac:(exists (Z.to_nat p); split; [lia|done]) _ y Hy). lia.
      - apply (Hbelow _ y Hy). lia. }
    pose proof (cmp_antisym _ Hcmp target y). lia.
  - assert (i = Z.of_nat (length items)) as Hil by lia.
    assert (p = Z.of_nat (length items) - 1) as Hpl' by lia.
    rewrite <- Hpl' in Hend. specialize (Hend Hil target Hp).
    rewrite (cmp_refl _ Hcmp) in Hend. lia.
Qed.
End Sorted.

(** C2, as the code has it: on an array sorted by a comparator that honours
    its contract, the search answers with an index [i] between [0] and the
    length such that taking the target out (if it is a member) and
    inserting it at [i] leaves the array sorted; and when the target is a
    member placed strictly between its neighbours (the one below sorts
    before it, the one above sorts after it), [i] is its position. *)
Theorem findInsertionIndex_correct (items : list T) (target : T) (comparator : T -> T -> Z) :
  Comparator comparator ->
  sorted comparator items ->
  exists i,
    findInsertionIndex items target comparator = Some i /\
    0 <= i <= Z.of_nat (length items) /\
    sorted comparator (splice_insert i target (without target items)) /\
    (forall p, strictly_placed comparator items target p -> i = p).
Proof.
  intros Hcmp Hsorted.
  destruct (findInsertionIndex_insertion_point comparator Hcmp items target Hsorted)
    as (i & Hi & Hpoint).
  destruct (findInsertionIndex_total comparator items target) as (i' & Hi' & Hbounds).
  assert (i' = i) as -> by congruence.
  exists i. split_and!; [done|lia|lia| |].
  - by apply insertion_point_sorted.
  - intros p Hp. by eapply insertion_point_strict.
Qed.
End FindInsertionIndexFacts.

(** A comparator that orders by an integer key. *)
Lemma key_Comparator {T : Type} (key : T -> Z) :
  Comparator (fun a b => key a - key b).
Proof. split; intros; lia. Qed.


Lemma tie_items_sorted : sorted tie_cmp tie_items.
Proof. repeat constructor; vm_compute; discriminate. Qed.

Lemma findInsertionIndex_correct_witness :
  Comparator tie_cmp /\ sorted tie_cmp tie_items /\
  exists i,
    findInsertionIndex tie_items 12%nat tie_cmp = Some i /\
    0 <= i <= Z.of_nat (length tie_items) /\
    sorted tie_cmp (splice_insert i 12%nat (without 12%nat tie_items)) /\
    (forall p, strictly_placed tie_cmp tie_items 12%nat p -> i = p).
Proof.
  split; [exact (key_Comparator tie_key)|].
  split; [exact tie_items_sorted|].
  apply (findInsertionIndex_correct tie_items 12%nat tie_cmp
           (key_Comparator tie_key) tie_items_sorted).
Defined.

(** C2 as stated fails on ties: the item at index 1 is a member of a sorted
    array and is in order with both neighbours, yet the search answers 0. *)
Lemma findInsertionIndex_tie_moves_member :
  Comparator tie_cmp /\ sorted tie_cmp tie_items /\
  tie_items !! 1%nat = Some 11%nat /\
  tie_cmp 10%nat 11%nat <= 0 /\ tie_cmp 11%nat 12%nat <= 0 /\
  findInsertionIndex tie_items 11%nat tie_cmp = Some 0.
Proof.
  split; [exact (key_Comparator tie_key)|].
  split; [exact tie_items_sorted|].
  split_and!; try reflexivity; vm_compute; discriminate.
Qed.

(** ** The sort transform *)

Section SortViewFacts.
Context {T V Column : Type} `{EqDecision T} `{EqDecision Column}
        (getSortValue : Column -> V -> option Z)
        (getDefaultSortDirection : Column -> SortDirection).
Import SortView.
Abbreviation comparator := (comparator getSortValue).
Abbreviation setSortColumn := (setSortColumn getSortValue getDefaultSortDirection).
Abbreviation onSourceChanged := (onSourceChanged getSortValue).

Lemma comparator_Comparator (σ : T -> V) (c : Column) (dir : SortDirection) :
  Comparator (comparator σ c dir).
Proof. apply (compare_Comparator (fun a => getSortValue c (σ a)) dir). Qed.

(** C5, as the code has it: selecting a column toggles the direction when
    it is the active one and adopts its default direction otherwise, and in
    both cases the maintained sequence is re-sorted in full (a sorted
    permutation of what it held) and exactly one [Reset] is raised;
    selecting no column clears the column and sets the direction to
    ascending, and then returns at once: the sequence is left in the order
    it had and nothing is raised. *)
Theorem setSortColumn_spec (σ : T -> V) (sv : SortView T Column) :
  (forall c,
     let r := setSortColumn σ sv (Some c) in
     sortColumn r.1 = Some c /\
     sortDirection r.1 =
       (if decide (sortColumn sv = Some c)
        then match sortDirection sv with Ascending => Descending | Descending => Ascending end
        else getDefaultSortDirection c) /\
     items r.1 ≡ₚ items sv /\
     sorted (comparator σ c (sortDirection r.1)) (items r.1) /\
     r.2 = [Reset]) /\
  setSortColumn σ sv None =
    ({| items := items sv; sortColumn := None; sortDirection := Ascending |}, []).
Proof.
  split; [|reflexivity].
  intros c. simpl. split_and!.
  - reflexivity.
  - case_decide; [|reflexivity]. by destruct (sortDirection sv).
  - apply array_sort_perm.
  - apply array_sort_sorted, comparator_Comparator.
  - reflexivity.
Qed.

End SortViewFacts.


(** Inserting x = 5, y = 1, z = 3 into a view sorted ascending raises
    [Insert] at 0 for x, at 0 for y and at 1 for z, and leaves [y; z; x]. *)
Example sorted_inserts :
  sort_feed xyz_empty [Insert 20%nat "x" 0 true; Insert 21%nat "y" 1 true;
                       Insert 22%nat "z" 2 true]
  = Some ({| SortView.items := [21%nat; 22%nat; 20%nat];
             SortView.sortColumn := Some tt;
             SortView.sortDirection := Ascending |},
          [Insert 20%nat "x"%string 0 true; Insert 21%nat "y"%string 0 true;
           Insert 22%nat "z"%string 1 true]).
Proof. reflexivity. Qed.

(** The search presupposes that the array is sorted with the target in
    it: where the first of two items comes to sort after the second, the
    probe hits the target at index 0 and answers 0. *)
Example findInsertionIndex_two_unsorted :
  findInsertionIndex [20%nat; 21%nat] 20%nat
    (SortView.comparator demo_value xyz_store tt Ascending) = Some 0.
Proof. reflexivity. Qed.

(** C4, against the code. A view of two items sorted ascending holds
    item 20 before item 21; item 20 then changes its value from 0 to 5,
    above the 1 of item 21, and the upstream raises its [Update]. The
    search probes index 0, finds the updated item itself there and answers
    0 without comparing it with its neighbour, so the view raises an
    [Update] at index 0 and stays as it is, no longer sorted, where the
    sorted position of the item is index 1. With a third item in the view
    the same change is answered by the [Move] to the end. In a sorted view
    with values 1, 1 and 2, an [Update] of the middle item, whose value and
    place are as they were, is answered by a [Move] from 1 to 0. *)
Theorem update_of_head_item_leaves_view_unsorted :
  sorted (SortView.comparator demo_value xyz_before tt Ascending)
    (SortView.items head_view) /\
  SortView.onSourceChanged demo_value xyz_store [20%nat; 21%nat] head_view
    (Update 20%nat "x" 0) = Some (head_view, [Update 20%nat "x"%string 0]) /\
  ~ sorted (SortView.comparator demo_value xyz_store tt Ascending)
      (SortView.items head_view) /\
  sorted (SortView.comparator demo_value xyz_store tt Ascending)
    (splice_insert 1 20%nat (splice_delete 0 (SortView.items head_view))) /\
  SortView.onSourceChanged demo_value xyz_store [20%nat; 21%nat; 22%nat]
    (SortView.withItems head_view [20%nat; 21%nat; 22%nat]) (Update 20%nat "x" 0)
  = Some (SortView.withItems head_view [21%nat; 22%nat; 20%nat],
          [Move 20%nat "x"%string 0 2]) /\
  sorted (SortView.comparator demo_value tie_key tt Ascending) (SortView.items tie_view) /\
  SortView.onSourceChanged demo_value tie_key tie_items tie_view (Update 11%nat "b" 1)
  = Some (SortView.withItems tie_view [11%nat; 10%nat; 12%nat],
          [Move 11%nat "b"%string 1 0]).
Proof.
  split_and!; try reflexivity.
  - repeat constructor. vm_compute. discriminate.
  - intros Hs. apply StronglySorted_inv in Hs as [_ Hall].
    apply Forall_cons in Hall as [Hle _]. vm_compute in Hle. by apply Hle.
  - repeat constructor. vm_compute. discriminate.
  - repeat constructor; vm_compute; discriminate.
Qed.

(** C5 as stated fails when no column is selected: the view was sorted by
    the column, and clearing the column neither restores the upstream
    order [0; 1] nor raises a [Reset]. *)
Lemma setSortColumn_none_raises_nothing :
  SortView.items demo_sorted = [1%nat; 0%nat] /\
  SortView.setSortColumn demo_value demo_default demo_store demo_sorted None
  = ({| SortView.items := [1%nat; 0%nat]; SortView.sortColumn := None;
        SortView.sortDirection := Ascending |}, []).
Proof. split; reflexivity. Qed.

(** ** The window transform *)

Lemma truncate_small (q : Q) : (-1 < q)%Q -> (q < 0)%Q -> truncate q = 0.
Proof.
  destruct q as [n d]. unfold Qlt, truncate. simpl. intros Hlo Hhi.
  replace n with (- (- n)) by lia.
  rewrite Z.quot_opp_l by lia.
  rewrite Z.quot_small; lia.
Qed.

Section WindowViewFacts.
Context {T : Type} (getItemId : T -> string).
Import WindowView.
Abbreviation onSourceChanged := (onSourceChanged getItemId).
Abbreviation setWindowOffset := (setWindowOffset getItemId).
Abbreviation scrollDown_row := (scrollDown_row getItemId).
Abbreviation scrollUp_row := (scrollUp_row getItemId).
Abbreviation leavingRow := (leavingRow getItemId).
Abbreviation enteringRow := (enteringRow getItemId).

(** C7, as the code has it: an upstream [Remove] inside the window is
    translated to the window index [index - offset]; it is raised as a
    [Replace] that also brings in the upstream item now last in the window
    when the upstream still fills the window, and as a plain [Remove]
    otherwise, and a [Scroll] follows in both cases. A removal before the
    window decrements the offset and raises only [Scroll]; a removal after
    the window raises only [Scroll]. *)
Theorem remove_translated (wv : WindowView) (sourceItems : list T)
    (item : T) (itemId : string) (index : Z) :
  0 <= index -> 0 <= windowSize wv ->
  let res := onSourceChanged wv sourceItems (Remove item itemId index) in
  (offset wv <= index < offset wv + windowSize wv ->
     (offset wv + windowSize wv <= Z.of_nat (length sourceItems) ->
        exists appendItem,
          js_get sourceItems (offset wv + windowSize wv - 1) = Some appendItem /\
          res = Returned wv [Replace item itemId (index - offset wv)
                               appendItem (getItemId appendItem) (windowSize wv - 1);
                             Scroll]) /\
     (Z.of_nat (length sourceItems) < offset wv + windowSize wv ->
        res = Returned wv [Remove item itemId (index - offset wv); Scroll])) /\
  (index < offset wv ->
     res = Returned {| windowSize := windowSize wv; offset := offset wv - 1 |} [Scroll]) /\
  (offset wv + windowSize wv <= index -> res = Returned wv [Scroll]).
Proof.
  intros Hidx Hsize. simpl.
  unfold WindowView.onSourceChanged, isValidWindowIndex, toWindowIndex, WindowView.remove.
  split_and!.
  - intros Hin. split.
    + intros Hfull.
      destruct (js_get_inrange sourceItems (offset wv + windowSize wv - 1)) as [a Ha]; [lia|].
      exists a. split; [done|]. rewrite Ha. zcases; try lia. reflexivity.
    + intros Hshort. zcases; try lia. reflexivity.
  - intros Hbefore. zcases; try lia; reflexivity.
  - intros Hafter. zcases; try lia; reflexivity.
Qed.

Lemma validIndex_get (items : list T) (i : Z) :
  validIndex items i = true <-> is_Some (js_get items i).
Proof.
  unfold validIndex. split.
  - intros [H1 H2]%andb_prop. apply js_get_inrange. lia.
  - intros [x Hx]. apply js_get_Some in Hx as [H0 Hl%lookup_lt_Some].
    apply andb_true_intro. split; [apply Z.leb_le|apply Z.ltb_lt]; lia.
Qed.

Lemma validIndex_None (items : list T) (i : Z) :
  js_get items i = None -> validIndex items i = false.
Proof.
  intros Hn. destruct (validIndex items i) eqn:E; [|done].
  apply validIndex_get in E as [x Hx]. congruence.
Qed.

Lemma scrollDown_row_spec (wv : WindowView) (oldOffset : Z) (items : list T) (i : Z) :
  scrollDown_row wv oldOffset items i =
  leavingRow (windowSize wv) (js_get items (oldOffset + i))
    (js_get items (oldOffset + windowSize wv + i)).
Proof.
  unfold WindowView.scrollDown_row, WindowView.leavingRow.
  destruct (js_get items (oldOffset + i)) as [r|] eqn:Hr.
  - rewrite (proj2 (validIndex_get items _)) by (rewrite Hr; eauto).
    destruct (js_get items (oldOffset + windowSize wv + i)) as [a|] eqn:Ha.
    + rewrite (proj2 (validIndex_get items _)) by (rewrite Ha; eauto). reflexivity.
    + by rewrite (validIndex_None _ _ Ha).
  - by rewrite (validIndex_None _ _ Hr).
Qed.

Lemma scrollUp_row_spec (wv : WindowView) (items : list T) (i : Z) :
  scrollUp_row wv items i =
  enteringRow (windowSize wv) (js_get items (offset wv + i))
    (js_get items (offset wv + windowSize wv + i)).
Proof.
  unfold WindowView.scrollUp_row, WindowView.enteringRow.
  destruct (js_get items (offset wv + i)) as [a|] eqn:Ha.
  - rewrite (proj2 (validIndex_get items _)) by (rewrite Ha; eauto).
    destruct (js_get items (offset wv + windowSize wv + i)) as [r|] eqn:Hr.
    + rewrite (proj2 (validIndex_get items _)) by (rewrite Hr; eauto). reflexivity.
    + by rewrite (validIndex_None _ _ Hr).
  - by rewrite (validIndex_None _ _ Ha).
Qed.

Lemma flat_map_ext_in {A B} (f g : A -> list B) (l : list A) :
  (forall x, f x = g x) -> flat_map f l = flat_map g l.
Proof. intros Hfg. induction l as [|x l IH]; simpl; [done|]. by rewrite Hfg, IH. Qed.

(** C10: the argument is truncated to an integer before anything else, so
    that the call does what it does for the truncated argument. An
    argument strictly between -1 and 0 is the call for offset 0: it is
    never rejected as negative, and from any other offset it moves the
    window to offset 0 and raises the records of that scroll. An argument
    whose truncation is the current offset returns at once, before the sign
    is looked at, raising nothing and leaving the view as it was; only a
    truncation that is negative and differs from the current offset is
    rejected, the view being left as it was. *)
Theorem setWindowOffset_truncates_first (wv : WindowView) (sourceItems : list T) (arg : Q) :
  setWindowOffset wv sourceItems arg
  = setWindowOffset wv sourceItems (inject_Z (toInt32 arg)) /\
  (toInt32 arg = offset wv -> setWindowOffset wv sourceItems arg = Returned wv []) /\
  ((-1 < arg)%Q -> (arg < 0)%Q ->
     toInt32 arg = 0 /\
     setWindowOffset wv sourceItems arg = setWindowOffset wv sourceItems 0%Q /\
     (offset wv <> 0 ->
        exists evs,
          setWindowOffset wv sourceItems arg
          = Returned {| windowSize := windowSize wv; offset := 0 |} (evs ++ [Scroll]))) /\
  (toInt32 arg < 0 -> toInt32 arg <> offset wv ->
     setWindowOffset wv sourceItems arg = Threw wv []).
Proof.
  assert (forall q q', toInt32 q = toInt32 q' ->
            setWindowOffset wv sourceItems q = setWindowOffset wv sourceItems q') as Honly.
  { intros q q' Hq. unfold WindowView.setWindowOffset. by rewrite Hq. }
  assert (forall z, toInt32 (inject_Z z) = (z + 2 ^ 31) mod 2 ^ 32 - 2 ^ 31) as Hint.
  { intros z. unfold toInt32, truncate. simpl. by rewrite Z.quot_1_r. }
  split_and!.
  - apply Honly. rewrite Hint. unfold toInt32.
    pose proof (Z.mod_pos_bound (truncate arg + 2 ^ 31) (2 ^ 32) ltac:(lia)) as Hb.
    set (m := (truncate arg + 2 ^ 31) mod 2 ^ 32) in *.
    replace (m - 2 ^ 31 + 2 ^ 31) with m by lia. by rewrite Z.mod_small by lia.
  - intros Heq. unfold WindowView.setWindowOffset. by rewrite Heq, Z.eqb_refl.
  - intros Hlo Hhi.
    assert (toInt32 arg = 0) as Hzero.
    { unfold toInt32. by rewrite (truncate_small arg Hlo Hhi). }
    split_and!; [done|by apply Honly|].
    intros Hmoved. unfold WindowView.setWindowOffset. rewrite Hzero. cbv zeta.
    destruct (Z.eqb_spec (offset wv) 0); [done|]. simpl.
    destruct (windowSize wv <=? _); [by exists [CollectionChange_.reset]|].
    destruct (_ >? _); eauto.
  - intros Hneg Hne. unfold WindowView.setWindowOffset.
    destruct (Z.eqb_spec (offset wv) (toInt32 arg)); [congruence|].
    by destruct (Z.ltb_spec (toInt32 arg) 0); [|lia].
Qed.

Lemma leavingRow_kind (size : Z) (leaving entering : option T) :
  Forall (fun c => match c with Replace _ _ _ _ _ _ | Remove _ _ _ => True | _ => False end)
         (leavingRow size leaving entering)
  /\ (length (leavingRow size leaving entering) <= 1)%nat.
Proof. destruct leaving, entering; simpl; repeat constructor. Qed.

Lemma enteringRow_kind (size : Z) (entering leaving : option T) :
  Forall (fun c => match c with Replace _ _ _ _ _ _ | Insert _ _ _ _ => True | _ => False end)
         (enteringRow size entering leaving)
  /\ (length (enteringRow size entering leaving) <= 1)%nat.
Proof. destruct leaving, entering; simpl; repeat constructor. Qed.

Lemma flat_map_rows {A B} (P : B -> Prop) (f : A -> list B) (l : list A) :
  (forall x, Forall P (f x) /\ (length (f x) <= 1)%nat) ->
  Forall P (flat_map f l) /\ (length (flat_map f l) <= length l)%nat.
Proof.
  intros Hf. induction l as [|x l [IH1 IH2]]; simpl; [split; [constructor|lia]|].
  destruct (Hf x) as [H1 H2]. split.
  - by apply Forall_app.
  - rewrite length_app. lia.
Qed.

(** C6: for a new offset (the truncated argument) that is not negative and
    differs from the current one, moving by at least half the window size
    raises exactly [Reset] then [Scroll], in particular when the distance
    is exactly half the window size. A shorter move raises, row by row in
    the direction of the scroll, a [Replace] for each upstream row that
    leaves the view together with the row that fills its slot (a plain
    [Remove] when scrolling down with no upstream row to enter, a plain
    [Insert] when scrolling up with no row to leave, nothing for a row
    position that holds no upstream item), and then exactly one [Scroll]. *)
Theorem setWindowOffset_events (wv : WindowView) (sourceItems : list T) (arg : Q) :
  0 <= toInt32 arg -> toInt32 arg <> offset wv ->
  let newOffset := toInt32 arg in
  let diff := newOffset - offset wv in
  let wv' := {| windowSize := windowSize wv; offset := newOffset |} in
  (windowSize wv <= 2 * Z.abs diff ->
     setWindowOffset wv sourceItems arg = Returned wv' [Reset; Scroll]) /\
  (2 * Z.abs diff < windowSize wv -> 0 < diff ->
     exists rows,
       setWindowOffset wv sourceItems arg = Returned wv' (rows ++ [Scroll]) /\
       rows = flat_map (fun i => leavingRow (windowSize wv)
                                   (js_get sourceItems (offset wv + i))
                                   (js_get sourceItems (offset wv + windowSize wv + i)))
                       (seqZ 0 diff) /\
       Forall (fun c => match c with
                        | Replace _ _ _ _ _ _ | Remove _ _ _ => True
                        | _ => False
                        end) rows /\
       Z.of_nat (length rows) <= diff) /\
  (2 * Z.abs diff < windowSize wv -> diff < 0 ->
     exists rows,
       setWindowOffset wv sourceItems arg = Returned wv' (rows ++ [Scroll]) /\
       rows = flat_map (fun i => enteringRow (windowSize wv)
                                   (js_get sourceItems (newOffset + i))
                                   (js_get sourceItems (newOffset + windowSize wv + i)))
                       (reverse (seqZ 0 (- diff))) /\
       Forall (fun c => match c with
                        | Replace _ _ _ _ _ _ | Insert _ _ _ _ => True
                        | _ => False
                        end) rows /\
       Z.of_nat (length rows) <= - diff).
Proof.
  intros Hnn Hne. cbv zeta. unfold WindowView.setWindowOffset. cbv zeta.
  destruct (Z.eqb_spec (offset wv) (toInt32 arg)) as [Heq|_]; [congruence|].
  destruct (Z.ltb_spec (toInt32 arg) 0) as [|_]; [lia|].
  split_and!.
  - intros Hfar. destruct (Z.leb_spec (windowSize wv) (2 * Z.abs (toInt32 arg - offset wv)));
      [reflexivity|lia].
  - intros Hnear Hdown.
    destruct (Z.leb_spec (windowSize wv) (2 * Z.abs (toInt32 arg - offset wv))); [lia|].
    rewrite Z.gtb_ltb. destruct (Z.ltb_spec 0 (toInt32 arg - offset wv)); [|lia].
    eexists. split; [reflexivity|].
    rewrite (flat_map_ext_in _ _ _ (scrollDown_row_spec _ (offset wv) sourceItems)). simpl.
    split; [reflexivity|].
    pose proof (flat_map_rows _
      (fun i => leavingRow (windowSize wv) (js_get sourceItems (offset wv + i))
                  (js_get sourceItems (offset wv + windowSize wv + i)))
      (seqZ 0 (toInt32 arg - offset wv))
      (fun i => leavingRow_kind _ _ _)) as [Hk Hl].
    split; [exact Hk|]. rewrite length_seqZ in Hl. lia.
  - intros Hnear Hup.
    destruct (Z.leb_spec (windowSize wv) (2 * Z.abs (toInt32 arg - offset wv))); [lia|].
    rewrite Z.gtb_ltb. destruct (Z.ltb_spec 0 (toInt32 arg - offset wv)); [lia|].
    eexists. split; [reflexivity|].
    rewrite (flat_map_ext_in _ _ _ (scrollUp_row_spec _ sourceItems)). simpl.
    split; [reflexivity|].
    pose proof (flat_map_rows _
      (fun i => enteringRow (windowSize wv) (js_get sourceItems (toInt32 arg + i))
                  (js_get sourceItems (toInt32 arg + windowSize wv + i)))
      (reverse (seqZ 0 (- (toInt32 arg - offset wv))))
      (fun i => enteringRow_kind _ _ _)) as [Hk Hl].
    split; [exact Hk|]. rewrite length_reverse, length_seqZ in Hl. lia.
Qed.
End WindowViewFacts.


Lemma remove_translated_witness :
  0 <= 0 /\ 0 <= WindowView.windowSize demo_window /\
  WindowView.onSourceChanged demo_id demo_window [10%nat] (Remove 9%nat "x" 0)
  = Returned demo_window [Remove 9%nat "x"%string 0; Scroll].
Proof.
  split; [lia|]. split; [simpl; lia|].
  apply (remove_translated demo_id demo_window [10%nat] 9%nat "x"%string 0
           ltac:(lia) ltac:(simpl; lia)); simpl; lia.
Defined.

(** C7 as stated fails inside a window that the upstream still fills: what
    is raised is a [Replace] (and a [Scroll]), and no [Remove]. *)
Lemma remove_inside_full_window_raises_replace :
  WindowView.onSourceChanged demo_id demo_window demo_upstream (Remove 9%nat "x" 0)
  = Returned demo_window [Replace 9%nat "x"%string 0 11%nat "b"%string 1; Scroll]
  /\ existsb is_Remove
       (raised (WindowView.onSourceChanged demo_id demo_window demo_upstream
                  (Remove 9%nat "x" 0))) = false.
Proof. split; reflexivity. Qed.

Lemma setWindowOffset_truncates_first_witness :
  (-1 < -1 # 2)%Q /\ (-1 # 2 < 0)%Q /\
  WindowView.setWindowOffset demo_id {| WindowView.windowSize := 2; WindowView.offset := 3 |}
    demo_upstream (-1 # 2)
  = Returned {| WindowView.windowSize := 2; WindowView.offset := 0 |} [Reset; Scroll] /\
  WindowView.setWindowOffset demo_id {| WindowView.windowSize := 2; WindowView.offset := 3 |}
    demo_upstream (7 # 2)
  = Returned {| WindowView.windowSize := 2; WindowView.offset := 3 |} [].
Proof.
  assert (-1 < -1 # 2)%Q as Hlo by (unfold Qlt; simpl; lia).
  assert (-1 # 2 < 0)%Q as Hhi by (unfold Qlt; simpl; lia).
  split; [exact Hlo|]. split; [exact Hhi|].
  destruct (setWindowOffset_truncates_first demo_id
              {| WindowView.windowSize := 2; WindowView.offset := 3 |} demo_upstream (-1 # 2))
    as (_ & _ & Hsmall & _).
  destruct (Hsmall Hlo Hhi) as (_ & Hzero & _).
  split.
  - rewrite Hzero. reflexivity.
  - apply (setWindowOffset_truncates_first demo_id
             {| WindowView.windowSize := 2; WindowView.offset := 3 |} demo_upstream (7 # 2)).
    reflexivity.
Defined.

(** Scrolling a window of five rows down by one, with an upstream row to
    enter: one [Replace], then [Scroll]. *)
Example scroll_down_by_one :
  WindowView.setWindowOffset demo_id wide_window wide_upstream 1
  = Returned {| WindowView.windowSize := 5; WindowView.offset := 1 |}
             [Replace 10%nat "a"%string 0 15%nat "d"%string 4; Scroll].
Proof. reflexivity. Qed.

(** Scrolling down by two where only one upstream row remains to enter: a
    [Replace], a plain [Remove], then [Scroll]. *)
Example scroll_down_past_the_end :
  WindowView.setWindowOffset demo_id wide_window wide_upstream 2
  = Returned {| WindowView.windowSize := 5; WindowView.offset := 2 |}
             [Replace 10%nat "a"%string 0 15%nat "d"%string 4;
              Remove 11%nat "b"%string 0; Scroll].
Proof. reflexivity. Qed.

(** Scrolling back up by one from offset 1: the first row enters at the
    top and the last leaves at the bottom. *)
Example scroll_up_by_one :
  WindowView.setWindowOffset demo_id
    {| WindowView.windowSize := 5; WindowView.offset := 1 |} wide_upstream 0
  = Returned wide_window [Replace 15%nat "d"%string 4 10%nat "a"%string 0; Scroll].
Proof. reflexivity. Qed.

(** A negative offset is rejected and the view is left as it was. *)
Example negative_offset_rejected :
  WindowView.setWindowOffset demo_id wide_window wide_upstream (-1)
  = Threw wide_window [].
Proof. reflexivity. Qed.

Lemma setWindowOffset_events_witness :
  0 <= toInt32 1 /\ toInt32 1 <> WindowView.offset demo_window /\
  WindowView.setWindowOffset demo_id demo_window demo_upstream 1
  = Returned {| WindowView.windowSize := 2; WindowView.offset := 1 |} [Reset; Scroll].
Proof.
  split; [vm_compute; discriminate|]. split; [vm_compute; discriminate|].
  apply (setWindowOffset_events demo_id demo_window demo_upstream 1
           ltac:(vm_compute; discriminate) ltac:(vm_compute; discriminate)).
  vm_compute. discriminate.
Defined.

(** ** The filter transform *)

Section FilterViewFacts.
Context {T V : Type} `{EqDecision T} (getItemId : T -> string).
Import FilterView.
Abbreviation setPredicate_step := (setPredicate_step getItemId).
Abbreviation setPredicate := (setPredicate getItemId).
Abbreviation onSourceChanged := (onSourceChanged getItemId).
Implicit Types (p : option (V -> bool)) (σ : T -> V) (st : gmap string bool).

Lemma passing_cons p σ x l :
  passing p σ (x :: l) = if passes p σ x then x :: passing p σ l else passing p σ l.
Proof.
  unfold passing. destruct (passes p σ x) eqn:E.
  - by rewrite filter_cons_True.
  - rewrite filter_cons_False; [done|]. congruence.
Qed.

Lemma setPredicate_fold_filtered p σ src : forall st f h,
  (fold_left (setPredicate_step p σ) src (st, f, h)).1.2 = f ++ passing p σ src.
Proof.
  induction src as [|x src IH]; intros st f h; simpl.
  - by rewrite app_nil_r.
  - rewrite passing_cons. case_decide; destruct (passes p σ x); rewrite IH;
      by rewrite <- ?app_assoc.
Qed.

Lemma setPredicate_fold_sticky p σ src : forall st f,
  (fold_left (setPredicate_step p σ) src (st, f, true)).2 = true.
Proof.
  induction src as [|x src IH]; intros st f; simpl; [done|].
  case_decide; apply IH.
Qed.

Lemma setPredicate_fold_unchanged p σ src : forall st f h,
  (forall x, x ∈ src -> st !! getItemId x = Some (passes p σ x)) ->
  fold_left (setPredicate_step p σ) src (st, f, h) = (st, f ++ passing p σ src, h).
Proof.
  induction src as [|x src IH]; intros st f h Hall; simpl.
  - by rewrite app_nil_r.
  - rewrite passing_cons.
    rewrite decide_True by (apply Hall; left).
    rewrite IH by (intros y Hy; apply Hall; by right).
    destruct (passes p σ x); by rewrite <- ?app_assoc.
Qed.

Lemma setPredicate_fold_changed p σ src : forall st f h,
  (exists x, x ∈ src /\ st !! getItemId x <> Some (passes p σ x)) ->
  (fold_left (setPredicate_step p σ) src (st, f, h)).2 = true.
Proof.
  induction src as [|x src IH]; intros st f h (y & Hy & Hdiff); simpl.
  - by apply elem_of_nil in Hy.
  - case_decide as Hx.
    + apply IH. apply elem_of_cons in Hy as [->|Hy]; [done|]. eauto.
    + apply setPredicate_fold_sticky.
Qed.

Lemma setPredicate_fold_other p σ src : forall st f h k,
  k ∉ getItemId <$> src ->
  (fold_left (setPredicate_step p σ) src (st, f, h)).1.1 !! k = st !! k.
Proof.
  induction src as [|x src IH]; intros st f h k Hk; simpl; [done|].
  rewrite fmap_cons in Hk. apply not_elem_of_cons in Hk as [Hne Hk].
  case_decide; rewrite IH by done; [done|]. by rewrite lookup_insert_ne.
Qed.

Lemma setPredicate_fold_cache p σ src : forall st f h,
  NoDup (getItemId <$> src) ->
  forall x, x ∈ src ->
  (fold_left (setPredicate_step p σ) src (st, f, h)).1.1 !! getItemId x
  = Some (passes p σ x).
Proof.
  induction src as [|y src IH]; intros st f h Hnd x Hx; simpl.
  - by apply elem_of_nil in Hx.
  - rewrite fmap_cons in Hnd. apply NoDup_cons in Hnd as [Hy Hnd].
    apply elem_of_cons in Hx as [->|Hx].
    + case_decide as Hpri; rewrite setPredicate_fold_other by done; [done|].
      by rewrite lookup_insert_eq.
    + case_decide; by apply IH.
Qed.

(** What a call of [setPredicate] leaves behind and raises. *)
Lemma setPredicate_outcome σ (sourceItems : list T) (fv : FilterView T V) p :
  let changed := exists item, item ∈ sourceItems /\
                   itemFilterState fv !! getItemId item <> Some (passes p σ item) in
  let r := setPredicate σ sourceItems fv p in
  predicate r.1 = p /\
  (changed -> items r.1 = passing p σ sourceItems /\ r.2 = [Reset; Scroll]) /\
  (~ changed -> items r.1 = items fv /\ itemFilterState r.1 = itemFilterState fv /\ r.2 = []) /\
  (NoDup (getItemId <$> sourceItems) ->
     forall item, item ∈ sourceItems ->
     itemFilterState r.1 !! getItemId item = Some (passes p σ item)).
Proof.
  cbv zeta. unfold FilterView.setPredicate.
  pose proof (setPredicate_fold_filtered p σ sourceItems (itemFilterState fv) [] false) as Hf.
  pose proof (setPredicate_fold_changed p σ sourceItems (itemFilterState fv) [] false) as Hc.
  pose proof (setPredicate_fold_unchanged p σ sourceItems (itemFilterState fv) [] false) as Hu.
  pose proof (setPredicate_fold_cache p σ sourceItems (itemFilterState fv) [] false) as Hk.
  destruct (fold_left _ _ _) as [[st filtered] hasChange]. simpl in *. subst filtered.
  split_and!.
  - by destruct hasChange.
  - intros Hch. rewrite (Hc Hch). done.
  - intros Hnch.
    assert (forall x, x ∈ sourceItems ->
              itemFilterState fv !! getItemId x = Some (passes p σ x)) as Hall.
    { intros x Hx. destruct (decide (itemFilterState fv !! getItemId x = Some (passes p σ x)));
        [done|]. exfalso. apply Hnch. eauto. }
    specialize (Hu Hall). by simplify_eq.
  - intros Hnd item Hitem. specialize (Hk Hnd item Hitem). by destruct hasChange.
Qed.


Lemma passing_none σ (l : list T) : passing None σ l = l.
Proof.
  induction l as [|x l IH]; [done|]. rewrite passing_cons. simpl. by rewrite IH.
Qed.

Lemma passing_ext p p' σ σ' (l : list T) :
  (forall x, x ∈ l -> passes p σ x = passes p' σ' x) ->
  passing p σ l = passing p' σ' l.
Proof.
  induction l as [|x l IH]; intros Hall; [done|].
  rewrite !passing_cons, (Hall x) by left.
  rewrite IH by (intros y Hy; apply Hall; by right). done.
Qed.

Lemma passing_perm p σ (l l' : list T) :
  l ≡ₚ l' -> passing p σ l ≡ₚ passing p σ l'.
Proof. intros Hp. unfold passing. by rewrite Hp. Qed.

Lemma elem_of_passing p σ (l : list T) x :
  x ∈ passing p σ l <-> passes p σ x = true /\ x ∈ l.
Proof. unfold passing. by rewrite list_elem_of_filter. Qed.

Lemma passes_update_other p σ (item x : T) (v : V) :
  x <> item -> passes p (<[item := v]> σ) x = passes p σ x.
Proof.
  intros Hne. unfold passes. destruct p; [|done]. by rewrite fn_lookup_insert_ne.
Qed.

(** The loop of the [Reset] case. *)
Lemma reset_fold_items (q : V -> bool) σ src : forall acc : list T * gmap string bool,
  (fold_left (reset_step getItemId q σ) src acc).1 = acc.1 ++ passing (Some q) σ src.
Proof.
  induction src as [|x src IH]; intros acc; simpl.
  - by rewrite app_nil_r.
  - rewrite IH, passing_cons. simpl. destruct (q (σ x)); by rewrite <- ?app_assoc.
Qed.

Lemma reset_fold_other (q : V -> bool) σ src : forall (acc : list T * gmap string bool) k,
  k ∉ getItemId <$> src ->
  (fold_left (reset_step getItemId q σ) src acc).2 !! k = acc.2 !! k.
Proof.
  induction src as [|x src IH]; intros acc k Hk; simpl; [done|].
  rewrite fmap_cons in Hk. apply not_elem_of_cons in Hk as [Hne Hk].
  rewrite IH by done. simpl. by rewrite lookup_insert_ne.
Qed.

Lemma reset_fold_cache (q : V -> bool) σ src : forall acc : list T * gmap string bool,
  NoDup (getItemId <$> src) ->
  forall x, x ∈ src ->
  (fold_left (reset_step getItemId q σ) src acc).2 !! getItemId x = Some (q (σ x)).
Proof.
  induction src as [|y src IH]; intros acc Hnd x Hx; simpl.
  - by apply elem_of_nil in Hx.
  - rewrite fmap_cons in Hnd. apply NoDup_cons in Hnd as [Hy Hnd].
    apply elem_of_cons in Hx as [->|Hx].
    + rewrite reset_fold_other by done. simpl. by rewrite lookup_insert_eq.
    + by apply IH.
Qed.

Lemma reset_fold_true (src : list T) : forall st x,
  x ∈ src ->
  fold_left (fun st item => <[getItemId item := true]> st) src st !! getItemId x = Some true.
Proof.
  induction src as [|y src IH]; intros st x Hx; simpl.
  - by apply elem_of_nil in Hx.
  - destruct (decide (x ∈ src)) as [Hin|Hnin]; [by apply IH|].
    apply elem_of_cons in Hx as [->|Hx]; [|done].
    clear IH. revert st. induction src as [|z src IH]; intros st; simpl.
    + by rewrite lookup_insert_eq.
    + apply not_elem_of_cons in Hnin as [Hne Hnin].
      destruct (decide (getItemId z = getItemId y)) as [Heq|Hneq].
      * rewrite Heq, insert_insert_eq. by apply IH.
      * rewrite insert_insert_ne by done. by apply IH.
Qed.

Lemma rebuild_spec (fv : FilterView T V) σ (src : list T) :
  NoDup (getItemId <$> src) ->
  predicate (rebuild getItemId fv σ src) = predicate fv /\
  items (rebuild getItemId fv σ src) = passing (predicate fv) σ src /\
  (forall x, x ∈ src ->
     itemFilterState (rebuild getItemId fv σ src) !! getItemId x
     = Some (passes (predicate fv) σ x)).
Proof.
  intros Hnd. unfold rebuild. destruct (predicate fv) as [q|] eqn:Hq; simpl.
  - split_and!; [done|by rewrite reset_fold_items|]. intros x Hx. by apply reset_fold_cache.
  - split_and!; [done|by rewrite passing_none|]. intros x Hx. by apply reset_fold_true.
Qed.
End FilterViewFacts.

Section PermFacts.
Context {A : Type} `{EqDecision A}.

Lemma splice_insert_perm (i : Z) (x : A) (l : list A) : splice_insert i x l ≡ₚ x :: l.
Proof.
  unfold splice_insert. rewrite <- Permutation_middle. by rewrite take_drop.
Qed.

Lemma splice_delete_get (i : Z) (x : A) (l : list A) :
  js_get l i = Some x -> splice_delete i l = delete (Z.to_nat i) l.
Proof.
  intros [Hi Hx]%js_get_Some. apply lookup_lt_Some in Hx as Hlt.
  unfold splice_delete. rewrite splice_start_inrange; [done|lia].
Qed.

Lemma splice_delete_indexOf_perm (x : A) (l : list A) :
  x ∈ l -> l ≡ₚ x :: splice_delete (indexOf x l) l.
Proof.
  intros Hin. pose proof (indexOf_present l x Hin) as H0.
  pose proof (indexOf_lookup l x H0) as Hl.
  rewrite (splice_delete_get _ x) by (by apply js_get_Some).
  by apply delete_Permutation.
Qed.
End PermFacts.

Section PipelineFacts.
Context {T V : Type} `{EqDecision T} (getItemId : T -> string).
Import FilterView Pipeline.
Abbreviation exec := (@Pipeline.exec T V _ getItemId).
Abbreviation run := (@Pipeline.run T V _ getItemId).
Abbreviation attach := (@Pipeline.attach T V getItemId).
Abbreviation invariant := (@Pipeline.invariant T V getItemId).

Lemma id_inj_on (l : list T) (x y : T) :
  NoDup (getItemId <$> l) -> x ∈ l -> y ∈ l -> getItemId x = getItemId y -> x = y.
Proof.
  induction l as [|z l IH]; intros Hnd Hx Hy Heq.
  - by apply elem_of_nil in Hx.
  - rewrite fmap_cons in Hnd. apply NoDup_cons in Hnd as [Hz Hnd].
    apply elem_of_cons in Hx as [->|Hx]; apply elem_of_cons in Hy as [->|Hy].
    + done.
    + exfalso. apply Hz. rewrite Heq. by apply list_elem_of_fmap_2.
    + exfalso. apply Hz. rewrite <- Heq. by apply list_elem_of_fmap_2.
    + by apply IH.
Qed.

Lemma attach_invariant σ (src : list T) p :
  NoDup (getItemId <$> src) -> invariant (attach σ src p).
Proof.
  intros Hnd. unfold Pipeline.attach, Pipeline.invariant, FilterView.new. simpl.
  destruct (setPredicate_outcome getItemId σ src
              {| items := []; itemFilterState := ∅; predicate := None |} p)
    as (Hp & Hch & Hnch & Hcache).
  rewrite Hp. split_and!; [done|by apply Hcache|].
  destruct (decide (src = [])) as [->|Hne].
  - destruct Hnch as (-> & _); [|done].
    intros (x & Hx & _). by apply elem_of_nil in Hx.
  - destruct Hch as (-> & _); [|done].
    destruct src as [|x src]; [done|]. exists x. split; [by left|].
    simpl. by rewrite lookup_empty.
Qed.

Lemma exec_invariant (s s' : System T V) (c : Change T V) :
  invariant s -> exec s c = Some s' -> invariant s'.
Proof.
  intros (Hnd & Hcache & Hitems) Hexec. destruct c as [item v index nw|index|index v|σ' src'| |p];
    simpl in Hexec.
  - (* Insert *)
    destruct (bool_decide _) eqn:Hfresh; [|done]. apply bool_decide_eq_true in Hfresh.
    destruct (0 <=? index); [|done]. destruct (index <=? _); [|done].
    simpl in Hexec. injection Hexec as <-.
    assert (item ∉ source s) as Hnin.
    { intros Hin. apply Hfresh. by apply list_elem_of_fmap_2. }
    assert (forall x, x ∈ source s ->
              passes (predicate (view s)) (<[item := v]> (store s)) x
              = passes (predicate (view s)) (store s) x) as Hsame.
    { intros x Hx. apply passes_update_other. intros ->. done. }
    pose proof (splice_insert_perm index item (source s)) as Hperm.
    unfold Pipeline.invariant, deliver. simpl.
    set (pf := passes (predicate (view s)) (<[item := v]> (store s)) item).
    assert (predicate (if pf then append (setState (view s) (getItemId item) pf)
                                     item (getItemId item) nw
                             else (setState (view s) (getItemId item) pf, [])).1
            = predicate (view s)) as Hpred by (by destruct pf).
    rewrite Hpred. split_and!.
    + rewrite Hperm, fmap_cons. by apply NoDup_cons.
    + intros x Hx. rewrite Hperm in Hx.
      assert (itemFilterState (if pf then append (setState (view s) (getItemId item) pf)
                                            item (getItemId item) nw
                                    else (setState (view s) (getItemId item) pf, [])).1
              = <[getItemId item := pf]> (itemFilterState (view s))) as -> by (by destruct pf).
      apply elem_of_cons in Hx as [->|Hx].
      * by rewrite lookup_insert_eq.
      * rewrite lookup_insert_ne.
        -- rewrite Hsame by done. by apply Hcache.
        -- intros Heq. apply Hfresh. rewrite Heq. by apply list_elem_of_fmap_2.
    + rewrite (passing_perm _ _ _ _ Hperm), passing_cons. fold pf.
      rewrite (passing_ext _ (predicate (view s)) _ (store s) (source s)) by done.
      destruct pf; simpl; [|done].
      rewrite <- Hitems. by rewrite Permutation_app_comm.
  - (* Remove *)
    destruct (js_get (source s) index) as [item|] eqn:Hget; [|done].
    simpl in Hexec. injection Hexec as <-.
    rewrite (splice_delete_get _ _ _ Hget).
    pose proof Hget as [Hi Hl]%js_get_Some.
    pose proof (delete_Permutation _ _ _ Hl) as Hperm.
    set (rest := delete (Z.to_nat index) (source s)) in *.
    assert (NoDup (getItemId item :: (getItemId <$> rest))) as Hnd'.
    { rewrite <- fmap_cons. by rewrite <- Hperm. }
    apply NoDup_cons in Hnd' as [Hfresh Hndrest].
    unfold Pipeline.invariant, deliver. simpl.
    set (pf := passes (predicate (view s)) (store s) item).
    pose proof (passing_perm (predicate (view s)) (store s) _ _ Hperm) as Hpp.
    rewrite passing_cons in Hpp. fold pf in Hpp.
    destruct pf eqn:Hpf; simpl.
    + split_and!; [done| |].
      * intros x Hx. rewrite lookup_delete_ne.
        -- apply Hcache. rewrite Hperm. by right.
        -- intros Heq. apply Hfresh. rewrite Heq. by apply list_elem_of_fmap_2.
      * assert (item ∈ items (view s)) as Hin.
        { rewrite Hitems. apply elem_of_passing. split; [done|]. rewrite Hperm. by left. }
        apply (Permutation_cons_inv (a := item)).
        rewrite <- Hpp, <- Hitems. symmetry. by apply splice_delete_indexOf_perm.
    + split_and!; [done| |].
      * intros x Hx. apply Hcache. rewrite Hperm. by right.
      * by rewrite Hitems.
  - (* Update *)
    destruct (js_get (source s) index) as [item|] eqn:Hget; [|done].
    simpl in Hexec. injection Hexec as <-.
    pose proof Hget as [Hi Hl]%js_get_Some.
    assert (item ∈ source s) as Hin by (by eapply list_elem_of_lookup_2).
    pose proof (delete_Permutation _ _ _ Hl) as Hperm.
    set (rest := delete (Z.to_nat index) (source s)) in *.
    assert (item ∉ rest) as Hnin.
    { apply NoDup_fmap_1 in Hnd. rewrite Hperm in Hnd. by apply NoDup_cons in Hnd as [? _]. }
    set (σ' := <[item := v]> (store s)).
    assert (forall x, x ∈ source s -> x <> item ->
              passes (predicate (view s)) σ' x = passes (predicate (view s)) (store s) x
              /\ getItemId x <> getItemId item) as Hother.
    { intros x Hx Hne. split; [by apply passes_update_other|].
      intros Heq. apply Hne. by apply (id_inj_on (source s)). }
    assert (passing (predicate (view s)) σ' rest = passing (predicate (view s)) (store s) rest)
      as Hrest.
    { apply passing_ext. intros x Hx. apply Hother; [rewrite Hperm; by right|].
      intros ->. done. }
    pose proof (passing_perm (predicate (view s)) σ' _ _ Hperm) as Hnew.
    pose proof (passing_perm (predicate (view s)) (store s) _ _ Hperm) as Hold.
    rewrite passing_cons in Hnew, Hold. rewrite Hrest in Hnew.
    pose proof (Hcache item Hin) as Hprior.
    unfold Pipeline.invariant, deliver. simpl. fold σ'.
    set (pf := passes (predicate (view s)) σ' item) in *.
    set (old := passes (predicate (view s)) (store s) item) in *.
    rewrite Hprior.
    destruct (decide (Some old = Some pf)) as [Heq|Hneq].
    + assert (old = pf) as Hop by congruence.
      assert ((if pf then (view s, [CollectionChange_.update item (getItemId item)
                                      (indexOf item (items (view s)))])
               else (view s, [])).1 = view s) as -> by (by destruct pf).
      split_and!; [done| |].
      * intros x Hx. destruct (decide (x = item)) as [->|Hne].
        -- fold pf. by rewrite Hprior, Hop.
        -- rewrite (proj1 (Hother x Hx Hne)). by apply Hcache.
      * rewrite Hitems, Hnew, Hold, Hop. done.
    + assert (old <> pf) as Hop by congruence.
      assert (passes (predicate (view s)) σ' item = pf) as Hpf by done.
      destruct old, pf; try done; simpl.
      * (* newly fails: removed *)
        split_and!; [done| |].
        -- intros x Hx. destruct (decide (x = item)) as [->|Hne].
           ++ by rewrite Hpf, lookup_insert_eq.
           ++ destruct (Hother x Hx Hne) as [-> Hid]. rewrite lookup_insert_ne by done.
              by apply Hcache.
        -- assert (item ∈ items (view s)) as Hvis.
           { rewrite Hitems, Hold. by left. }
           rewrite Hnew. apply (Permutation_cons_inv (a := item)).
           rewrite <- Hold, <- Hitems. symmetry. by apply splice_delete_indexOf_perm.
      * (* newly passes: appended *)
        split_and!; [done| |].
        -- intros x Hx. destruct (decide (x = item)) as [->|Hne].
           ++ by rewrite Hpf, lookup_insert_eq.
           ++ destruct (Hother x Hx Hne) as [-> Hid]. rewrite lookup_insert_ne by done.
              by apply Hcache.
        -- rewrite Hnew, <- Hold, <- Hitems. by rewrite Permutation_app_comm.
  - (* Reset *)
    destruct (bool_decide _) eqn:Hnd'; [|done]. apply bool_decide_eq_true in Hnd'.
    injection Hexec as <-. unfold Pipeline.invariant, deliver. simpl.
    destruct (rebuild_spec getItemId (view s) σ' src' Hnd') as (-> & -> & Hc).
    split_and!; done.
  - (* Scroll *)
    injection Hexec as <-. unfold Pipeline.invariant, deliver. simpl. done.
  - (* setPredicate *)
    injection Hexec as <-. unfold Pipeline.invariant. simpl.
    destruct (setPredicate_outcome getItemId (store s) (source s) (view s) p)
      as (Hp & Hch & Hnch & Hc).
    rewrite Hp. split_and!; [done|by apply Hc|].
    destruct (decide (Exists (fun item => itemFilterState (view s) !! getItemId item
                                          <> Some (passes p (store s) item)) (source s)))
      as [Hyes%Exists_exists|Hno%(not_iff_compat (Exists_exists _ _))].
    + destruct (Hch Hyes) as [-> _]. done.
    + destruct (Hnch Hno) as (-> & Hst & _). rewrite Hitems.
      erewrite passing_ext; [done|].
      intros x Hx. pose proof (Hcache x Hx) as H1. pose proof (Hc Hnd x Hx) as H2.
      rewrite Hst in H2. congruence.
Qed.

Lemma run_invariant (cs : list (Change T V)) : forall s s' : System T V,
  invariant s -> run s cs = Some s' -> invariant s'.
Proof.
  induction cs as [|c cs IH]; intros s s' Hinv Hrun; simpl in Hrun.
  - by simplify_eq.
  - destruct (exec s c) as [s1|] eqn:Hexec; [|done]. simpl in Hrun.
    apply (IH s1 s'); [|done]. by apply (exec_invariant s s1 c).
Qed.

End PipelineFacts.


Lemma two_ids_distinct : NoDup (demo_id <$> [10%nat; 11%nat]).
Proof.
  simpl. repeat (apply NoDup_cons; split; [not_in_list|]). apply NoDup_nil_2.
Qed.




(** * Further properties *)

(** ** Rows and change records *)

Section RowFacts.
Context {A : Type} `{EqDecision A}.
Implicit Types (l : list A) (x : A).

Lemma splice_insert_inrange (i : Z) x l :
  0 <= i <= Z.of_nat (length l) ->
  splice_insert i x l = take (Z.to_nat i) l ++ x :: drop (Z.to_nat i) l.
Proof. intros Hi. unfold splice_insert. by rewrite splice_start_inrange. Qed.

Lemma insertAt_inrange (i : Z) x l :
  0 <= i <= Z.of_nat (length l) ->
  insertAt i x l = Some (splice_insert i x l).
Proof.
  intros Hi. unfold insertAt. rewrite splice_insert_inrange by done.
  destruct (Z.leb_spec 0 i); [|lia].
  destruct (Z.leb_spec i (Z.of_nat (length l))); [done|lia].
Qed.

Lemma removeAtRow_get (i : Z) x l :
  js_get l i = Some x -> removeAtRow i x l = Some (splice_delete i l).
Proof.
  intros Hget. unfold removeAtRow. rewrite decide_True by done.
  by rewrite (splice_delete_get i x l Hget).
Qed.

Lemma splice_insert_length (i : Z) x l :
  length (splice_insert i x l) = S (length l).
Proof.
  unfold splice_insert. rewrite length_app. simpl.
  rewrite length_take, length_drop. lia.
Qed.

Lemma js_get_splice_insert (i : Z) x l :
  0 <= i <= Z.of_nat (length l) -> js_get (splice_insert i x l) i = Some x.
Proof.
  intros Hi. rewrite splice_insert_inrange by done. apply js_get_Some. split; [lia|].
  rewrite lookup_app_r by (rewrite length_take; lia).
  rewrite length_take. replace (Z.to_nat i - Z.to_nat i `min` length l)%nat with 0%nat by lia.
  done.
Qed.

Lemma js_get_app_last l x : js_get (l ++ [x]) (Z.of_nat (length l)) = Some x.
Proof.
  apply js_get_Some. split; [lia|]. rewrite Nat2Z.id.
  rewrite lookup_app_r by lia. by rewrite Nat.sub_diag.
Qed.

Lemma js_get_app_l l x (i : Z) :
  i < Z.of_nat (length l) -> js_get (l ++ [x]) i = js_get l i.
Proof.
  intros Hi. unfold js_get. destruct (i <? 0) eqn:E; [done|].
  apply Z.ltb_ge in E. rewrite lookup_app_l; [done|lia].
Qed.

Lemma splice_delete_length (i : Z) x l :
  js_get l i = Some x -> length (splice_delete i l) = (length l - 1)%nat.
Proof.
  intros Hget. rewrite (splice_delete_get i x l Hget).
  apply js_get_Some in Hget as [? Hl]. rewrite length_delete; eauto.
Qed.
End RowFacts.

(** ** The root collection, continued *)

Section DataSourceMore.
Context {T : Type} `{EqDecision T} (getItemId : T -> string).
Import DataSource.
Abbreviation consistent := (consistent getItemId).
Abbreviation add := (add getItemId).
Abbreviation addRange := (addRange getItemId).
Abbreviation removeAt := (removeAt getItemId).
Abbreviation move := (move getItemId).
Abbreviation call := (call getItemId).
Abbreviation calls := (calls getItemId).

Lemma move_consistent (s : DataSource T) (oldIndex newIndex : Z) o :
  consistent s -> move s oldIndex newIndex = Some o -> consistent (final_state o).
Proof.
  intros (Hnd & Hreg & Honly & Hown).
  unfold DataSource.move, splice_removed, splice_delete.
  set (n := splice_start oldIndex (items s)).
  destruct (items s !! n) as [item|] eqn:Hn; [|done]. intros [= <-]. simpl.
  assert (splice_insert newIndex item (delete n (items s)) ≡ₚ items s) as Hperm.
  { rewrite splice_insert_perm. symmetry. by apply delete_Permutation. }
  assert (forall x, In x (splice_insert newIndex item (delete n (items s)))
                    <-> In x (items s)) as Hsame.
  { intros x. rewrite <- !list_elem_of_In. by rewrite Hperm. }
  split_and!; simpl.
  - by rewrite Hperm.
  - intros x Hx. by apply Hreg, Hsame.
  - intros k x Hk. destruct (Honly k x Hk) as [Hin Hid]. split; [|done]. by apply Hsame.
  - intros x Hx. by apply Hown, Hsame.
Qed.

Lemma call_consistent (s : DataSource T) (c : Call T) o :
  consistent s -> call s c = Some o -> consistent (final_state o).
Proof.
  intros Hc. destruct c as [item|new|index|oldIndex newIndex| |]; simpl.
  - intros [= <-]. destruct (add s item) as [s' evs|s' evs] eqn:E; simpl.
    + by apply (add_consistent getItemId s s' item evs).
    + unfold DataSource.add in E. by destruct (idExists s (getItemId item)); simplify_eq.
  - intros [= <-]. by apply addRange_consistent.
  - intros [= <-]. by apply removeAt_consistent.
  - by apply move_consistent.
  - intros [= <-]. done.
  - intros [= <-]. apply consistent_empty.
Qed.

(** X1: whatever a client calls on a collection, and whether or not a call
    throws, every item of the sequence stays registered under its
    identifier and no two items share one; nothing but the items of the
    sequence is registered, and none of them has an identifier that names
    an inherited property. *)
Theorem calls_keep_consistent (init : list T) (cs : list (Call T)) (s : DataSource T) :
  calls (final_state (new getItemId init)) cs = Some s -> consistent s.
Proof.
  assert (consistent (final_state (new getItemId init))) as Hinit.
  { unfold new. generalize (consistent_empty getItemId).
    generalize (@empty T). induction init as [|item init IH]; intros s0 Hs0; simpl; [done|].
    destruct (add s0 item) as [s1 evs|s1 evs] eqn:E.
    - pose proof (add_consistent getItemId s0 s1 item evs Hs0 E) as Hs1.
      specialize (IH s1 Hs1). by destruct (add_all getItemId s1 init).
    - simpl. unfold DataSource.add in E.
      by destruct (idExists s0 (getItemId item)); simplify_eq. }
  revert Hinit. generalize (final_state (new getItemId init)).
  induction cs as [|c cs IH]; intros s0 Hs0 Hrun; simpl in Hrun.
  - by simplify_eq.
  - destruct (call s0 c) as [o|] eqn:E; [|done]. simpl in Hrun.
    apply (IH (final_state o)); [|done]. by apply (call_consistent s0 c).
Qed.

(** X2: [add] of an item whose identifier is free (the test of [add] is
    false for it: nothing is stored under it and it names no inherited
    property) returns; the item is then the last of the sequence,
    [getById] finds it under its identifier and [get] at the index carried
    by the [Insert] record; every other identifier and every other index
    reads as before. *)
Theorem add_then_lookup (s : DataSource T) (item : T) :
  idExists s (getItemId item) = false ->
  exists s',
    add s item = Returned s' [Insert item (getItemId item) (Z.of_nat (length (items s))) true] /\
    items s' = items s ++ [item] /\
    getById s' (getItemId item) = Some (Own item) /\
    get s' (Z.of_nat (length (items s))) = Some item /\
    (forall k, k <> getItemId item -> getById s' k = getById s k) /\
    (forall i, i < Z.of_nat (length (items s)) -> get s' i = get s i).
Proof.
  intros Hfree. exists (appended getItemId s item). unfold DataSource.add.
  rewrite Hfree. simpl. split_and!.
  - rewrite length_app. simpl. do 3 f_equal. lia.
  - done.
  - apply getById_own. simpl. by rewrite lookup_insert_eq.
  - unfold get. simpl. apply js_get_app_last.
  - intros k Hk. unfold getById. simpl. by rewrite lookup_insert_ne.
  - intros i Hi. unfold get. simpl. by apply js_get_app_l.
Qed.

(** X3: [removeAt] at the index of an item takes exactly that item out,
    raises one [Remove] naming it and its index, and forgets its
    identifier, all other items staying registered; the item can then be
    added again, and lands at the end. *)
Theorem removeAt_then_add_again (s : DataSource T) (index : Z) (x : T) :
  consistent s -> get s index = Some x ->
  exists s',
    removeAt s index = Returned s' [Remove x (getItemId x) index] /\
    items s' = delete (Z.to_nat index) (items s) /\
    getById s' (getItemId x) = None /\
    (forall y, In y (items s') -> getById s' (getItemId y) = Some (Own y)) /\
    exists s'',
      add s' x = Returned s'' [Insert x (getItemId x) (Z.of_nat (length (items s'))) true] /\
      items s'' = items s' ++ [x].
Proof.
  intros Hc Hget. unfold get in Hget.
  pose proof (removeAt_consistent getItemId s index Hc) as Hc'.
  pose proof Hget as [Hi Hl]%js_get_Some. pose proof (lookup_lt_Some _ _ _ Hl) as Hlt.
  assert (inheritedProperty (getItemId x) = false) as Hplain.
  { destruct Hc as (_ & _ & _ & Hown). apply Hown, list_elem_of_In.
    by eapply list_elem_of_lookup_2. }
  unfold DataSource.removeAt, splice_removed in *.
  rewrite (splice_delete_get index x (items s) Hget) in *.
  rewrite splice_start_inrange in * by lia. rewrite Hl in *. simpl in Hc'.
  eexists. split; [reflexivity|]. simpl. split_and!.
  - done.
  - apply getById_free; [|done]. simpl. by rewrite lookup_delete_eq.
  - intros y Hy. apply getById_own. by apply Hc'.
  - match goal with |- context [add ?s' x] => set (s1 := s') end.
    assert (idExists s1 (getItemId x) = false) as Hfree.
    { apply idExists_false. split; [|done]. simpl. by rewrite lookup_delete_eq. }
    exists (appended getItemId s1 x). unfold DataSource.add. rewrite Hfree. simpl.
    split; [|done]. rewrite length_app. simpl. do 3 f_equal. lia.
Qed.

(** X4: [removeAt] at or beyond the length throws and leaves the collection
    as it was; a negative index counts from the end of the sequence (and
    from its start once it runs past it), so that on a non-empty
    collection an item is taken out and the [Remove] record carries the
    negative index as given. *)
Theorem removeAt_outside_bounds (s : DataSource T) (index : Z) :
  (Z.of_nat (length (items s)) <= index -> removeAt s index = Threw s []) /\
  (index < 0 -> items s <> [] ->
     exists x,
       items s !! Z.to_nat (Z.max (Z.of_nat (length (items s)) + index) 0) = Some x /\
       raised (removeAt s index) = [Remove x (getItemId x) index] /\
       items (final_state (removeAt s index))
       = delete (Z.to_nat (Z.max (Z.of_nat (length (items s)) + index) 0)) (items s)).
Proof.
  unfold DataSource.removeAt, splice_removed, splice_delete, splice_start. split.
  - intros Hge. destruct (Z.ltb_spec index 0); [lia|].
    rewrite lookup_ge_None_2; [done|lia].
  - intros Hneg Hne. destruct (Z.ltb_spec index 0); [|lia].
    set (n := Z.to_nat (Z.max (Z.of_nat (length (items s)) + index) 0)).
    assert (n < length (items s))%nat as Hn.
    { destruct (items s); [done|]. simpl in *. lia. }
    destruct (lookup_lt_is_Some_2 _ _ Hn) as [x Hx]. exists x. rewrite Hx. by simpl.
Qed.

(** X5: [move] between two indices of the sequence returns with the same
    items in a new order, the moved item at the new index and the
    identifier map untouched, and raises one [Move] that names the item
    and both indices. *)
Theorem move_within_bounds (s : DataSource T) (oldIndex newIndex : Z) (x : T) :
  get s oldIndex = Some x -> 0 <= newIndex < Z.of_nat (length (items s)) ->
  exists s',
    move s oldIndex newIndex = Some (Returned s' [Move x (getItemId x) oldIndex newIndex]) /\
    get s' newIndex = Some x /\
    items s' ≡ₚ items s /\
    itemById s' = itemById s.
Proof.
  intros Hget Hnew. unfold get in Hget.
  pose proof Hget as [Hi Hl]%js_get_Some. pose proof (lookup_lt_Some _ _ _ Hl) as Hlt.
  unfold DataSource.move, splice_removed.
  rewrite splice_start_inrange by lia. rewrite Hl.
  eexists. split; [reflexivity|]. unfold get. simpl. split_and!.
  - apply js_get_splice_insert. rewrite (splice_delete_length _ x) by done. lia.
  - rewrite splice_insert_perm, (splice_delete_get _ x) by done.
    symmetry. by apply delete_Permutation.
  - done.
Qed.

(** X6: the record raised by a call that changes one item ([add],
    [removeAt] at an index from 0 on, [move] from an index from 0 on to an
    index of the sequence)
    tells the change of the sequence exactly: applied to the items before
    the call it gives the items after it, also when the call throws. *)
Theorem single_item_calls_replay (s : DataSource T) (c : Call T) o :
  call s c = Some o ->
  match c with
  | CallAdd _ => True
  | CallRemoveAt index => 0 <= index
  | CallMove oldIndex newIndex =>
      0 <= oldIndex /\ 0 <= newIndex < Z.of_nat (length (items s))
  | _ => False
  end ->
  replay (items s) (raised o) = Some (items (final_state o)).
Proof.
  destruct c as [item|new|index|oldIndex newIndex| |]; simpl; intros Hcall Hok; try done.
  - injection Hcall as <-. unfold DataSource.add.
    destruct (idExists s (getItemId item)); simpl; [done|].
    rewrite insertAt_inrange by (rewrite length_app; simpl; lia).
    simpl. f_equal. unfold splice_insert. rewrite splice_start_inrange.
    2:{ rewrite length_app. simpl. lia. }
    replace (Z.to_nat (Z.of_nat (length (items s ++ [item])) - 1)) with (length (items s)).
    2:{ rewrite length_app. simpl. lia. }
    by rewrite take_ge, drop_ge by lia.
  - injection Hcall as <-. unfold DataSource.removeAt, splice_removed.
    destruct (Z.lt_ge_cases index (Z.of_nat (length (items s)))) as [Hlt|Hge].
    + rewrite splice_start_inrange by lia.
      destruct (lookup_lt_is_Some_2 (items s) (Z.to_nat index)) as [x Hx]; [lia|].
      rewrite Hx. simpl.
      assert (js_get (items s) index = Some x) as Hget by (apply js_get_Some; split; [lia|done]).
      by rewrite (removeAtRow_get _ _ _ Hget).
    + unfold splice_start. destruct (Z.ltb_spec index 0); [lia|].
      rewrite lookup_ge_None_2; [done|lia].
  - unfold DataSource.move, splice_removed in Hcall.
    destruct (items s !! splice_start oldIndex (items s)) as [x|] eqn:Hx; [|done].
    injection Hcall as <-. simpl. destruct Hok as [Hold Hnew].
    pose proof (lookup_lt_Some _ _ _ Hx) as Hlt.
    assert (oldIndex < Z.of_nat (length (items s))) as Hold'.
    { unfold splice_start in Hlt. destruct (Z.ltb_spec oldIndex 0); lia. }
    rewrite splice_start_inrange in Hx by lia.
    assert (js_get (items s) oldIndex = Some x) as Hget by (apply js_get_Some; split; [lia|done]).
    rewrite (removeAtRow_get _ _ _ Hget). simpl.
    rewrite insertAt_inrange; [done|].
    rewrite (splice_delete_length _ x) by done. lia.
Qed.
End DataSourceMore.

Lemma calls_keep_consistent_witness :
  exists s,
    DataSource.calls id
      (final_state (DataSource.new id ["a"%string; "b"%string]))
      [DataSource.CallAdd "c"%string; DataSource.CallRemoveAt 0;
       DataSource.CallAdd "b"%string; DataSource.CallMove 0 1] = Some s /\
    DataSource.consistent id s.
Proof.
  eexists. split; [reflexivity|].
  apply (calls_keep_consistent id ["a"%string; "b"%string]
           [DataSource.CallAdd "c"%string; DataSource.CallRemoveAt 0;
            DataSource.CallAdd "b"%string; DataSource.CallMove 0 1] _ eq_refl).
Defined.

Lemma add_then_lookup_witness :
  DataSource.idExists ds_a (id "b"%string) = false /\
  exists s',
    DataSource.add id ds_a "b"%string = Returned s' [Insert "b"%string "b"%string 1 true] /\
    DataSource.getById s' "b"%string = Some (Own "b"%string).
Proof.
  split; [reflexivity|].
  destruct (add_then_lookup id ds_a "b"%string eq_refl) as (s' & Hadd & _ & Hby & _).
  exists s'. split; [exact Hadd|exact Hby].
Defined.

Lemma removeAt_then_add_again_witness :
  DataSource.consistent id ds_a /\ DataSource.get ds_a 0 = Some "a"%string /\
  exists s',
    DataSource.removeAt id ds_a 0 = Returned s' [Remove "a"%string "a"%string 0] /\
    DataSource.getById s' "a"%string = None.
Proof.
  split; [exact ds_a_consistent|]. split; [reflexivity|].
  destruct (removeAt_then_add_again id ds_a 0 "a"%string ds_a_consistent eq_refl)
    as (s' & Hrem & _ & Hby & _).
  exists s'. split; [exact Hrem|exact Hby].
Defined.

Lemma move_within_bounds_witness :
  DataSource.get ds_abc 0 = Some "a"%string /\
  0 <= 2 < Z.of_nat (length (DataSource.items ds_abc)) /\
  exists s',
    DataSource.move id ds_abc 0 2 = Some (Returned s' [Move "a"%string "a"%string 0 2]) /\
    DataSource.get s' 2 = Some "a"%string.
Proof.
  assert (0 <= 2 < Z.of_nat (length (DataSource.items ds_abc))) as Hnew
    by (vm_compute; split; [discriminate|reflexivity]).
  split; [reflexivity|]. split; [exact Hnew|].
  destruct (move_within_bounds id ds_abc 0 2 "a"%string eq_refl Hnew)
    as (s' & Hmove & Hget & _).
  exists s'. split; [exact Hmove|exact Hget].
Defined.

Lemma single_item_calls_replay_witness :
  0 <= 0 /\
  replay (DataSource.items ds_abc) (raised (DataSource.removeAt id ds_abc 0))
  = Some (DataSource.items (final_state (DataSource.removeAt id ds_abc 0))).
Proof.
  split; [lia|].
  apply (single_item_calls_replay id ds_abc (DataSource.CallRemoveAt 0) _ eq_refl).
  simpl. lia.
Defined.

Section DataSourceBatch.
Context {T : Type} `{EqDecision T} (getItemId : T -> string).
Import DataSource.
Abbreviation appended := (appended getItemId).
Abbreviation addRange := (addRange getItemId).
Abbreviation addRange_loop := (addRange_loop getItemId).

Lemma addRange_loop_fresh (new : list T) : forall s : DataSource T,
  (forall item, In item new -> idExists s (getItemId item) = false) ->
  NoDup (map getItemId new) ->
  exists s',
    addRange_loop s new = inl s' /\
    items s' = items s ++ new /\
    (forall x, In x new -> getById s' (getItemId x) = Some (Own x)) /\
    (forall k, ~ In k (map getItemId new) -> getById s' k = getById s k).
Proof.
  induction new as [|item new IH]; intros s Hfresh Hnd; simpl.
  - exists s. split_and!; [done|by rewrite app_nil_r|tauto|done].
  - rewrite (Hfresh item) by (by left). simpl in Hnd.
    apply NoDup_cons in Hnd as [Hitem Hnd].
    destruct (IH (appended s item)) as (s' & Hloop & Hitems & Hnew & Hold); [|done|].
    { intros y Hy. destruct (proj1 (idExists_false s _) (Hfresh y (or_intror Hy))) as [Hnone Hplain].
      apply idExists_false. split; [|done]. simpl. rewrite lookup_insert_ne; [done|].
      intros Heq. apply Hitem. rewrite Heq. apply list_elem_of_In. by apply in_map. }
    exists s'. split_and!; [done| | |].
    + rewrite Hitems. simpl. by rewrite <- app_assoc.
    + intros x [->|Hx]; [|by apply Hnew].
      rewrite Hold by (by rewrite <- list_elem_of_In).
      apply getById_own. simpl. by rewrite lookup_insert_eq.
    + intros k Hk. rewrite Hold by tauto.
      unfold getById. simpl. rewrite lookup_insert_ne; [done|]. intros Heq. apply Hk. by left.
Qed.

(** X7: a batch of items with identifiers that are distinct and free (the
    test of [addRange] is false for each: nothing is stored under it and
    it names no inherited property) is taken whole. [addRange] returns,
    the items are appended in the order of the batch, each can be looked
    up by its identifier, the other identifiers look up what they did, and
    the only records raised are one [Reset] and one [Scroll], whatever the
    size of the batch. *)
Theorem addRange_appends_batch (s : DataSource T) (new : list T) :
  (forall item, In item new -> idExists s (getItemId item) = false) ->
  NoDup (map getItemId new) ->
  exists s',
    addRange s new = Returned s' [Reset; Scroll] /\
    items s' = items s ++ new /\
    (forall x, In x new -> getById s' (getItemId x) = Some (Own x)) /\
    (forall k, ~ In k (map getItemId new) -> getById s' k = getById s k).
Proof.
  intros Hfresh Hnd.
  destruct (addRange_loop_fresh new s Hfresh Hnd) as (s' & Hloop & Hrest).
  exists s'. split; [|done]. unfold DataSource.addRange. by rewrite Hloop.
Qed.
End DataSourceBatch.

Lemma addRange_appends_batch_witness :
  NoDup (map id ["b"%string; "c"%string]) /\
  exists s',
    DataSource.addRange id ds_a ["b"%string; "c"%string] = Returned s' [Reset; Scroll] /\
    DataSource.items s' = ["a"%string; "b"%string; "c"%string].
Proof.
  assert (NoDup (map id ["b"%string; "c"%string])) as Hnd.
  { simpl. apply NoDup_cons. split; [not_in_list|apply NoDup_singleton]. }
  split; [exact Hnd|].
  destruct (addRange_appends_batch id ds_a ["b"%string; "c"%string]) as (s' & Hadd & Hitems & _).
  - intros item [<-|[<-|[]]]; reflexivity.
  - exact Hnd.
  - exists s'. split; [exact Hadd|exact Hitems].
Defined.

(** ** The change-event bus, continued *)

Section EventMore.
Context {CB : Type} `{EqDecision CB}.
Import Event.

Lemma unsubscribe_absent (cb : CB) (e : Event CB) :
  cb ∉ callbacks e -> unsubscribe cb e = e.
Proof.
  intros Hn. unfold unsubscribe. by rewrite (indexOf_absent _ _ Hn).
Qed.

Lemma unsubscribe_present (cb : CB) (e : Event CB) :
  cb ∈ callbacks e ->
  callbacks e ≡ₚ cb :: callbacks (unsubscribe cb e) /\
  callbacks (unsubscribe cb e)
  = delete (Z.to_nat (indexOf cb (callbacks e))) (callbacks e).
Proof.
  intros Hin. pose proof (indexOf_present _ _ Hin) as H0.
  pose proof (indexOf_lookup _ _ H0) as Hl.
  unfold unsubscribe. destruct (Z.eqb_spec (indexOf cb (callbacks e)) (-1)); [lia|].
  simpl. split.
  - by apply splice_delete_indexOf_perm.
  - apply (splice_delete_get _ cb). by apply js_get_Some.
Qed.

(** X8: cancelling a subscription takes exactly one entry for the callback
    off the bus, the earliest one, and nothing when the callback is not
    subscribed: cancelling twice is harmless, and a callback subscribed
    twice and cancelled once is still subscribed once. *)
Theorem unsubscribe_takes_one (cb : CB) (e : Event CB) :
  (cb ∉ callbacks e -> unsubscribe cb e = e) /\
  (cb ∈ callbacks e ->
     getSubscriberCount (unsubscribe cb e) = getSubscriberCount e - 1 /\
     callbacks e ≡ₚ cb :: callbacks (unsubscribe cb e) /\
     callbacks (unsubscribe cb e)
     = delete (Z.to_nat (indexOf cb (callbacks e))) (callbacks e)) /\
  (cb ∉ callbacks e ->
     unsubscribe cb (unsubscribe cb (subscribe cb e)) = e /\
     unsubscribe cb (subscribe cb (subscribe cb e)) = subscribe cb e).
Proof.
  split_and!.
  - apply unsubscribe_absent.
  - intros Hin. destruct (unsubscribe_present cb e Hin) as [Hperm Hdel].
    split_and!; [|done..].
    unfold getSubscriberCount. apply Permutation_length in Hperm. simpl in Hperm. lia.
  - intros Hn. split.
    + rewrite unsubscribe_subscribe by done. by apply unsubscribe_absent.
    + unfold unsubscribe, subscribe. simpl.
      assert (indexOf cb ((callbacks e ++ [cb]) ++ [cb]) = Z.of_nat (length (callbacks e))) as ->.
      { clear -Hn. induction (callbacks e) as [|y l IH]; simpl.
        - rewrite decide_True; done.
        - apply not_elem_of_cons in Hn as [Hne Hn]. rewrite decide_False by done.
          rewrite (IH Hn). destruct (Z.ltb_spec (Z.of_nat (length l)) 0); lia. }
      destruct (Z.eqb_spec (Z.of_nat (length (callbacks e))) (-1)); [lia|].
      f_equal. unfold splice_delete. rewrite splice_start_inrange.
      2:{ rewrite !length_app. simpl. lia. }
      rewrite Nat2Z.id, <- app_assoc. simpl.
      clear. induction (callbacks e) as [|y l IH]; simpl; [done|]. by rewrite IH.
Qed.

Section DispatchFacts.
Context {W : Type} (invoke : CB -> Event CB * W -> Event CB * W) (act : CB -> W -> W).

Lemma raise_loop_S (fuel i : nat) (st : Event CB * W) (cb : CB) :
  callbacks st.1 !! i = Some cb ->
  raise_loop invoke (S fuel) i st = raise_loop invoke fuel (S i) (invoke cb st).
Proof. intros Hi. simpl. by rewrite Hi. Qed.

(** Dispatch from position [i] on, when none of the callbacks still to run
    touches the bus. *)
Lemma raise_loop_quiet (e : Event CB) : forall (fuel i : nat) (w : W),
  (forall cb, cb ∈ drop i (callbacks e) -> forall w', invoke cb (e, w') = (e, act cb w')) ->
  (length (callbacks e) - i <= fuel)%nat ->
  raise_loop invoke fuel i (e, w)
  = Some (e, fold_left (fun w cb => act cb w) (drop i (callbacks e)) w).
Proof.
  induction fuel as [|fuel IH]; intros i w Hquiet Hfuel.
  - simpl. rewrite lookup_ge_None_2 by lia. by rewrite drop_ge by lia.
  - simpl. destruct (callbacks e !! i) as [cb|] eqn:Hi.
    + rewrite (drop_S _ _ _ Hi) in Hquiet |- *. simpl.
      rewrite Hquiet by left. apply IH; [|lia].
      intros cb' Hcb'. apply Hquiet. by right.
    + apply lookup_ge_None in Hi. by rewrite drop_ge by lia.
Qed.

(** X9: when no subscriber touches the bus, [raise] runs every subscriber
    once, in subscription order, and leaves the bus as it was. *)
Theorem raise_runs_in_subscription_order (e : Event CB) (w : W) :
  (forall cb, cb ∈ callbacks e -> forall w', invoke cb (e, w') = (e, act cb w')) ->
  raise invoke (length (callbacks e)) (e, w)
  = Some (e, fold_left (fun w cb => act cb w) (callbacks e) w).
Proof.
  intros Hquiet. unfold raise. rewrite (raise_loop_quiet e); [done| |lia].
  by rewrite drop_0.
Qed.

(** X10: a subscriber that cancels its own subscription while it runs makes
    [raise] skip the subscriber that follows it: the list shrinks under
    the loop's index. Every other subscriber still runs once. *)
Theorem raise_skips_after_self_unsubscribe
    (l1 l2 : list CB) (a b : CB) (w : W) :
  NoDup (l1 ++ a :: b :: l2) ->
  (forall e' w', invoke a (e', w') = (unsubscribe a e', act a w')) ->
  (forall cb e' w', cb <> a -> invoke cb (e', w') = (e', act cb w')) ->
  raise invoke (length (l1 ++ a :: b :: l2)) ({| callbacks := l1 ++ a :: b :: l2 |}, w)
  = Some ({| callbacks := l1 ++ b :: l2 |},
          fold_left (fun w cb => act cb w) (l1 ++ a :: l2) w).
Proof.
  intros Hnd Ha Hothers.
  apply NoDup_app in Hnd as (Hnd1 & Hdisj & Hnd2).
  apply NoDup_cons in Hnd2 as [Hab Hnd2].
  assert (a ∉ l1) as Ha1.
  { intros Hin. apply (Hdisj a Hin). by left. }
  assert (a ∉ b :: l2) as Ha2 by done.
  (* the callbacks before [a] *)
  assert (forall (fuel : nat) (k : list CB) (pre : list CB) w0,
            a ∉ k ->
            raise_loop invoke (length k + fuel) (length pre)
              ({| callbacks := pre ++ k ++ a :: b :: l2 |}, w0)
            = raise_loop invoke fuel (length (pre ++ k))
                ({| callbacks := pre ++ k ++ a :: b :: l2 |},
                 fold_left (fun w cb => act cb w) k w0)) as Hpre.
  { intros fuel k. induction k as [|c k IH]; intros pre w0 Hk; simpl.
    - by rewrite app_nil_r.
    - apply not_elem_of_cons in Hk as [Hne Hk].
      rewrite lookup_app_r by lia. rewrite Nat.sub_diag. simpl.
      rewrite Hothers by done.
      specialize (IH (pre ++ [c]) (act c w0) Hk).
      rewrite <- !app_assoc in IH. simpl in IH.
      rewrite length_app in IH. simpl in IH.
      replace (length pre + 1)%nat with (S (length pre)) in IH by lia.
      by rewrite IH. }
  unfold raise.
  replace (length (l1 ++ a :: b :: l2)) with (length l1 + S (S (length l2)))%nat
    by (rewrite length_app; simpl; lia).
  specialize (Hpre (S (S (length l2))) l1 [] w Ha1). cbn [app length] in Hpre.
  rewrite Hpre.
  (* [a] itself *)
  rewrite (raise_loop_S _ _ _ a) by (simpl; by rewrite list_lookup_middle).
  rewrite Ha.
  assert (unsubscribe a {| callbacks := l1 ++ a :: b :: l2 |}
          = {| callbacks := l1 ++ b :: l2 |}) as ->.
  { destruct (unsubscribe_present a {| callbacks := l1 ++ a :: b :: l2 |}) as [_ Hdel].
    { simpl. apply elem_of_app. right. by left. }
    simpl in Hdel.
    assert (indexOf a (l1 ++ a :: b :: l2) = Z.of_nat (length l1)) as Hidx.
    { clear -Ha1. induction l1 as [|y l IH]; simpl.
      - by rewrite decide_True.
      - apply not_elem_of_cons in Ha1 as [Hne Hn]. rewrite decide_False by done.
        rewrite (IH Hn). destruct (Z.ltb_spec (Z.of_nat (length l)) 0); lia. }
    rewrite Hidx, Nat2Z.id in Hdel.
    destruct (unsubscribe a _) as [cbs]. simpl in Hdel. subst cbs. f_equal.
    clear. induction l1 as [|y l IH]; simpl; [done|]. by rewrite IH. }
  (* the callbacks after [b] *)
  rewrite (raise_loop_quiet {| callbacks := l1 ++ b :: l2 |}).
  - simpl. f_equal. f_equal. rewrite fold_left_app. simpl.
    replace (S (length l1)) with (length (l1 ++ [b])) by (rewrite length_app; simpl; lia).
    rewrite (cons_middle b l1 l2), app_assoc. by rewrite drop_app_length.
  - simpl. intros cb Hcb w'. apply Hothers. intros ->.
    replace (S (length l1)) with (length (l1 ++ [b])) in Hcb by (rewrite length_app; simpl; lia).
    rewrite (cons_middle b l1 l2), app_assoc, drop_app_length in Hcb.
    apply Ha2. by right.
  - simpl. rewrite length_app. simpl. lia.
Qed.
End DispatchFacts.
End EventMore.

Lemma raise_runs_in_subscription_order_witness :
  Event.raise log_invoke 2 ({| Event.callbacks := [1%nat; 2%nat] |}, [])
  = Some ({| Event.callbacks := [1%nat; 2%nat] |}, [1%nat; 2%nat]).
Proof.
  apply (raise_runs_in_subscription_order log_invoke log_act
           {| Event.callbacks := [1%nat; 2%nat] |} []).
  intros cb _ w'. reflexivity.
Defined.

Lemma raise_skips_after_self_unsubscribe_witness :
  NoDup [1%nat; 2%nat; 3%nat] /\
  Event.raise once_invoke 3 ({| Event.callbacks := [1%nat; 2%nat; 3%nat] |}, [])
  = Some ({| Event.callbacks := [2%nat; 3%nat] |}, [1%nat; 3%nat]).
Proof.
  assert (NoDup [1%nat; 2%nat; 3%nat]) as Hnd.
  { repeat (apply NoDup_cons; split; [not_in_list|]). apply NoDup_nil_2. }
  split; [exact Hnd|].
  apply (raise_skips_after_self_unsubscribe once_invoke log_act [] [3%nat] 1%nat 2%nat []).
  - exact Hnd.
  - intros e' w'. reflexivity.
  - intros cb e' w' Hne. unfold once_invoke.
    destruct (Nat.eqb_spec cb 1) as [->|_]; [done|reflexivity].
Defined.

(** ** Sort values and the sort transform, continued *)

(** X11: [compare] orders sort values consistently in either direction:
    it answers 0 exactly on equal values, swapping the arguments swaps the
    sign, it is transitive, [undefined] sorts after every value whatever
    the direction, and on two values descending is the opposite of
    ascending. *)
Theorem compare_orders_values (dir : SortDirection) :
  (forall a b, compare a b dir = 0 <-> a = b) /\
  (forall a b, compare a b dir < 0 <-> 0 < compare b a dir) /\
  (forall a b c, compare a b dir <= 0 -> compare b c dir <= 0 -> compare a c dir <= 0) /\
  (forall x, compare None (Some x) dir = 1 /\ compare (Some x) None dir = -1) /\
  (forall x y, compare (Some x) (Some y) Descending = - compare (Some x) (Some y) Ascending).
Proof.
  pose proof (compare_Comparator (fun a : option Z => a) dir) as [Hanti Htrans].
  split_and!.
  - intros a b. split.
    + destruct a as [x|], b as [y|], dir; compare_cases.
    + intros ->. unfold compare. by rewrite decide_True.
  - exact Hanti.
  - exact Htrans.
  - intros x. split; unfold compare; by rewrite decide_False.
  - intros x y. compare_cases.
Qed.

Section SortViewMore.
Context {T V Column : Type} `{EqDecision T} `{EqDecision Column}
        (getSortValue : Column -> V -> option Z)
        (getDefaultSortDirection : Column -> SortDirection).
Import SortView.
Abbreviation comparator := (comparator getSortValue).
Abbreviation onSourceChanged := (onSourceChanged getSortValue).

Lemma splice_delete_absent (item : T) (l : list T) :
  item ∉ l -> splice_delete (indexOf item l) l = take (length l - 1) l.
Proof.
  intros Hn. rewrite (indexOf_absent _ _ Hn). unfold splice_delete, splice_start.
  destruct (Z.ltb_spec (-1) 0); [|lia].
  replace (Z.to_nat (Z.max (Z.of_nat (length l) + -1) 0)) with (length l - 1)%nat by lia.
  rewrite delete_take_drop. destruct l as [|x l] using rev_ind; [done|].
  rewrite length_app. simpl.
  replace (length l + 1 - 1)%nat with (length l) by lia.
  rewrite drop_ge by (rewrite length_app; simpl; lia). by rewrite app_nil_r.
Qed.

Lemma sorted_take (cmp : T -> T -> Z) (n : nat) (l : list T) :
  sorted cmp l -> sorted cmp (take n l).
Proof.
  unfold sorted. intros Hs. rewrite <- (take_drop n l) in Hs.
  by apply StronglySorted_app_1_l in Hs.
Qed.

(** Inserting the target at an insertion point, without taking anything
    out, keeps a sorted array sorted. *)
Lemma insertion_point_insert_sorted (cmp : T -> T -> Z) (l : list T) (t : T) (i : Z) :
  sorted cmp l -> 0 <= i <= Z.of_nat (length l) ->
  insertion_point l t cmp i -> sorted cmp (splice_insert i t l).
Proof.
  intros Hs Hi (Hbelow & Habove & _). rewrite splice_insert_inrange by done.
  apply sorted_splice_insert; [done| |].
  - intros j x Hj Hlt. apply (Hbelow j x Hj). lia.
  - intros j x Hj Hle. apply (Habove j x Hj). lia.
Qed.

(** X12: with an active sort column, every upstream record other than an
    [Update] leaves the view sorted if it was: an [Insert] lands at the
    index the search gives, a [Remove] only takes an item out, a [Reset]
    sorts afresh, and the column and direction stay as they were. *)
Theorem sort_view_stays_sorted (σ : T -> V) (sourceItems : list T)
    (sv : SortView T Column) (c : Column) (event : CollectionChange T) :
  sortColumn sv = Some c ->
  sorted (comparator σ c (sortDirection sv)) (items sv) ->
  (forall item itemId index, event <> Update item itemId index) ->
  exists sv' evs,
    onSourceChanged σ sourceItems sv event = Some (sv', evs) /\
    sortColumn sv' = Some c /\ sortDirection sv' = sortDirection sv /\
    sorted (comparator σ c (sortDirection sv)) (items sv').
Proof.
  intros Hcol Hsorted Hnu.
  pose proof (comparator_Comparator getSortValue σ c (sortDirection sv)) as Hcmp.
  destruct event as [item id idx nw|item id idx|item id idx|item id o n| |oi oid oidx item id idx|];
    unfold SortView.onSourceChanged; simpl.
  - rewrite Hcol.
    destruct (findInsertionIndex_insertion_point _ Hcmp (items sv) item Hsorted)
      as (i & Hi & Hpoint).
    destruct (findInsertionIndex_total (comparator σ c (sortDirection sv)) (items sv) item)
      as (i' & Hi' & Hbounds).
    assert (i' = i) as -> by congruence.
    rewrite Hi. simpl. eexists _, _. split; [reflexivity|]. simpl.
    split_and!; [done..|]. by apply insertion_point_insert_sorted.
  - exfalso. by eapply Hnu.
  - eexists _, _. split; [reflexivity|]. simpl. split_and!; [done..|].
    destruct (decide (item ∈ items sv)) as [Hin|Hnin].
    + pose proof (indexOf_present _ _ Hin) as H0.
      pose proof (indexOf_lookup _ _ H0) as Hl.
      rewrite (splice_delete_get _ item) by (by apply js_get_Some).
      by apply sorted_delete.
    + rewrite splice_delete_absent by done. by apply sorted_take.
  - eexists _, _. split; [reflexivity|]. done.
  - unfold SortView.reset. simpl. rewrite Hcol. eexists _, _. split; [reflexivity|]. simpl.
    split_and!; [done..|]. by apply array_sort_sorted.
  - eexists _, _. split; [reflexivity|]. done.
  - eexists _, _. split; [reflexivity|]. done.
Qed.

(** X13: an upstream [Insert] puts the item into the view once, at the index
    that the raised [Insert] carries, and keeps the newly-added flag; with
    no sort column the item goes to the end. *)
Theorem sort_insert_lands_at_raised_index (σ : T -> V) (sourceItems : list T)
    (sv : SortView T Column) (item : T) (itemId : string) (index : Z) (nw : bool) :
  exists i,
    onSourceChanged σ sourceItems sv (Insert item itemId index nw)
    = Some (withItems sv (splice_insert i item (items sv)), [Insert item itemId i nw]) /\
    0 <= i <= Z.of_nat (length (items sv)) /\
    js_get (splice_insert i item (items sv)) i = Some item /\
    splice_insert i item (items sv) ≡ₚ item :: items sv /\
    (sortColumn sv = None -> i = Z.of_nat (length (items sv))).
Proof.
  unfold SortView.onSourceChanged. destruct (sortColumn sv) as [c|] eqn:Hcol.
  - destruct (findInsertionIndex_total (comparator σ c (sortDirection sv)) (items sv) item)
      as (i & Hi & Hbounds).
    exists i. rewrite Hi. simpl. split_and!; [done|lia|lia| | |done].
    + by apply js_get_splice_insert.
    + apply splice_insert_perm.
  - exists (Z.of_nat (length (items sv))). simpl. split_and!; [done|lia|lia| | |done].
    + apply js_get_splice_insert. lia.
    + apply splice_insert_perm.
Qed.

(** X14: an upstream [Remove] of an item the view holds takes it out and
    raises a [Remove] with the index it had. For an item the view does not
    hold, [indexOf] answers -1 and [splice(-1, 1)] takes out the last item
    of the view instead, the record carrying index -1. *)
Theorem sort_remove_by_index_of (σ : T -> V) (sourceItems : list T)
    (sv : SortView T Column) (item : T) (itemId : string) (index : Z) :
  (item ∈ items sv ->
     exists k : nat,
       items sv !! k = Some item /\
       onSourceChanged σ sourceItems sv (Remove item itemId index)
       = Some (withItems sv (delete k (items sv)), [Remove item itemId (Z.of_nat k)])) /\
  (item ∉ items sv ->
     onSourceChanged σ sourceItems sv (Remove item itemId index)
     = Some (withItems sv (take (length (items sv) - 1) (items sv)),
             [Remove item itemId (-1)])).
Proof.
  unfold SortView.onSourceChanged. split.
  - intros Hin. pose proof (indexOf_present _ _ Hin) as H0.
    pose proof (indexOf_lookup _ _ H0) as Hl.
    exists (Z.to_nat (indexOf item (items sv))). split; [done|].
    rewrite (splice_delete_get _ item) by (by apply js_get_Some).
    rewrite Z2Nat.id by done. reflexivity.
  - intros Hnin. rewrite splice_delete_absent by done.
    by rewrite (indexOf_absent _ _ Hnin).
Qed.

(** X15: for an item the view holds, an upstream [Update] never loses or
    repeats an item: the view keeps the same items, and the single record
    it raises ([Update] or [Move]) applied to the items before gives the
    items after. *)
Theorem sort_update_keeps_items (σ : T -> V) (sourceItems : list T)
    (sv : SortView T Column) (item : T) (itemId : string) (index : Z) :
  item ∈ items sv ->
  exists sv' ev,
    onSourceChanged σ sourceItems sv (Update item itemId index) = Some (sv', [ev]) /\
    items sv' ≡ₚ items sv /\
    applyChange (items sv) ev = Some (items sv') /\
    sortColumn sv' = sortColumn sv /\ sortDirection sv' = sortDirection sv.
Proof.
  intros Hin. pose proof (indexOf_present _ _ Hin) as H0.
  pose proof (indexOf_lookup _ _ H0) as Hl. pose proof (indexOf_lt (items sv) item) as Hlt.
  assert (js_get (items sv) (indexOf item (items sv)) = Some item) as Hget
    by (by apply js_get_Some).
  assert (exists ins,
            match sortColumn sv with
            | Some column =>
                findInsertionIndex (items sv) item (comparator σ column (sortDirection sv))
            | None => Some (indexOf item (items sv))
            end = Some ins /\ 0 <= ins <= Z.of_nat (length (items sv))) as (ins & Hins & Hb).
  { destruct (sortColumn sv) as [c|].
    - apply findInsertionIndex_total.
    - eexists. split; [done|]. lia. }
  unfold SortView.onSourceChanged. rewrite Hins. simpl.
  set (old := indexOf item (items sv)) in *.
  set (adj := if old <? ins then ins - 1 else ins).
  destruct (Z.eqb_spec old adj) as [Heq|Hne].
  - eexists _, _. split; [reflexivity|]. simpl. split_and!; [done| |done..].
    by rewrite decide_True.
  - eexists _, _. split; [reflexivity|]. simpl.
    assert (0 <= adj <= Z.of_nat (length (splice_delete old (items sv)))) as Hadj.
    { rewrite (splice_delete_length _ item) by done. unfold adj.
      destruct (Z.ltb_spec old ins); lia. }
    split_and!; [|by rewrite (removeAtRow_get _ _ _ Hget); simpl; apply insertAt_inrange|done..].
    rewrite splice_insert_perm, (splice_delete_get _ item) by done.
    symmetry. by apply delete_Permutation.
Qed.

(** X16: an upstream [Reset] makes the view a copy of the upstream sequence,
    sorted by the active column if there is one and in upstream order
    otherwise, and raises exactly one [Reset]. *)
Theorem sort_reset_rebuilds (σ : T -> V) (sourceItems : list T) (sv : SortView T Column) :
  exists sv',
    onSourceChanged σ sourceItems sv Reset = Some (sv', [Reset]) /\
    items sv' ≡ₚ sourceItems /\
    sortColumn sv' = sortColumn sv /\ sortDirection sv' = sortDirection sv /\
    match sortColumn sv with
    | Some c => sorted (comparator σ c (sortDirection sv)) (items sv')
    | None => items sv' = sourceItems
    end.
Proof.
  unfold SortView.onSourceChanged, SortView.reset. simpl.
  eexists. split; [reflexivity|]. simpl.
  destruct (sortColumn sv) as [c|]; split_and!; try done.
  - apply array_sort_perm.
  - apply array_sort_sorted, comparator_Comparator.
Qed.
End SortViewMore.

Lemma demo_sorted_is_sorted :
  sorted (SortView.comparator demo_value demo_store tt (SortView.sortDirection demo_sorted))
    (SortView.items demo_sorted).
Proof.
  repeat constructor. vm_compute. discriminate.
Qed.

Lemma sort_view_stays_sorted_witness :
  SortView.sortColumn demo_sorted = Some tt /\
  exists sv' evs,
    SortView.onSourceChanged demo_value demo_store [0%nat; 1%nat; 2%nat] demo_sorted
      (Insert 2%nat "c" 2 true) = Some (sv', evs) /\
    sorted (SortView.comparator demo_value demo_store tt (SortView.sortDirection demo_sorted))
      (SortView.items sv').
Proof.
  split; [reflexivity|].
  destruct (sort_view_stays_sorted demo_value demo_store [0%nat; 1%nat; 2%nat] demo_sorted tt
              (Insert 2%nat "c" 2 true) eq_refl demo_sorted_is_sorted)
    as (sv' & evs & Hev & _ & _ & Hsorted).
  - intros item itemId index. discriminate.
  - exists sv', evs. split; [exact Hev|exact Hsorted].
Defined.

Lemma sort_update_keeps_items_witness :
  1%nat ∈ SortView.items demo_sorted /\
  exists sv' ev,
    SortView.onSourceChanged demo_value demo_store [0%nat; 1%nat] demo_sorted
      (Update 1%nat "b" 1) = Some (sv', [ev]) /\
    applyChange (SortView.items demo_sorted) ev = Some (SortView.items sv').
Proof.
  assert (1%nat ∈ SortView.items demo_sorted) as Hin by (simpl; left).
  split; [exact Hin|].
  destruct (sort_update_keeps_items demo_value demo_store [0%nat; 1%nat] demo_sorted
              1%nat "b"%string 1 Hin) as (sv' & ev & Hev & _ & Happly & _).
  exists sv', ev. split; [exact Hev|exact Happly].
Defined.

(** ** The filter transform, continued *)

Ltac no_such_record H :=
  repeat (apply elem_of_cons in H as [H|H]; [discriminate H|]);
  by apply elem_of_nil in H.

Section FilterViewMore.
Context {T V : Type} `{EqDecision T} (getItemId : T -> string).
Import FilterView Pipeline.
Abbreviation exec := (@Pipeline.exec T V _ getItemId).
Abbreviation invariant := (@Pipeline.invariant T V getItemId).
Abbreviation raisedBy := (@Pipeline.raisedBy T V _ getItemId).

Lemma insertAt_end (x : T) (l : list T) :
  insertAt (Z.of_nat (length (l ++ [x])) - 1) x l = Some (l ++ [x]).
Proof.
  rewrite length_app. simpl.
  replace (Z.of_nat (length l + 1) - 1) with (Z.of_nat (length l)) by lia.
  unfold insertAt. destruct (Z.leb_spec 0 (Z.of_nat (length l))); [|lia].
  rewrite Z.leb_refl. simpl. rewrite Nat2Z.id, take_ge, drop_ge by lia. done.
Qed.

Lemma removeAtRow_indexOf (x : T) (l : list T) :
  x ∈ l -> removeAtRow (indexOf x l) x l = Some (splice_delete (indexOf x l) l).
Proof.
  intros Hin. apply removeAtRow_get, js_get_Some.
  pose proof (indexOf_present _ _ Hin). split; [done|]. by apply indexOf_lookup.
Qed.

Lemma js_get_indexOf (x : T) (l : list T) :
  x ∈ l -> js_get l (indexOf x l) = Some x.
Proof.
  intros Hin. apply js_get_Some.
  pose proof (indexOf_present _ _ Hin). split; [done|]. by apply indexOf_lookup.
Qed.

Lemma js_get_elem_of (l : list T) (i : Z) (x : T) : js_get l i = Some x -> x ∈ l.
Proof. intros [_ Hl]%js_get_Some. by eapply list_elem_of_lookup_2. Qed.

(** X17: between two upstream resets a consumer can follow the filter view
    from its records alone. For a view attached to its source, whenever
    the records raised for one upstream change or one [setPredicate] call
    contain no [Reset], applying them in order to the visible sequence
    before the change gives the visible sequence after it: every index
    they carry is the item's index in the view. *)
Theorem filter_records_replay (s s' : System T V) (c : Change T V) :
  invariant s -> exec s c = Some s' ->
  Reset ∉ raisedBy s c ->
  replay (items (view s)) (raisedBy s c) = Some (items (view s')).
Proof.
  intros (Hnd & Hcache & Hitems) Hexec Hnr.
  destruct c as [item v index nw|index|index v|σ' src'| |p]; simpl in Hexec, Hnr |- *.
  - destruct (_ && _); [|done]. injection Hexec as <-. simpl.
    destruct (passes _ _ item); simpl; [|done].
    by rewrite insertAt_end.
  - destruct (js_get (source s) index) as [item|] eqn:Hget; [|done].
    simpl in Hexec. injection Hexec as <-. simpl.
    destruct (passes (predicate (view s)) (store s) item) eqn:Hp; simpl; [|done].
    assert (item ∈ items (view s)) as Hin.
    { rewrite Hitems. apply elem_of_passing. split; [done|]. by eapply js_get_elem_of. }
    by rewrite removeAtRow_indexOf.
  - destruct (js_get (source s) index) as [item|] eqn:Hget; [|done].
    simpl in Hexec. injection Hexec as <-. simpl.
    pose proof (js_get_elem_of _ _ _ Hget) as Hsrc.
    rewrite (Hcache item Hsrc).
    clear Hnr.
    destruct (passes (predicate (view s)) (store s) item) eqn:Hold.
    + assert (item ∈ items (view s)) as Hin.
      { rewrite Hitems. by apply elem_of_passing. }
      destruct (passes (predicate (view s)) (<[item:=v]> (store s)) item); simpl.
      * by rewrite decide_True by (by apply js_get_indexOf).
      * by rewrite removeAtRow_indexOf.
    + destruct (passes (predicate (view s)) (<[item:=v]> (store s)) item); simpl.
      * by rewrite insertAt_end.
      * done.
  - exfalso. apply Hnr. by left.
  - by injection Hexec as <-.
  - injection Hexec as <-. simpl.
    unfold FilterView.setPredicate in *.
    destruct (fold_left _ _ _) as [[st f] [|]]; simpl in *; [|done].
    exfalso. apply Hnr. by left.
Qed.

(** X18: a [Reset] raised by the filter view always comes with the view
    rebuilt in upstream order. For a view attached to its source, whenever
    the records raised for an upstream change or a [setPredicate] call
    contain a [Reset], the visible sequence afterwards is exactly the
    upstream items that pass the predicate, in upstream order; and only an
    upstream [Reset] or a [setPredicate] call makes the view raise one. *)
Theorem filter_reset_restores_upstream_order (s s' : System T V) (c : Change T V) :
  invariant s -> exec s c = Some s' ->
  Reset ∈ raisedBy s c ->
  items (view s') = passing (predicate (view s')) (store s') (source s') /\
  ((exists σ sourceItems, c = WasReset σ sourceItems) \/ (exists p, c = PredicateSet p)).
Proof.
  intros (Hnd & Hcache & Hitems) Hexec Hr.
  destruct c as [item v index nw|index|index v|σ' src'| |p]; simpl in Hexec, Hr.
  - exfalso. destruct (passes _ _ item); simpl in Hr; no_such_record Hr.
  - exfalso. destruct (js_get (source s) index) as [item|]; [|no_such_record Hr].
    destruct (passes _ _ item); simpl in Hr; no_such_record Hr.
  - exfalso. destruct (js_get (source s) index) as [item|]; [|no_such_record Hr].
    destruct (passes _ _ item); case_decide; simpl in Hr;
      try destruct (itemFilterState _ !! _) as [[|]|]; simpl in Hr; no_such_record Hr.
  - destruct (bool_decide _) eqn:Hnd'; [|done]. apply bool_decide_eq_true in Hnd'.
    injection Hexec as <-. simpl.
    destruct (rebuild_spec getItemId (view s) σ' src' Hnd') as (Hp & Hi & _).
    rewrite Hp, Hi. split; [done|]. left. eauto.
  - exfalso. no_such_record Hr.
  - injection Hexec as <-. simpl. split; [|right; eauto].
    unfold FilterView.setPredicate in *.
    pose proof (setPredicate_fold_filtered getItemId p (store s) (source s)
                  (itemFilterState (view s)) [] false) as Hf.
    destruct (fold_left _ _ _) as [[st f] [|]]; simpl in *; [done|].
    by apply elem_of_nil in Hr.
Qed.
End FilterViewMore.

Lemma two_attached_invariant : Pipeline.invariant demo_id two_attached.
Proof. apply attach_invariant, two_ids_distinct. Qed.

Lemma filter_records_replay_witness :
  exists s',
    Pipeline.exec demo_id two_attached (Pipeline.Updated 0 5) = Some s' /\
    replay (FilterView.items (Pipeline.view two_attached))
      (Pipeline.raisedBy demo_id two_attached (Pipeline.Updated 0 5))
    = Some (FilterView.items (Pipeline.view s')).
Proof.
  eexists. split; [reflexivity|].
  apply (filter_records_replay demo_id two_attached _ (Pipeline.Updated 0 5)
           two_attached_invariant eq_refl).
  assert (Pipeline.raisedBy demo_id two_attached (Pipeline.Updated 0 5)
          = [Insert 10%nat "a"%string 1 false]) as -> by reflexivity.
  not_in_list.
Defined.

Lemma filter_reset_restores_upstream_order_witness :
  exists s',
    Pipeline.exec demo_id two_attached (Pipeline.PredicateSet None) = Some s' /\
    FilterView.items (Pipeline.view s') = [10%nat; 11%nat].
Proof.
  eexists. split; [reflexivity|].
  destruct (filter_reset_restores_upstream_order demo_id two_attached _
              (Pipeline.PredicateSet None) two_attached_invariant eq_refl) as [Hitems _].
  - assert (Pipeline.raisedBy demo_id two_attached (Pipeline.PredicateSet None)
            = [Reset; Scroll]) as -> by reflexivity.
    left.
  - rewrite Hitems. reflexivity.
Defined.

(** ** The window transform, continued *)

(** The rows under a window: [n] items from position [o] on. *)
Section Rows.
Context {A : Type} `{EqDecision A}.
Implicit Types (l : list A) (x : A) (o n k i j : nat).
Local Open Scope nat_scope.

Lemma js_slice_rows (a b : Z) l :
  (0 <= a)%Z -> (0 <= b)%Z ->
  js_slice a (a + b) l = take (Z.to_nat b) (drop (Z.to_nat a) l).
Proof.
  intros Ha Hb. unfold js_slice.
  destruct (Z.ltb_spec a 0); [lia|]. destruct (Z.ltb_spec (a + b) 0); [lia|].
  destruct (decide (Z.to_nat a <= length l)) as [Hle|Hgt].
  - replace (Z.to_nat (Z.min a (Z.of_nat (length l)))) with (Z.to_nat a) by lia.
    destruct (decide (Z.to_nat a + Z.to_nat b <= length l)).
    + f_equal. lia.
    + rewrite !take_ge; [done|rewrite length_drop; lia..].
  - rewrite !drop_ge by lia. by rewrite !take_nil.
Qed.

Lemma rows_length o n l : length (take n (drop o l)) = n `min` (length l - o).
Proof. by rewrite length_take, length_drop. Qed.

Lemma rows_snoc o n l x :
  l !! (o + n) = Some x -> take (S n) (drop o l) = take n (drop o l) ++ [x].
Proof. intros Hx. apply take_S_r. by rewrite lookup_drop. Qed.

Lemma rows_short o n l :
  length l <= o + n -> take (S n) (drop o l) = take n (drop o l).
Proof. intros Hl. rewrite !take_ge; [done|rewrite length_drop; lia..]. Qed.

Lemma rows_cons o n l x :
  l !! o = Some x -> take (S n) (drop o l) = x :: take n (drop (S o) l).
Proof. intros Hx. by rewrite (drop_S _ _ _ Hx). Qed.

Lemma rows_beyond o n l : length l <= o -> take n (drop o l) = [].
Proof. intros Hl. rewrite drop_ge by done. apply take_nil. Qed.

Lemma lookup_insert_at i x l j :
  i <= length l ->
  (take i l ++ x :: drop i l) !! j
  = if decide (j < i) then l !! j else if decide (j = i) then Some x else l !! (j - 1).
Proof.
  intros Hi. case_decide as Hlt.
  - rewrite lookup_app_l by (rewrite length_take; lia). by apply lookup_take_lt.
  - rewrite lookup_app_r by (rewrite length_take; lia).
    rewrite length_take. replace (i `min` length l) with i by lia.
    case_decide as Heq.
    + subst j. by rewrite Nat.sub_diag.
    + destruct (j - i) as [|d] eqn:Hd; [lia|]. simpl. rewrite lookup_drop. f_equal. lia.
Qed.
End Rows.

Ltac rows_ext j :=
  apply list_eq; intros j;
  repeat first
    [ rewrite lookup_take | rewrite lookup_drop | rewrite list_lookup_delete
    | rewrite lookup_insert_at by (rewrite ?rows_length; lia) ].

Ltac rows_leaf :=
  first [ lia | done | f_equal; lia
        | apply lookup_ge_None; lia | symmetry; apply lookup_ge_None; lia ].

Section RowChanges.
Context {A : Type} `{EqDecision A}.
Implicit Types (l : list A) (x : A) (o n k i j : nat).
Local Open Scope nat_scope.

Lemma rows_delete_before o n k l :
  k < o -> k < length l ->
  take n (drop (o - 1) (delete k l)) = take n (drop o l).
Proof.
  intros Hk Hl. rows_ext j. repeat case_decide; try lia; try done. f_equal. lia.
Qed.

Lemma rows_delete_after o n k l :
  o + n <= k -> take n (drop o (delete k l)) = take n (drop o l).
Proof.
  intros Hk. rows_ext j. repeat case_decide; try lia; try done.
Qed.

Lemma rows_delete_inside o n k l :
  o <= k -> take n (drop o (delete k l)) = take n (delete (k - o) (drop o l)).
Proof.
  intros Hk. rows_ext j. repeat case_decide; try lia; try done; f_equal; lia.
Qed.
End RowChanges.

Section RowBridge.
Context {A : Type} `{EqDecision A}.
Implicit Types (l rows : list A) (x : A).

Lemma js_get_nat l (i : nat) : js_get l (Z.of_nat i) = l !! i.
Proof. unfold js_get. destruct (Z.ltb_spec (Z.of_nat i) 0); [lia|]. by rewrite Nat2Z.id. Qed.

Lemma js_get_to_nat l (z : Z) : 0 <= z -> js_get l z = l !! Z.to_nat z.
Proof. intros Hz. unfold js_get. destruct (Z.ltb_spec z 0); [lia|done]. Qed.

Lemma insertAt_nat (z : Z) (i : nat) x rows :
  z = Z.of_nat i -> (i <= length rows)%nat ->
  insertAt z x rows = Some (take i rows ++ x :: drop i rows).
Proof.
  intros -> Hi. unfold insertAt.
  destruct (Z.leb_spec 0 (Z.of_nat i)); [|lia].
  destruct (Z.leb_spec (Z.of_nat i) (Z.of_nat (length rows))); [|lia].
  simpl. by rewrite Nat2Z.id.
Qed.

Lemma removeAtRow_nat (z : Z) (i : nat) x rows :
  z = Z.of_nat i -> rows !! i = Some x ->
  removeAtRow z x rows = Some (delete i rows).
Proof.
  intros -> Hx. unfold removeAtRow. rewrite js_get_nat, decide_True by done.
  by rewrite Nat2Z.id.
Qed.
End RowBridge.

Section ReplaySteps.
Context {T : Type} `{EqDecision T}.
Implicit Types (src rows : list T) (o n a : nat).

Lemma replay_app rows (evs1 evs2 : list (CollectionChange T)) :
  replay rows (evs1 ++ evs2) = replay rows evs1 ≫= fun rows' => replay rows' evs2.
Proof.
  revert rows. induction evs1 as [|ev evs1 IH]; intros rows; simpl; [done|].
  destruct (applyChange rows ev) as [rows'|]; simpl; [apply IH|done].
Qed.

(** One more row under the window, at its end. *)
Lemma replay_expose o a src (id : T -> string) :
  replay (take a (drop o src))
    (match src !! (o + a)%nat with
     | Some x => [Insert x (id x) (Z.of_nat a) false]
     | None => []
     end)
  = Some (take (S a) (drop o src)).
Proof.
  destruct (src !! (o + a)%nat) as [x|] eqn:Hx; simpl.
  - apply lookup_lt_Some in Hx as Hlen.
    assert (length (take a (drop o src)) = a) as Hrows by (rewrite rows_length; lia).
    rewrite (insertAt_nat _ a) by lia. simpl. f_equal.
    rewrite (rows_snoc _ _ _ _ Hx).
    by rewrite (take_ge (take a (drop o src))), (drop_ge (take a (drop o src))) by lia.
  - apply lookup_ge_None in Hx. by rewrite rows_short.
Qed.

(** One row less under the window, at its end. *)
Lemma replay_hide o a src (id : T -> string) :
  replay (take (S a) (drop o src))
    (match src !! (o + a)%nat with
     | Some x => [Remove x (id x) (Z.of_nat a)]
     | None => []
     end)
  = Some (take a (drop o src)).
Proof.
  destruct (src !! (o + a)%nat) as [x|] eqn:Hx; simpl.
  - apply lookup_lt_Some in Hx as Hlen. rewrite (rows_snoc _ _ _ _ Hx).
    assert (length (take a (drop o src)) = a) as Hrows by (rewrite rows_length; lia).
    rewrite (removeAtRow_nat _ a);
      [|done|by rewrite lookup_app_r, Hrows, Nat.sub_diag by lia].
    simpl. f_equal. rewrite <- Hrows at 1. by rewrite delete_middle, app_nil_r.
  - apply lookup_ge_None in Hx. by rewrite rows_short.
Qed.

(** The window slides down by one row: the top row leaves, the row below
    the window, if any, enters at the bottom. *)
Lemma replay_leaving o n src (id : T -> string) :
  (1 <= n)%nat ->
  replay (take n (drop o src))
    (match src !! o, src !! (o + n)%nat with
     | Some r, Some x => [Replace r (id r) 0 x (id x) (Z.of_nat n - 1)]
     | Some r, None => [Remove r (id r) 0]
     | None, _ => []
     end)
  = Some (take n (drop (S o) src)).
Proof.
  intros Hn. destruct (src !! o) as [r|] eqn:Hr.
  - assert (take n (drop o src) !! 0%nat = Some r) as Hrow.
    { rewrite lookup_take_lt, lookup_drop by lia. by rewrite Nat.add_0_r. }
    destruct (src !! (o + n)%nat) as [x|] eqn:Hx; simpl.
    + apply lookup_lt_Some in Hx as Hlen.
      rewrite (removeAtRow_nat _ 0%nat) by done. simpl.
      assert (length (delete 0%nat (take n (drop o src))) = (n - 1)%nat) as Hrows
        by (rewrite length_delete, rows_length by eauto; lia).
      rewrite (insertAt_nat _ (n - 1)%nat) by lia. simpl. f_equal.
      rows_ext j. repeat case_decide; try rows_leaf.
      subst j. rewrite <- Hx. f_equal. lia.
    + apply lookup_ge_None in Hx.
      rewrite (removeAtRow_nat _ 0%nat) by done. simpl. f_equal.
      rows_ext j. repeat case_decide; rows_leaf.
  - apply lookup_ge_None in Hr. simpl. f_equal.
    by rewrite !rows_beyond by lia.
Qed.

(** The window slides up by one row: the row above the window enters at
    the top, the bottom row leaves when the window was full. *)
Lemma replay_entering o n src (id : T -> string) :
  (1 <= n)%nat ->
  replay (take n (drop (S o) src))
    (match src !! o, src !! (o + n)%nat with
     | Some x, Some r => [Replace r (id r) (Z.of_nat n - 1) x (id x) 0]
     | Some x, None => [Insert x (id x) 0 false]
     | None, _ => []
     end)
  = Some (take n (drop o src)).
Proof.
  intros Hn. destruct (src !! o) as [x|] eqn:Hx.
  - destruct (src !! (o + n)%nat) as [r|] eqn:Hr; simpl.
    + apply lookup_lt_Some in Hr as Hlen.
      rewrite (removeAtRow_nat _ (n - 1)%nat);
        [|lia|rewrite lookup_take_lt, lookup_drop by lia; rewrite <- Hr; f_equal; lia].
      simpl.
      rewrite (insertAt_nat _ 0%nat) by lia. simpl. f_equal.
      apply list_eq. intros [|j]; simpl.
      * rewrite lookup_take_lt, lookup_drop by lia. by rewrite Nat.add_0_r.
      * repeat first [rewrite lookup_take | rewrite lookup_drop | rewrite list_lookup_delete].
        repeat case_decide; rows_leaf.
    + apply lookup_ge_None in Hr.
      rewrite (insertAt_nat _ 0%nat) by lia. simpl. f_equal.
      apply list_eq. intros [|j]; simpl.
      * rewrite lookup_take_lt, lookup_drop by lia. by rewrite Nat.add_0_r.
      * repeat first [rewrite lookup_take | rewrite lookup_drop].
        repeat case_decide; rows_leaf.
  - apply lookup_ge_None in Hx. simpl. f_equal.
    by rewrite !rows_beyond by lia.
Qed.
End ReplaySteps.

Section WindowViewMore.
Context {T : Type} `{EqDecision T} (getItemId : T -> string).
Import WindowView.
Abbreviation onSourceChanged := (onSourceChanged getItemId).
Abbreviation setWindowOffset := (setWindowOffset getItemId).
Abbreviation setWindowSize := (setWindowSize getItemId).

Lemma getAllItems_rows (wv : WindowView) (sourceItems : list T) :
  0 <= offset wv -> 0 <= windowSize wv ->
  getAllItems wv sourceItems
  = take (Z.to_nat (windowSize wv)) (drop (Z.to_nat (offset wv)) sourceItems).
Proof. intros Ho Hn. unfold getAllItems. by apply js_slice_rows. Qed.

(** X19: after an upstream removal the window's records keep a consumer in
    step. For a window with non-negative offset and size and an upstream
    that has just removed the item at [index], the view raises records
    which, applied in order to the rows it showed before, give the rows it
    shows now; a removal before the window moves the offset down by one so
    that the same rows stay visible. *)
Theorem window_remove_replays (wv : WindowView) (sourceItems : list T)
    (index : Z) (item : T) :
  0 <= offset wv -> 0 <= windowSize wv ->
  js_get sourceItems index = Some item ->
  exists wv' evs,
    onSourceChanged wv (splice_delete index sourceItems)
      (Remove item (getItemId item) index) = Returned wv' evs /\
    replay (getAllItems wv sourceItems) evs
    = Some (getAllItems wv' (splice_delete index sourceItems)) /\
    windowSize wv' = windowSize wv /\ 0 <= offset wv' /\
    offset wv' = (if index <? offset wv then offset wv - 1 else offset wv).
Proof.
  intros Ho Hn Hget. rewrite (splice_delete_get _ _ _ Hget).
  apply js_get_Some in Hget as [Hk Hitem]. apply lookup_lt_Some in Hitem as Hlen.
  destruct wv as [size off]. simpl in *.
  set (k := Z.to_nat index) in *. set (o := Z.to_nat off). set (n := Z.to_nat size).
  assert (index = Z.of_nat k) as Hindex by lia. rewrite Hindex. clear Hindex.
  assert (off = Z.of_nat o) as Hoff by lia. assert (size = Z.of_nat n) as Hsize by lia.
  unfold WindowView.onSourceChanged, toWindowIndex, isValidWindowIndex. simpl.
  destruct (Z.leb_spec 0 (Z.of_nat k - off)); simpl.
  - destruct (Z.ltb_spec (Z.of_nat k - off) size); simpl.
    + (* inside the window *)
      destruct (Z.ltb_spec (Z.of_nat k) off); [lia|].
      unfold WindowView.remove. simpl. rewrite length_delete by eauto.
      assert (take n (drop o sourceItems) !! (k - o)%nat = Some item) as Hrow.
      { rewrite lookup_take_lt, lookup_drop by lia. rewrite <- Hitem. f_equal. lia. }
      destruct (Z.leb_spec (off + size) (Z.of_nat (length sourceItems - 1))).
      * rewrite js_get_to_nat by lia.
        replace (Z.to_nat (off + size - 1)) with (o + n - 1)%nat by lia.
        destruct (delete k sourceItems !! (o + n - 1)%nat) as [a|] eqn:Ha.
        2:{ apply lookup_ge_None in Ha. rewrite length_delete in Ha by eauto. lia. }
        eexists _, _. split; [reflexivity|]. split; [|simpl; lia].
        rewrite !getAllItems_rows by (simpl; lia). simpl. fold o n.
        rewrite (removeAtRow_nat _ (k - o)%nat) by (done || lia). simpl.
        assert (length (delete (k - o)%nat (take n (drop o sourceItems))) = (n - 1)%nat)
          as Hrows by (rewrite length_delete, rows_length by eauto; lia).
        rewrite (insertAt_nat _ (n - 1)%nat) by lia.
        simpl. f_equal. rewrite list_lookup_delete in Ha.
        rows_ext j. repeat case_decide; try lia; try done; try (f_equal; lia).
        all: rewrite <- Ha; f_equal; lia.
      * eexists _, _. split; [reflexivity|]. split; [|simpl; lia].
        rewrite !getAllItems_rows by (simpl; lia). simpl. fold o n.
        rewrite (removeAtRow_nat _ (k - o)%nat) by (done || lia). simpl.
        f_equal. rows_ext j. repeat case_decide; try lia; try done; try (f_equal; lia).
        all: symmetry; apply lookup_ge_None; lia.
    + (* after the window *)
      destruct (Z.ltb_spec (Z.of_nat k - off) 0); [lia|].
      destruct (Z.ltb_spec (Z.of_nat k) off); [lia|].
      eexists _, _. split; [reflexivity|]. split; [|simpl; lia].
      rewrite !getAllItems_rows by (simpl; lia). simpl. fold o n.
      by rewrite rows_delete_after by lia.
  - (* before the window *)
    destruct (Z.ltb_spec (Z.of_nat k - off) 0); [|lia].
    destruct (Z.ltb_spec (Z.of_nat k) off); [|lia].
    eexists _, _. split; [reflexivity|]. split; [|simpl; lia].
    rewrite !getAllItems_rows by (simpl; lia). simpl.
    replace (Z.to_nat (off - 1)) with (o - 1)%nat by lia. fold o n.
    by rewrite rows_delete_before by lia.
Qed.

(** X20: after an upstream insertion at or after the window's offset the
    window's records keep a consumer in step: applied in order to the rows
    shown before, they give the rows shown now, the last row making room
    when the window is full. *)
Theorem window_insert_replays (wv : WindowView) (sourceItems : list T)
    (index : Z) (item : T) (isNewlyAdded : bool) :
  0 <= windowSize wv ->
  0 <= offset wv <= index -> index <= Z.of_nat (length sourceItems) ->
  exists evs,
    onSourceChanged wv (splice_insert index item sourceItems)
      (Insert item (getItemId item) index isNewlyAdded) = Returned wv evs /\
    replay (getAllItems wv sourceItems) evs
    = Some (getAllItems wv (splice_insert index item sourceItems)).
Proof.
  intros Hn Ho Hk. rewrite splice_insert_inrange by lia.
  destruct wv as [size off]. simpl in *.
  set (k := Z.to_nat index) in *. set (o := Z.to_nat off). set (n := Z.to_nat size).
  assert (index = Z.of_nat k) as Hindex by lia. rewrite Hindex. clear Hindex.
  assert (off = Z.of_nat o) as Hoff by lia. assert (size = Z.of_nat n) as Hsize by lia.
  assert (k <= length sourceItems)%nat as Hlen by lia.
  unfold WindowView.onSourceChanged, toWindowIndex, isValidWindowIndex. simpl.
  destruct (Z.leb_spec 0 (Z.of_nat k - off)); [|lia]. simpl.
  destruct (Z.ltb_spec (Z.of_nat k - off) size); simpl.
  - unfold WindowView.insert. simpl.
    rewrite length_app, length_take. simpl. rewrite length_drop.
    destruct (Z.ltb_spec (off + size) (Z.of_nat (k `min` length sourceItems
                                                  + S (length sourceItems - k)))).
    + rewrite js_get_to_nat by lia.
      replace (Z.to_nat (off + size)) with (o + n)%nat by lia.
      rewrite lookup_insert_at by lia.
      rewrite decide_False, decide_False by lia.
      destruct (sourceItems !! (o + n - 1)%nat) as [r|] eqn:Hr.
      2:{ apply lookup_ge_None in Hr. lia. }
      eexists. split; [reflexivity|].
      rewrite !getAllItems_rows by (simpl; lia). simpl. fold o n.
      rewrite (removeAtRow_nat _ (n - 1)%nat);
        [|lia|rewrite lookup_take_lt, lookup_drop by lia; rewrite <- Hr; f_equal; lia].
      simpl.
      assert (length (delete (n - 1)%nat (take n (drop o sourceItems))) = (n - 1)%nat)
        as Hrows.
      { rewrite length_delete, rows_length; [lia|].
        apply lookup_lt_is_Some. rewrite rows_length. lia. }
      rewrite (insertAt_nat _ (k - o)%nat) by lia.
      simpl. f_equal.
      rows_ext j. repeat case_decide; try lia; try done; try (f_equal; lia).
    + eexists. split; [reflexivity|].
      rewrite !getAllItems_rows by (simpl; lia). simpl. fold o n.
      rewrite (insertAt_nat _ (k - o)%nat) by (rewrite ?rows_length; lia).
      simpl. f_equal.
      rows_ext j. repeat case_decide; rows_leaf.
  - eexists. split; [reflexivity|].
    rewrite !getAllItems_rows by (simpl; lia). simpl. fold o n. f_equal.
    rows_ext j. repeat case_decide; try lia; try done; try (f_equal; lia).
Qed.

(** X21: an upstream insertion before the window is not compensated the way
    a removal is. The view keeps its offset and raises only [Scroll], yet
    the rows under the window are now those one position earlier in the
    old upstream: a consumer that follows the records keeps the rows of
    the old window. *)
Theorem window_insert_before_shifts_rows (wv : WindowView) (sourceItems : list T)
    (index : Z) (item : T) (isNewlyAdded : bool) :
  0 <= windowSize wv ->
  0 <= index < offset wv -> index <= Z.of_nat (length sourceItems) ->
  onSourceChanged wv (splice_insert index item sourceItems)
    (Insert item (getItemId item) index isNewlyAdded) = Returned wv [Scroll] /\
  getAllItems wv (splice_insert index item sourceItems)
  = getAllItems {| windowSize := windowSize wv; offset := offset wv - 1 |} sourceItems.
Proof.
  intros Hn Ho Hk. rewrite splice_insert_inrange by lia.
  destruct wv as [size off]. simpl in *.
  set (k := Z.to_nat index) in *. set (o := Z.to_nat off). set (n := Z.to_nat size).
  assert (k <= length sourceItems)%nat as Hlen by lia.
  unfold WindowView.onSourceChanged, toWindowIndex, isValidWindowIndex. simpl.
  destruct (Z.leb_spec 0 (index - off)); [lia|]. simpl. split; [done|].
  rewrite !getAllItems_rows by (simpl; lia). simpl.
  replace (Z.to_nat (off - 1)) with (o - 1)%nat by lia. fold o n.
  rows_ext j. repeat case_decide; try lia; try done; try (f_equal; lia).
Qed.

Lemma exposed_row_spec (wv : WindowView) (items : list T) (i : Z) :
  exposed_row getItemId wv items i
  = match js_get items (i + offset wv) with
    | Some item => [Insert item (getItemId item) i false]
    | None => []
    end.
Proof.
  unfold exposed_row. destruct (_ || _) eqn:E; [|done].
  rewrite (proj2 (js_get_None items (i + offset wv))); [done|].
  apply orb_prop in E as [E|E]; [apply Z.ltb_lt in E|apply Z.leb_le in E]; lia.
Qed.

Lemma hidden_row_spec (wv : WindowView) (items : list T) (i : Z) :
  hidden_row getItemId wv items i
  = match js_get items (i + offset wv) with
    | Some item => [Remove item (getItemId item) i]
    | None => []
    end.
Proof.
  unfold hidden_row. destruct (_ || _) eqn:E; [|done].
  rewrite (proj2 (js_get_None items (i + offset wv))); [done|].
  apply orb_prop in E as [E|E]; [apply Z.ltb_lt in E|apply Z.leb_le in E]; lia.
Qed.

Lemma exposed_replay (wv : WindowView) (o : nat) (src : list T) :
  offset wv = Z.of_nat o ->
  forall m a : nat,
    replay (take a (drop o src))
      (flat_map (exposed_row getItemId wv src) (seqZ (Z.of_nat a) (Z.of_nat m)))
    = Some (take (a + m) (drop o src)).
Proof.
  intros Ho. induction m as [|m IH]; intros a.
  - by rewrite Nat.add_0_r.
  - rewrite seqZ_cons by lia. simpl flat_map. rewrite replay_app.
    rewrite exposed_row_spec, Ho, <- Nat2Z.inj_add, js_get_nat, (Nat.add_comm a o).
    rewrite replay_expose. simpl.
    replace (Z.succ (Z.of_nat a)) with (Z.of_nat (S a)) by lia.
    replace (Z.pred (Z.of_nat (S m))) with (Z.of_nat m) by lia.
    rewrite IH. f_equal. f_equal. lia.
Qed.

Lemma hidden_replay (wv : WindowView) (o : nat) (src : list T) :
  offset wv = Z.of_nat o ->
  forall m a : nat,
    replay (take (a + m) (drop o src))
      (flat_map (hidden_row getItemId wv src) (reverse (seqZ (Z.of_nat a) (Z.of_nat m))))
    = Some (take a (drop o src)).
Proof.
  intros Ho. induction m as [|m IH]; intros a.
  - by rewrite Nat.add_0_r.
  - rewrite seqZ_S, reverse_snoc. simpl flat_map. rewrite replay_app.
    rewrite hidden_row_spec, Ho, <- !Nat2Z.inj_add, js_get_nat.
    replace (a + S m)%nat with (S (a + m)) by lia.
    replace (a + m + o)%nat with (o + (a + m))%nat by lia.
    rewrite replay_hide. simpl. apply IH.
Qed.

Lemma scrollDown_replay (wv : WindowView) (n old : nat) (src : list T) :
  windowSize wv = Z.of_nat n -> (1 <= n)%nat ->
  forall m i : nat,
    replay (take n (drop (old + i) src))
      (flat_map (scrollDown_row getItemId wv (Z.of_nat old) src)
         (seqZ (Z.of_nat i) (Z.of_nat m)))
    = Some (take n (drop (old + i + m) src)).
Proof.
  intros Hsize Hn. induction m as [|m IH]; intros i.
  - by rewrite Nat.add_0_r.
  - rewrite seqZ_cons by lia. simpl flat_map. rewrite replay_app.
    rewrite scrollDown_row_spec, Hsize, <- !Nat2Z.inj_add, !js_get_nat.
    replace (old + n + i)%nat with (old + i + n)%nat by lia.
    unfold leavingRow. rewrite replay_leaving by done. simpl.
    replace (Z.succ (Z.of_nat i)) with (Z.of_nat (S i)) by lia.
    replace (Z.pred (Z.of_nat (S m))) with (Z.of_nat m) by lia.
    replace (S (old + i)) with (old + S i)%nat by lia.
    rewrite IH. f_equal. f_equal. f_equal. lia.
Qed.

Lemma scrollUp_replay (wv : WindowView) (n o : nat) (src : list T) :
  windowSize wv = Z.of_nat n -> offset wv = Z.of_nat o -> (1 <= n)%nat ->
  forall m : nat,
    replay (take n (drop (o + m) src))
      (flat_map (scrollUp_row getItemId wv src) (reverse (seqZ 0 (Z.of_nat m))))
    = Some (take n (drop o src)).
Proof.
  intros Hsize Ho Hn. induction m as [|m IH].
  - by rewrite Nat.add_0_r.
  - rewrite seqZ_S, reverse_snoc. simpl flat_map. rewrite replay_app.
    rewrite scrollUp_row_spec, Hsize, Ho, Z.add_0_l, <- !Nat2Z.inj_add, !js_get_nat.
    replace (o + n + m)%nat with (o + m + n)%nat by lia.
    replace (o + S m)%nat with (S (o + m)) by lia.
    unfold enteringRow. rewrite replay_entering by done. simpl. apply IH.
Qed.

(** X22: resizing the window keeps a consumer in step. A negative size is
    refused with an error that leaves the view as it was; any other size
    is adopted, and the records raised (one [Insert] per row exposed, in
    increasing row order, or one [Remove] per row hidden, from the last
    row up, then [Scroll]), applied in order to the rows shown before, give
    the rows shown afterwards. Asking for the current size raises
    nothing. *)
Theorem setWindowSize_replays (wv : WindowView) (sourceItems : list T) (size : Z) :
  0 <= offset wv -> 0 <= windowSize wv ->
  (size < 0 -> setWindowSize wv sourceItems size = Threw wv []) /\
  (0 <= size ->
     exists evs,
       setWindowSize wv sourceItems size
       = Returned {| windowSize := size; offset := offset wv |} evs /\
       replay (getAllItems wv sourceItems) evs
       = Some (getAllItems {| windowSize := size; offset := offset wv |} sourceItems) /\
       (size = windowSize wv -> evs = [])).
Proof.
  intros Ho Hn. destruct wv as [old off]. simpl in *.
  unfold WindowView.setWindowSize. simpl. split.
  - intros Hneg. destruct (Z.eqb_spec old size); [lia|].
    destruct (Z.ltb_spec size 0); [done|lia].
  - intros Hsize. destruct (Z.eqb_spec old size) as [->|Hne].
    { eexists. split; [reflexivity|]. done. }
    destruct (Z.ltb_spec size 0); [lia|].
    set (o := Z.to_nat off). assert (off = Z.of_nat o) as Hoff by lia.
    destruct (Z.ltb_spec old size).
    + assert (exists a m : nat, old = Z.of_nat a /\ size = Z.of_nat (a + m))
        as (a & m & -> & ->)
        by (exists (Z.to_nat old), (Z.to_nat size - Z.to_nat old)%nat; lia).
      eexists. split; [reflexivity|]. split; [|done].
      rewrite !getAllItems_rows by (simpl; lia). simpl. fold o.
      rewrite replay_app, !Nat2Z.id.
      replace (Z.of_nat (a + m) - Z.of_nat a) with (Z.of_nat m) by lia.
      by rewrite (exposed_replay _ o) by done.
    + assert (exists a m : nat, size = Z.of_nat a /\ old = Z.of_nat (a + m))
        as (a & m & -> & ->)
        by (exists (Z.to_nat size), (Z.to_nat old - Z.to_nat size)%nat; lia).
      eexists. split; [reflexivity|]. split; [|done].
      rewrite !getAllItems_rows by (simpl; lia). simpl. fold o.
      rewrite replay_app, !Nat2Z.id.
      replace (Z.of_nat (a + m) - Z.of_nat a) with (Z.of_nat m) by lia.
      by rewrite (hidden_replay _ o) by done.
Qed.

(** X23: a small scroll keeps a consumer in step. When the new offset (the
    truncated argument) is not negative and less than half a window away
    from the current one, [setWindowOffset] adopts it and raises one
    record per row scrolled and then [Scroll]; applied in order to the
    rows shown before, these records give the rows shown afterwards. *)
Theorem setWindowOffset_replays (wv : WindowView) (sourceItems : list T) (arg : Q) :
  0 <= offset wv ->
  0 <= toInt32 arg ->
  2 * Z.abs (toInt32 arg - offset wv) < windowSize wv ->
  exists evs,
    setWindowOffset wv sourceItems arg
    = Returned {| windowSize := windowSize wv; offset := toInt32 arg |} evs /\
    replay (getAllItems wv sourceItems) evs
    = Some (getAllItems {| windowSize := windowSize wv; offset := toInt32 arg |}
              sourceItems).
Proof.
  intros Ho Hnew Hnear. destruct wv as [size off]. simpl in *.
  unfold WindowView.setWindowOffset. simpl.
  set (new := toInt32 arg) in *.
  destruct (Z.eqb_spec off new) as [->|Hne].
  { eexists. split; [reflexivity|]. done. }
  destruct (Z.ltb_spec new 0); [lia|].
  destruct (Z.leb_spec size (2 * Z.abs (new - off))); [lia|].
  set (n := Z.to_nat size). assert (size = Z.of_nat n) as Hsize by lia.
  assert (1 <= n)%nat as Hn by lia.
  destruct (Z.gtb_spec (new - off) 0).
  - assert (exists a m : nat, off = Z.of_nat a /\ new = Z.of_nat (a + m))
      as (a & m & -> & Hnew')
      by (exists (Z.to_nat off), (Z.to_nat new - Z.to_nat off)%nat; lia).
    rewrite Hnew'. clear Hnew'.
    eexists. split; [reflexivity|].
    rewrite !getAllItems_rows by (simpl; lia). simpl. fold n.
    rewrite replay_app, !Nat2Z.id.
    replace (Z.of_nat (a + m) - Z.of_nat a) with (Z.of_nat m) by lia.
    change 0 with (Z.of_nat 0).
    replace a with (a + 0)%nat at 1 by lia.
    rewrite (scrollDown_replay _ n) by done. simpl. f_equal. f_equal. f_equal. lia.
  - assert (exists a m : nat, new = Z.of_nat a /\ off = Z.of_nat (a + m))
      as (a & m & Hnew' & ->)
      by (exists (Z.to_nat new), (Z.to_nat off - Z.to_nat new)%nat; lia).
    rewrite Hnew'. clear Hnew'.
    eexists. split; [reflexivity|].
    rewrite !getAllItems_rows by (simpl; lia). simpl. fold n.
    rewrite replay_app, !Nat2Z.id.
    replace (- (Z.of_nat a - Z.of_nat (a + m))) with (Z.of_nat m) by lia.
    by rewrite (scrollUp_replay _ n a) by (simpl; lia).
Qed.
End WindowViewMore.

Ltac zbools :=
  repeat match goal with
         | |- context [?a <? ?b] => destruct (Z.ltb_spec a b)
         | |- context [?a <=? ?b] => destruct (Z.leb_spec a b)
         end.

Section MovedRows.
Context {T : Type} `{EqDecision T}.
Implicit Types (src rows : list T).

(** The array after [splice(k, 1)] and [splice(m, 0, item)]. *)
Lemma moved_lookup src (k m j : nat) (item : T) :
  (k < length src)%nat -> (m < length src)%nat ->
  (take m (delete k src) ++ item :: drop m (delete k src)) !! j
  = if decide (j = m) then Some item
    else if decide (j < m)%nat
         then (if decide (j < k)%nat then src !! j else src !! S j)
         else (if decide (j - 1 < k)%nat then src !! (j - 1)%nat else src !! j).
Proof.
  intros Hk Hm.
  assert (length (delete k src) = (length src - 1)%nat) as Hdel
    by (rewrite length_delete by (by apply lookup_lt_is_Some); lia).
  rewrite lookup_insert_at by lia. rewrite !list_lookup_delete.
  repeat case_decide; try lia; try done. f_equal. lia.
Qed.

Lemma replay_replace rows (r x : T) (idr idx : string) (ri xi : Z) (a b : nat) :
  ri = Z.of_nat a -> xi = Z.of_nat b ->
  rows !! a = Some r -> (b < length rows)%nat ->
  replay rows [Replace r idr ri x idx xi]
  = Some (take b (delete a rows) ++ x :: drop b (delete a rows)).
Proof.
  intros -> -> Hr Hb. simpl.
  rewrite (removeAtRow_nat _ a) by done. simpl.
  rewrite (insertAt_nat _ b); [done..|].
  rewrite length_delete by eauto. lia.
Qed.

Lemma replay_nil rows : replay rows [] = Some rows.
Proof. done. Qed.

Lemma replay_move rows (r : T) (idr : string) (ri xi : Z) (a b : nat) :
  ri = Z.of_nat a -> xi = Z.of_nat b ->
  rows !! a = Some r -> (b < length rows)%nat ->
  replay rows [Move r idr ri xi]
  = Some (take b (delete a rows) ++ r :: drop b (delete a rows)).
Proof.
  intros -> -> Hr Hb. simpl.
  rewrite (removeAtRow_nat _ a) by done. simpl.
  rewrite (insertAt_nat _ b); [done..|].
  rewrite length_delete by eauto. lia.
Qed.
End MovedRows.

Ltac moved_rows j :=
  apply list_eq; intros j;
  repeat first
    [ rewrite lookup_take | rewrite lookup_drop | rewrite list_lookup_delete
    | rewrite moved_lookup by (rewrite ?rows_length; lia) ].

Ltac moved_leaf :=
  first [ lia | done | f_equal; lia
        | apply lookup_ge_None; lia | symmetry; apply lookup_ge_None; lia
        | match goal with
          | H : _ !! _ = Some ?x |- Some ?x = _ => rewrite <- H; f_equal; lia
          | H : _ !! _ = Some ?x |- _ = Some ?x => rewrite <- H; f_equal; lia
          end ].

Ltac upstream_item :=
  match goal with
  | |- context [WindowView.raiseReplace _ _ (?l !! ?e)] =>
      let Hr := fresh "Hrow" in
      destruct (l !! e) eqn:Hr; [|apply lookup_ge_None in Hr; lia]
  | |- context [WindowView.raiseReplace _ _ _ _ (?l !! ?e)] =>
      let Hr := fresh "Hrow" in
      destruct (l !! e) eqn:Hr; [|apply lookup_ge_None in Hr; lia]
  end.

Section WindowMove.
Context {T : Type} `{EqDecision T} (getItemId : T -> string).
Import WindowView.
Abbreviation onSourceChanged := (onSourceChanged getItemId).

(** X24: after an upstream move the window's records keep a consumer in
    step, wherever the item comes from and goes to. For a window of at
    least one row, a move inside the window raises a [Move] with both
    indices translated, a move across or into or out of the window raises
    one [Replace] that takes out the row leaving the window and brings in
    the row entering it, and a move that stays on one side raises nothing;
    in each case the records applied to the rows shown before give the
    rows shown now. *)
Theorem window_move_replays (wv : WindowView) (sourceItems : list T)
    (oldIndex newIndex : Z) (item : T) :
  0 <= offset wv -> 1 <= windowSize wv ->
  js_get sourceItems oldIndex = Some item ->
  0 <= newIndex < Z.of_nat (length sourceItems) ->
  exists evs,
    onSourceChanged wv
      (splice_insert newIndex item (splice_delete oldIndex sourceItems))
      (Move item (getItemId item) oldIndex newIndex) = Returned wv evs /\
    replay (getAllItems wv sourceItems) evs
    = Some (getAllItems wv
              (splice_insert newIndex item (splice_delete oldIndex sourceItems))).
Proof.
  intros Ho Hn Hget Hnew. rewrite (splice_delete_get _ _ _ Hget).
  apply js_get_Some in Hget as [Hk Hitem]. apply lookup_lt_Some in Hitem as Hlen.
  assert (length (delete (Z.to_nat oldIndex) sourceItems) = (length sourceItems - 1)%nat)
    as Hdel by (rewrite length_delete by eauto; lia).
  rewrite splice_insert_inrange by lia.
  rewrite !getAllItems_rows by lia.
  destruct wv as [size off]. simpl in *.
  assert (exists o n k m : nat, off = Z.of_nat o /\ size = Z.of_nat n /\
            oldIndex = Z.of_nat k /\ newIndex = Z.of_nat m)
    as (o & n & k & m & -> & -> & -> & ->).
  { exists (Z.to_nat off), (Z.to_nat size), (Z.to_nat oldIndex), (Z.to_nat newIndex). lia. }
  rewrite !Nat2Z.id in *.
  unfold WindowView.onSourceChanged, toWindowIndex. simpl.
  assert (k < length sourceItems)%nat as Hk' by lia.
  assert (m < length sourceItems)%nat as Hm' by lia.
  zbools; simpl; try lia.
  all: rewrite ?js_get_to_nat by lia; rewrite ?moved_lookup by lia.
  all: repeat case_decide; try lia.
  all: repeat upstream_item.
  all: unfold raiseReplace, CollectionChange_.replace, CollectionChange_.move;
    eexists; (split; [reflexivity|]).
  all: try match goal with
       | |- replay ?rows [Replace ?r _ ?ri ?x _ ?xi] = _ =>
           rewrite (replay_replace rows r x _ _ ri xi (Z.to_nat ri) (Z.to_nat xi));
           [ | lia | lia
             | rewrite lookup_take_lt, lookup_drop by lia; moved_leaf
             | rewrite rows_length; lia ]
       | |- replay ?rows [Move ?r _ ?ri ?xi] = _ =>
           rewrite (replay_move rows r _ ri xi (Z.to_nat ri) (Z.to_nat xi));
           [ | lia | lia
             | rewrite lookup_take_lt, lookup_drop by lia; moved_leaf
             | rewrite rows_length; lia ]
       end.
  all: rewrite ?replay_nil; f_equal; moved_rows j; repeat case_decide; moved_leaf.
Qed.
End WindowMove.

Section WindowRest.
Context {T : Type} `{EqDecision T} (getItemId : T -> string).
Import WindowView.
Abbreviation onSourceChanged := (onSourceChanged getItemId).
Abbreviation setWindowOffset := (setWindowOffset getItemId).
Abbreviation setWindowSize := (setWindowSize getItemId).

(** X25: an upstream [Update] reaches the consumer only for a row under the
    window, with the row's index in the window: the record raised names
    the item as the row it is. Outside the window nothing is raised. *)
Theorem window_update_translated (wv : WindowView) (sourceItems : list T)
    (index : Z) (item : T) :
  0 <= offset wv -> 0 <= windowSize wv ->
  js_get sourceItems index = Some item ->
  let inside := offset wv <= index < offset wv + windowSize wv in
  (inside ->
     onSourceChanged wv sourceItems (Update item (getItemId item) index)
     = Returned wv [Update item (getItemId item) (index - offset wv)] /\
     js_get (getAllItems wv sourceItems) (index - offset wv) = Some item) /\
  (~ inside ->
     onSourceChanged wv sourceItems (Update item (getItemId item) index)
     = Returned wv []).
Proof.
  intros Ho Hn Hget. cbv zeta.
  unfold WindowView.onSourceChanged, toWindowIndex, isValidWindowIndex. split.
  - intros Hin. destruct (Z.leb_spec 0 (index - offset wv)); [|lia].
    destruct (Z.ltb_spec (index - offset wv) (windowSize wv)); [|lia].
    split; [done|]. rewrite getAllItems_rows by done.
    apply js_get_Some in Hget as [Hk Hitem]. apply js_get_Some. split; [lia|].
    rewrite lookup_take_lt, lookup_drop by lia. rewrite <- Hitem. f_equal. lia.
  - intros Hout. destruct (Z.leb_spec 0 (index - offset wv)); [|done].
    destruct (Z.ltb_spec (index - offset wv) (windowSize wv)); [lia|done].
Qed.

(** X26: the window never gets a negative offset or size. From a view with
    non-negative offset and size, an upstream record (a [Remove] carrying
    a non-negative index), [setWindowOffset] and [setWindowSize] all leave
    both non-negative, whether they return or throw; an upstream record
    never changes the size, and only a [Remove] before the window changes
    the offset. *)
Theorem window_stays_well_formed (wv : WindowView) (sourceItems : list T) :
  0 <= offset wv -> 0 <= windowSize wv ->
  (forall event,
     (forall item itemId index, event = Remove item itemId index -> 0 <= index) ->
     let wv' := final_state (onSourceChanged wv sourceItems event) in
     0 <= offset wv' /\ windowSize wv' = windowSize wv /\
     (is_Remove event = false -> wv' = wv)) /\
  (forall arg,
     let wv' := final_state (setWindowOffset wv sourceItems arg) in
     0 <= offset wv' /\ windowSize wv' = windowSize wv) /\
  (forall size,
     let wv' := final_state (setWindowSize wv sourceItems size) in
     0 <= windowSize wv' /\ offset wv' = offset wv).
Proof.
  intros Ho Hn. split_and!.
  - intros event Hev. cbv zeta.
    destruct event as [item id idx nw|item id idx|item id idx|item id o n| |oi oid oidx item id idx|];
      unfold WindowView.onSourceChanged; simpl.
    + destruct (isValidWindowIndex _ _); [|done].
      unfold WindowView.insert. destruct (_ <? _); [|done]. by destruct (js_get _ _).
    + destruct (isValidWindowIndex _ _); [|done]. by split_and!.
    + specialize (Hev _ _ _ eq_refl).
      destruct (isValidWindowIndex _ _).
      * unfold WindowView.remove. destruct (_ <=? _); [|done]. by destruct (js_get _ _).
      * unfold toWindowIndex. destruct (Z.ltb_spec (idx - offset wv) 0); simpl; [|done].
        split_and!; [lia|done|done].
    + unfold raiseReplace.
      repeat match goal with
             | |- context [if ?b then _ else _] => destruct b
             | |- context [match js_get ?l ?i with _ => _ end] => destruct (js_get l i)
             end; done.
    + done.
    + done.
    + done.
  - intros arg. cbv zeta. unfold WindowView.setWindowOffset.
    destruct (Z.eqb_spec (offset wv) (toInt32 arg)); [done|].
    destruct (Z.ltb_spec (toInt32 arg) 0); [done|].
    destruct (_ <=? _); [done|]. by destruct (_ >? _).
  - intros size. cbv zeta. unfold WindowView.setWindowSize.
    destruct (Z.eqb_spec (windowSize wv) size); [done|].
    destruct (Z.ltb_spec size 0); [done|]. by destruct (_ <? _).
Qed.
End WindowRest.

Lemma window_remove_replays_witness :
  0 <= WindowView.offset late_window /\ 0 <= WindowView.windowSize late_window /\
  js_get demo_upstream 0 = Some 10%nat /\
  exists wv' evs,
    WindowView.onSourceChanged demo_id late_window (splice_delete 0 demo_upstream)
      (Remove 10%nat (demo_id 10%nat) 0) = Returned wv' evs /\
    replay (WindowView.getAllItems late_window demo_upstream) evs
    = Some (WindowView.getAllItems wv' (splice_delete 0 demo_upstream)) /\
    WindowView.offset wv' = 1.
Proof.
  split; [simpl; lia|]. split; [simpl; lia|]. split; [reflexivity|].
  destruct (window_remove_replays demo_id late_window demo_upstream 0 10%nat
              ltac:(simpl; lia) ltac:(simpl; lia) eq_refl)
    as (wv' & evs & Hev & Hreplay & _ & _ & Hoff).
  exists wv', evs. split; [exact Hev|]. split; [exact Hreplay|exact Hoff].
Defined.

Lemma window_insert_replays_witness :
  0 <= WindowView.windowSize demo_window /\
  0 <= WindowView.offset demo_window <= 1 /\
  1 <= Z.of_nat (length demo_upstream) /\
  exists evs,
    WindowView.onSourceChanged demo_id demo_window (splice_insert 1 9%nat demo_upstream)
      (Insert 9%nat (demo_id 9%nat) 1 true) = Returned demo_window evs /\
    replay (WindowView.getAllItems demo_window demo_upstream) evs
    = Some (WindowView.getAllItems demo_window (splice_insert 1 9%nat demo_upstream)).
Proof.
  split; [simpl; lia|]. split; [simpl; lia|]. split; [simpl; lia|].
  apply (window_insert_replays demo_id demo_window demo_upstream 1 9%nat true);
    simpl; lia.
Defined.

Lemma window_insert_before_shifts_rows_witness :
  0 <= WindowView.windowSize late_window /\
  0 <= 0 < WindowView.offset late_window /\
  0 <= Z.of_nat (length demo_upstream) /\
  WindowView.onSourceChanged demo_id late_window (splice_insert 0 9%nat demo_upstream)
    (Insert 9%nat (demo_id 9%nat) 0 true) = Returned late_window [Scroll] /\
  WindowView.getAllItems late_window (splice_insert 0 9%nat demo_upstream)
  = [11%nat; 12%nat].
Proof.
  split; [simpl; lia|]. split; [simpl; lia|]. split; [simpl; lia|].
  destruct (window_insert_before_shifts_rows demo_id late_window demo_upstream 0 9%nat true
              ltac:(simpl; lia) ltac:(simpl; lia) ltac:(simpl; lia)) as [Hev Hrows].
  split; [exact Hev|]. rewrite Hrows. reflexivity.
Defined.

Lemma setWindowSize_replays_witness :
  0 <= WindowView.offset demo_window /\ 0 <= WindowView.windowSize demo_window /\
  exists evs,
    WindowView.setWindowSize demo_id demo_window demo_upstream 3
    = Returned {| WindowView.windowSize := 3; WindowView.offset := 0 |} evs /\
    replay (WindowView.getAllItems demo_window demo_upstream) evs
    = Some (WindowView.getAllItems {| WindowView.windowSize := 3; WindowView.offset := 0 |}
              demo_upstream).
Proof.
  split; [simpl; lia|]. split; [simpl; lia|].
  destruct (setWindowSize_replays demo_id demo_window demo_upstream 3
              ltac:(simpl; lia) ltac:(simpl; lia)) as [_ Hsize].
  destruct (Hsize ltac:(lia)) as (evs & Hev & Hreplay & _).
  exists evs. split; [exact Hev|exact Hreplay].
Defined.

Lemma setWindowOffset_replays_witness :
  0 <= WindowView.offset wide_window /\ 0 <= toInt32 1 /\
  2 * Z.abs (toInt32 1 - WindowView.offset wide_window) < WindowView.windowSize wide_window /\
  exists evs,
    WindowView.setWindowOffset demo_id wide_window wide_upstream 1
    = Returned {| WindowView.windowSize := 5; WindowView.offset := 1 |} evs /\
    replay (WindowView.getAllItems wide_window wide_upstream) evs
    = Some (WindowView.getAllItems {| WindowView.windowSize := 5; WindowView.offset := 1 |}
              wide_upstream).
Proof.
  split; [simpl; lia|]. split; [vm_compute; discriminate|]. split; [vm_compute; reflexivity|].
  apply (setWindowOffset_replays demo_id wide_window wide_upstream 1).
  - simpl. lia.
  - vm_compute. discriminate.
  - vm_compute. reflexivity.
Defined.

Lemma window_move_replays_witness :
  0 <= WindowView.offset demo_window /\ 1 <= WindowView.windowSize demo_window /\
  js_get demo_upstream 0 = Some 10%nat /\
  0 <= 3 < Z.of_nat (length demo_upstream) /\
  exists evs,
    WindowView.onSourceChanged demo_id demo_window
      (splice_insert 3 10%nat (splice_delete 0 demo_upstream))
      (Move 10%nat (demo_id 10%nat) 0 3) = Returned demo_window evs /\
    replay (WindowView.getAllItems demo_window demo_upstream) evs
    = Some (WindowView.getAllItems demo_window
              (splice_insert 3 10%nat (splice_delete 0 demo_upstream))).
Proof.
  split; [simpl; lia|]. split; [simpl; lia|]. split; [reflexivity|]. split; [simpl; lia|].
  apply (window_move_replays demo_id demo_window demo_upstream 0 3 10%nat);
    [simpl; lia|simpl; lia|reflexivity|simpl; lia].
Defined.

Lemma window_update_translated_witness :
  0 <= WindowView.offset late_window /\ 0 <= WindowView.windowSize late_window /\
  js_get demo_upstream 3 = Some 13%nat /\
  WindowView.onSourceChanged demo_id late_window demo_upstream
    (Update 13%nat (demo_id 13%nat) 3)
  = Returned late_window [Update 13%nat (demo_id 13%nat) 1].
Proof.
  split; [simpl; lia|]. split; [simpl; lia|]. split; [reflexivity|].
  destruct (window_update_translated demo_id late_window demo_upstream 3 13%nat
              ltac:(simpl; lia) ltac:(simpl; lia) eq_refl) as [Hin _].
  apply Hin. simpl. lia.
Defined.

Lemma window_stays_well_formed_witness :
  0 <= WindowView.offset late_window /\ 0 <= WindowView.windowSize late_window /\
  0 <= WindowView.offset
         (final_state (WindowView.onSourceChanged demo_id late_window demo_upstream
                         (Remove 9%nat "x"%string 0))).
Proof.
  split; [simpl; lia|]. split; [simpl; lia|].
  destruct (window_stays_well_formed demo_id late_window demo_upstream
              ltac:(simpl; lia) ltac:(simpl; lia)) as (Hev & _ & _).
  apply (Hev (Remove 9%nat "x"%string 0)).
  intros item itemId index [= _ _ <-]. lia.
Defined.

(** ** Changes of items that have left the collection *)

Section StaleUpdates.
Context {T : Type} `{EqDecision T} (getItemId : T -> string).
Import DataSource.

(** X27: the collection never drops its registration on an item. After
    [removeAt] has taken an item out of a consistent collection, a change
    of that item still makes the collection raise its [Update] records,
    now with index -1; and once the item has been added again, every
    change raises one [Update] more than before, each with the item's new
    index. *)
Theorem removed_item_still_raises_updates (s : DataSource T) (subs : T -> nat)
    (index : Z) (x : T) :
  consistent getItemId s -> get s index = Some x ->
  let s' := final_state (removeAt getItemId s index) in
  itemChanged getItemId s' subs x = replicate (subs x) (Update x (getItemId x) (-1)) /\
  itemChanged getItemId (final_state (add getItemId s' x)) (add_subs getItemId s' subs x) x
  = replicate (S (subs x)) (Update x (getItemId x) (Z.of_nat (length (items s')))).
Proof.
  intros Hc Hget. cbv zeta. unfold get in Hget.
  pose proof Hget as [Hi Hl]%js_get_Some. pose proof (lookup_lt_Some _ _ _ Hl) as Hlt.
  assert (x ∉ delete (Z.to_nat index) (items s)) as Hnin.
  { destruct Hc as [Hnd _].
    assert (NoDup (items s)) as Hnd' by (by apply (NoDup_fmap_1 getItemId)).
    rewrite (delete_Permutation _ _ _ Hl) in Hnd'. by apply NoDup_cons in Hnd' as [? _]. }
  unfold DataSource.removeAt, splice_removed.
  rewrite (splice_delete_get index x (items s) Hget).
  rewrite splice_start_inrange by lia. rewrite Hl. simpl.
  unfold itemChanged, add_subs, subscribeItemUpdates, DataSource.add. simpl. split.
  - by rewrite (indexOf_absent _ _ Hnin).
  - assert (idExists {| items := delete (Z.to_nat index) (items s);
                        itemById := delete (getItemId x) (itemById s) |} (getItemId x)
            = false) as ->.
    { apply idExists_false. simpl. split; [by rewrite lookup_delete_eq|].
      destruct Hc as (_ & _ & _ & Hown). apply Hown, list_elem_of_In.
      by eapply list_elem_of_lookup_2. }
    simpl. rewrite fn_lookup_insert. by rewrite (indexOf_app_fresh _ _ Hnin).
Qed.
End StaleUpdates.

Section StaleUpdatesDownstream.
Context {T V Column : Type} `{EqDecision T} `{EqDecision Column}
        (getItemId : T -> string)
        (getSortValue : Column -> V -> option Z).


(** X29: a sort view gives up its last item for one it does not hold. On an
    [Update] for an item that is not in the view, [indexOf] answers -1;
    with an active sort column and a search result [ins] above 0, the
    view drops its last item ([splice(-1, 1)]), puts the updated item in
    at [ins - 1] and raises a [Move] from index -1. With no sort column,
    or when the search answers 0, the view stays as it is and raises an
    [Update] with index -1. *)
Theorem sort_update_of_absent_item (σ : T -> V) (sourceItems : list T)
    (sv : SortView.SortView T Column) (item : T) (itemId : string) (index : Z) :
  item ∉ SortView.items sv ->
  (SortView.sortColumn sv = None ->
     SortView.onSourceChanged getSortValue σ sourceItems sv (Update item itemId index)
     = Some (sv, [Update item itemId (-1)])) /\
  (forall c, SortView.sortColumn sv = Some c ->
     exists ins,
       findInsertionIndex (SortView.items sv) item
         (SortView.comparator getSortValue σ c (SortView.sortDirection sv)) = Some ins /\
       0 <= ins <= Z.of_nat (length (SortView.items sv)) /\
       (ins = 0 ->
          SortView.onSourceChanged getSortValue σ sourceItems sv (Update item itemId index)
          = Some (sv, [Update item itemId (-1)])) /\
       (0 < ins ->
          SortView.onSourceChanged getSortValue σ sourceItems sv (Update item itemId index)
          = Some (SortView.withItems sv
                    (splice_insert (ins - 1) item
                       (take (length (SortView.items sv) - 1) (SortView.items sv))),
                  [Move item itemId (-1) (ins - 1)]))).
Proof.
  intros Hnin. pose proof (splice_delete_absent item (SortView.items sv) Hnin) as Hdel.
  unfold SortView.onSourceChanged. rewrite Hdel, (indexOf_absent _ _ Hnin). split.
  - intros ->. reflexivity.
  - intros c ->.
    destruct (findInsertionIndex_total
                (SortView.comparator getSortValue σ c (SortView.sortDirection sv))
                (SortView.items sv) item) as (ins & Hins & Hbounds).
    exists ins. rewrite Hins. cbn -[Z.eqb Z.ltb Z.sub]. split_and!; [done|lia|lia| |].
    + intros ->. reflexivity.
    + intros Hpos. destruct (Z.ltb_spec (-1) ins); [|lia].
      destruct (Z.eqb_spec (-1) (ins - 1)); [lia|]. reflexivity.
Qed.
End StaleUpdatesDownstream.

Lemma removed_item_still_raises_updates_witness :
  DataSource.consistent id ds_a /\ DataSource.get ds_a 0 = Some "a"%string /\
  DataSource.itemChanged id (final_state (DataSource.removeAt id ds_a 0))
    (fun _ => 1%nat) "a"%string
  = [Update "a"%string "a"%string (-1)].
Proof.
  split; [exact ds_a_consistent|]. split; [reflexivity|].
  pose proof (removed_item_still_raises_updates id ds_a (fun _ => 1%nat) 0 "a"%string
                ds_a_consistent eq_refl) as Hleak.
  cbv zeta in Hleak. destruct Hleak as [Hgone _]. exact Hgone.
Defined.


Lemma sort_update_of_absent_item_witness :
  (2%nat ∉ SortView.items demo_sorted) /\
  exists ins,
    findInsertionIndex (SortView.items demo_sorted) 2%nat
      (SortView.comparator demo_value demo_store tt (SortView.sortDirection demo_sorted))
    = Some ins /\
    0 <= ins <= Z.of_nat (length (SortView.items demo_sorted)).
Proof.
  assert (2%nat ∉ SortView.items demo_sorted) as Hnin by not_in_list.
  split; [exact Hnin|].
  destruct (sort_update_of_absent_item demo_value demo_store [0%nat; 1%nat] demo_sorted
              2%nat "c"%string 0 Hnin) as [_ Hcol].
  destruct (Hcol tt eq_refl) as (ins & Hins & Hbounds & _).
  exists ins. split; [exact Hins|exact Hbounds].
Defined.
